(** * Drift: the write-ahead log, its replay engine and its client facade

    A shallow embedding of

    - [packages/lib/src/wal/WAL.ts]               (module [WAL]),
    - [packages/lib/src/walmanager/WalManager.ts] (module [WALManager]),
    - [durablity/DurabilityManager.ts]            (module [DurabilityManager]),
    - [client/DurableWal.ts]                      (module [DurableWal]),

    together with the parts of the JavaScript platform these files call
    (string primitives, numbers, [JSON.parse], [JSON.stringify],
    [path.join], [fs/promises]).

    Asynchronous functions are embedded as finite interaction trees
    ([prog]): every [await], and every call into the platform or into the
    caller's callbacks, is a node whose answer is supplied by the
    environment; reads and writes of object fields are nodes over a heap.
    A program can be run to completion against any environment ([run]),
    or only up to its first suspension ([start]). *)

From Stdlib Require Import ZArith NArith QArith Qround Qminmax Lqa List String Ascii Lia Bool.
From Stdlib Require Import PrimFloat FloatOps SpecFloat.
From stdpp Require Import base gmap sets list strings.
From Stdlib Require DecimalPos.

Close Scope Q_scope.
#[local] Set Warnings "-register-all".
#[local] Set Warnings "-notation-for-abbreviation".
Local Open Scope Z_scope.

(* ================================================================== *)
(** ** JavaScript strings and arrays *)
(* ================================================================== *)

Module JS.

(** A JavaScript string is a sequence of UTF-16 code units. *)
Abbreviation jsstr := (list N).

(** A literal of the source, written in ASCII. *)
Definition lit (s : string) : jsstr :=
  map N_of_ascii (list_ascii_of_string s).

(** The code unit of the line feed, ["\n"]. *)
Definition LF : N := 10%N.

(** WhiteSpace and LineTerminator code points of ECMAScript: those
    [String.prototype.trim] strips. *)
Definition is_white (c : N) : bool :=
  ((9 <=? c) && (c <=? 13) ||
   (c =? 32) || (c =? 160) || (c =? 5760) ||
   (8192 <=? c) && (c <=? 8202) ||
   (c =? 8232) || (c =? 8233) || (c =? 8239) || (c =? 8287) ||
   (c =? 12288) || (c =? 65279))%N.

Fixpoint trimStart (s : jsstr) : jsstr :=
  match s with
  | c :: r => if is_white c then trimStart r else s
  | [] => []
  end.

Definition trimEnd (s : jsstr) : jsstr := rev (trimStart (rev s)).

(** [s.trim()] *)
Definition trim (s : jsstr) : jsstr := trimEnd (trimStart s).

(** [s.split("\n")]: the pieces between line feeds; never an empty array. *)
Fixpoint split_LF (s : jsstr) : list jsstr :=
  match s with
  | [] => [[]]
  | c :: r =>
      if (c =? LF)%N then [] :: split_LF r
      else match split_LF r with
           | piece :: pieces => (c :: piece) :: pieces
           | [] => [[c]]
           end
  end.

(** [arr.slice(start)] for an integer [start]: a negative [start] counts
    from the end, and both ends are clamped to the array. *)
Definition slice {A} (start : Z) (arr : list A) : list A :=
  let len := Z.of_nat (length arr) in
  let k := if start <? 0 then Z.max (len + start) 0 else Z.min start len in
  drop (Z.to_nat k) arr.

(** Decimal digits of a natural number. *)
Fixpoint digits (d : Decimal.uint) : jsstr :=
  match d with
  | Decimal.Nil => []
  | Decimal.D0 d => 48%N :: digits d
  | Decimal.D1 d => 49%N :: digits d
  | Decimal.D2 d => 50%N :: digits d
  | Decimal.D3 d => 51%N :: digits d
  | Decimal.D4 d => 52%N :: digits d
  | Decimal.D5 d => 53%N :: digits d
  | Decimal.D6 d => 54%N :: digits d
  | Decimal.D7 d => 55%N :: digits d
  | Decimal.D8 d => 56%N :: digits d
  | Decimal.D9 d => 57%N :: digits d
  end.

(** [String(n)] for an integer [n] (the only numbers the code prints are
    counters and epoch milliseconds, far below 1e21). *)
Definition Number_toString (n : Z) : jsstr :=
  match n with
  | Z0 => [48%N]
  | Zpos p => digits (Pos.to_uint p)
  | Zneg p => 45%N :: digits (Pos.to_uint p)
  end.

(** What a [throw] or a rejection carries.  The repository only ever
    throws [new Error(message)]; the platform adds [SyntaxError]
    ([JSON.parse]), [TypeError] (property of [null]) and the system
    errors of [fs].  A callback of the caller may throw, or reject with,
    any value at all: of such a value the code only ever tests whether
    it is truthy ([undefined], [null], [false], [0], [NaN] and the empty
    string are not). *)
Inductive exn : Type :=
| Error (message : jsstr)
| TypeError (message : jsstr)
| SyntaxError (message : jsstr)
| SystemError (code : jsstr)
| NonError (truthy : bool).

(** [if (error)] *)
Definition truthy (error : exn) : bool :=
  match error with
  | NonError b => b
  | _ => true
  end.

End JS.
Export JS.

(* ================================================================== *)
(** ** Numbers *)
(* ================================================================== *)

Module Number.

(** A JavaScript number is an IEEE 754 binary64 value; [*], [+] and [-]
    are the operations of that format, rounding to nearest, ties to
    even.  They are the primitive operations of the proof assistant. *)
Abbreviation number := PrimFloat.float.

(** The number an integer converts to. *)
Definition of_Z (z : Z) : number :=
  SF2Prim (binary_normalize prec emax z 0 false).

(** The integer a number is, if it is one. *)
Definition to_Z (x : number) : option Z :=
  match Prim2SF x with
  | S754_zero _ => Some 0
  | S754_finite s m e =>
      let z := if s then Z.neg m else Z.pos m in
      if 0 <=? e then Some (Z.shiftl z e)
      else if Z.land (Z.pos m) (Z.ones (- e)) =? 0 then Some (Z.shiftr z (- e))
      else None
  | _ => None
  end.


(** [Math.floor(x)]: the greatest integer not above [x]; zeros,
    infinities and [NaN] are returned as they are. *)
Definition Math_floor (x : number) : number :=
  match Prim2SF x with
  | S754_finite s m e =>
      if e <? 0 then of_Z (Z.shiftr (if s then Z.neg m else Z.pos m) (- e))
      else x
  | _ => x
  end.

(** [Math.min(a, b)]: [NaN] if either is, and [-0] is below [+0]. *)
Definition Math_min (a b : number) : number :=
  if is_nan a || is_nan b then nan
  else if (a <? b)%float then a
  else if (b <? a)%float then b
  else if is_zero a && get_sign a then a
  else b.

End Number.
Export Number.

(* ================================================================== *)
(** ** JSON: the values, [JSON.parse] and [JSON.stringify] *)
(* ================================================================== *)

Module JSON.

(** The values [JSON.parse] produces, and [undefined], which reading an
    absent property produces.  An object keeps its members in source
    order. *)
Inductive jsval : Type :=
| JUndefined
| JNull
| JBool (b : bool)
| JNum (q : Q)
| JStr (s : jsstr)
| JArr (elements : list jsval)
| JObj (members : list (jsstr * jsval)).

Definition is_json_ws (c : N) : bool :=
  ((c =? 32) || (c =? 9) || (c =? 10) || (c =? 13))%N.

Fixpoint skip_ws (s : jsstr) : jsstr :=
  match s with
  | c :: r => if is_json_ws c then skip_ws r else s
  | [] => []
  end.

Definition hex_value (c : N) : option N :=
  (if (48 <=? c) && (c <=? 57) then Some (c - 48)
   else if (65 <=? c) && (c <=? 70) then Some (c - 55)
   else if (97 <=? c) && (c <=? 102) then Some (c - 87)
   else None)%N.

Definition hex4 (a b c d : N) : option N :=
  match hex_value a, hex_value b, hex_value c, hex_value d with
  | Some a, Some b, Some c, Some d => Some (((a * 16 + b) * 16 + c) * 16 + d)%N
  | _, _, _, _ => None
  end.

(** The character after a backslash, other than [u]. *)
Definition unescape (c : N) : option N :=
  (if c =? 34 then Some 34 else if c =? 92 then Some 92
   else if c =? 47 then Some 47 else if c =? 98 then Some 8
   else if c =? 102 then Some 12 else if c =? 110 then Some 10
   else if c =? 114 then Some 13 else if c =? 116 then Some 9
   else None)%N.

(** The characters of a string literal after its opening quote, up to
    and including the closing quote. *)
Fixpoint parse_chars (s acc : jsstr) : option (jsstr * jsstr) :=
  match s with
  | [] => None
  | c :: r =>
      if (c =? 34)%N then Some (rev acc, r)
      else if (c =? 92)%N then
        match r with
        | [] => None
        | e :: r1 =>
            if (e =? 117)%N then
              match r1 with
              | h1 :: h2 :: h3 :: h4 :: r2 =>
                  match hex4 h1 h2 h3 h4 with
                  | Some u => parse_chars r2 (u :: acc)
                  | None => None
                  end
              | _ => None
              end
            else match unescape e with
                 | Some u => parse_chars r1 (u :: acc)
                 | None => None
                 end
        end
      else if (c <? 32)%N then None
      else parse_chars r (c :: acc)
  end.

Definition is_digit (c : N) : bool := ((48 <=? c) && (c <=? 57))%N.

Fixpoint take_digits (s : jsstr) : list N * jsstr :=
  match s with
  | c :: r =>
      if is_digit c
      then let '(ds, rest) := take_digits r in ((c - 48)%N :: ds, rest)
      else ([], s)
  | [] => ([], [])
  end.

Definition digits_value (ds : list N) : Z :=
  fold_left (fun a d => 10 * a + Z.of_N d) ds 0.

(** The integer part: a lone zero, or digits that do not start with zero. *)
Definition parse_int (s : jsstr) : option (list N * jsstr) :=
  match take_digits s with
  | ([], _) => None
  | (0%N :: _ :: _, _) => None
  | (ds, rest) => Some (ds, rest)
  end.

Definition parse_frac (s : jsstr) : option (list N * jsstr) :=
  match s with
  | 46%N :: r =>
      match take_digits r with
      | ([], _) => None
      | (ds, rest) => Some (ds, rest)
      end
  | _ => Some ([], s)
  end.

Definition parse_exp (s : jsstr) : option (Z * jsstr) :=
  match s with
  | c :: r =>
      if ((c =? 101) || (c =? 69))%N then
        let '(neg, r1) :=
          match r with
          | 45%N :: r1 => (true, r1)
          | 43%N :: r1 => (false, r1)
          | _ => (false, r)
          end in
        match take_digits r1 with
        | ([], _) => None
        | (ds, rest) =>
            Some (if neg : bool then - digits_value ds else digits_value ds, rest)
        end
      else Some (0, s)
  | [] => Some (0, s)
  end.

Definition parse_number (s : jsstr) : option (Q * jsstr) :=
  let '(neg, s1) :=
    match s with
    | 45%N :: r => (true, r)
    | _ => (false, s)
    end in
  match parse_int s1 with
  | None => None
  | Some (ip, s2) =>
      match parse_frac s2 with
      | None => None
      | Some (fp, s3) =>
          match parse_exp s3 with
          | None => None
          | Some (e, s4) =>
              let mant := digits_value (ip ++ fp) in
              let q := (inject_Z mant *
                        Qpower (inject_Z 10) (e - Z.of_nat (length fp)))%Q in
              Some (if neg : bool then Qopp q else q, s4)
          end
      end
  end.

Fixpoint strip_prefix (p s : jsstr) : option jsstr :=
  match p, s with
  | [], _ => Some s
  | a :: p', b :: s' => if (a =? b)%N then strip_prefix p' s' else None
  | _ :: _, [] => None
  end.

Fixpoint parse_value (fuel : nat) (s : jsstr) : option (jsval * jsstr) :=
  match fuel with
  | O => None
  | S f =>
      match skip_ws s with
      | [] => None
      | c :: r =>
          if (c =? 123)%N then
            match skip_ws r with
            | 125%N :: r1 => Some (JObj [], r1)
            | _ => parse_members f r []
            end
          else if (c =? 91)%N then
            match skip_ws r with
            | 93%N :: r1 => Some (JArr [], r1)
            | _ => parse_elements f r []
            end
          else if (c =? 34)%N then
            match parse_chars r [] with
            | Some (str, r1) => Some (JStr str, r1)
            | None => None
            end
          else
            match strip_prefix (lit "true") (c :: r),
                  strip_prefix (lit "false") (c :: r),
                  strip_prefix (lit "null") (c :: r) with
            | Some r1, _, _ => Some (JBool true, r1)
            | _, Some r1, _ => Some (JBool false, r1)
            | _, _, Some r1 => Some (JNull, r1)
            | None, None, None =>
                match parse_number (c :: r) with
                | Some (q, r1) => Some (JNum q, r1)
                | None => None
                end
            end
      end
  end
with parse_elements (fuel : nat) (s : jsstr) (acc : list jsval)
  : option (jsval * jsstr) :=
  match fuel with
  | O => None
  | S f =>
      match parse_value f s with
      | None => None
      | Some (v, r) =>
          match skip_ws r with
          | 44%N :: r1 => parse_elements f r1 (v :: acc)
          | 93%N :: r1 => Some (JArr (rev (v :: acc)), r1)
          | _ => None
          end
      end
  end
with parse_members (fuel : nat) (s : jsstr) (acc : list (jsstr * jsval))
  : option (jsval * jsstr) :=
  match fuel with
  | O => None
  | S f =>
      match skip_ws s with
      | 34%N :: r =>
          match parse_chars r [] with
          | None => None
          | Some (key, r1) =>
              match skip_ws r1 with
              | 58%N :: r2 =>
                  match parse_value f r2 with
                  | None => None
                  | Some (v, r3) =>
                      match skip_ws r3 with
                      | 44%N :: r4 => parse_members f r4 ((key, v) :: acc)
                      | 125%N :: r4 => Some (JObj (rev ((key, v) :: acc)), r4)
                      | _ => None
                      end
                  end
              | _ => None
              end
          end
      | _ => None
      end
  end.

(** [JSON.parse(text)]: [None] stands for the [SyntaxError] it throws.
    The recursion is bounded by fuel; a call of the parser either has
    consumed a character or is the first call on an element of a
    container, hence the bound of twice the length of the text. *)
Definition parse (text : jsstr) : option jsval :=
  match parse_value (2 * length text + 2) text with
  | Some (v, rest) =>
      match skip_ws rest with
      | [] => Some v
      | _ :: _ => None
      end
  | None => None
  end.

(** [v[key]] on an object: of duplicate members the last one wins. *)
Definition member (key : jsstr) (members : list (jsstr * jsval)) : jsval :=
  fold_left (fun found kv => if bool_decide (kv.1 = key) then kv.2 else found)
            members JUndefined.

(** [v.data]: [null] and [undefined] have no properties and reading one
    throws; strings, numbers, booleans and arrays have no property of
    that name. *)
Definition get_data (v : jsval) : exn + jsval :=
  match v with
  | JUndefined | JNull =>
      inl (TypeError (lit "Cannot read properties of null (reading 'data')"))
  | JObj members => inr (member (lit "data") members)
  | _ => inr JUndefined
  end.

(** *** [JSON.stringify] of strings (QuoteJSONString) *)

Definition hex_digit (n : N) : N := (if n <? 10 then 48 + n else 87 + n)%N.

Definition UnicodeEscape (c : N) : jsstr :=
  [92; 117; hex_digit (c / 4096); hex_digit ((c / 256) mod 16);
   hex_digit ((c / 16) mod 16); hex_digit (c mod 16)]%N.

Definition is_lead_surrogate (c : N) : bool := ((55296 <=? c) && (c <=? 56319))%N.
Definition is_trail_surrogate (c : N) : bool := ((56320 <=? c) && (c <=? 57343))%N.

(** One code unit that is not part of a surrogate pair. *)
Definition quote_unit (c : N) : jsstr :=
  (if c =? 8 then [92; 98] else if c =? 9 then [92; 116]
   else if c =? 10 then [92; 110] else if c =? 12 then [92; 102]
   else if c =? 13 then [92; 114] else if c =? 34 then [92; 34]
   else if c =? 92 then [92; 92]
   else if (c <? 32) || is_lead_surrogate c || is_trail_surrogate c
        then UnicodeEscape c
   else [c])%N.

Fixpoint quote_units (s : jsstr) : jsstr :=
  match s with
  | [] => []
  | c :: r =>
      if is_lead_surrogate c then
        match r with
        | d :: r1 =>
            if is_trail_surrogate d then c :: d :: quote_units r1
            else quote_unit c ++ quote_units r
        | [] => quote_unit c
        end
      else quote_unit c ++ quote_units r
  end.

Definition QuoteJSONString (s : jsstr) : jsstr :=
  [34%N] ++ quote_units s ++ [34%N].

End JSON.
Export JSON.

(* ================================================================== *)
(** ** [packages/lib/src/wal/WAL.ts] *)
(* ================================================================== *)

Module WAL.

(** Symbols.  [builderKey] is the module-private [Symbol("WALBuilder")];
    any symbol made elsewhere is a different one. *)
Inductive symbol : Type :=
| builderKey
| other_symbol (id : nat).

Definition symbol_eqb (a b : symbol) : bool :=
  match a, b with
  | builderKey, builderKey => true
  | other_symbol i, other_symbol j => Nat.eqb i j
  | _, _ => false
  end.

(** [class WAL]: one private field. *)
Record WAL : Type := mkWAL { _fileName : jsstr }.

Definition constructor (key : symbol) (fileName : jsstr) : exn + WAL :=
  if negb (symbol_eqb key builderKey) then
    inl (Error (lit "WAL cannot be constructed directly. Use WAL.builder() instead."))
  else inr {| _fileName := fileName |}.

(** [get fileName()] *)
Definition fileName (wal : WAL) : jsstr := _fileName wal.

(** [class WALBuilder]: [_fileName?: string], [undefined] until [file]. *)
Record WALBuilder : Type := mkWALBuilder { builder_fileName : option jsstr }.

(** [WAL.builder()], that is [new WALBuilder()]. *)
Definition builder : WALBuilder := {| builder_fileName := None |}.

Definition file (fileName : jsstr) (this : WALBuilder) : WALBuilder :=
  {| builder_fileName := Some fileName |}.

(** [!this._fileName] holds of [undefined] and of the empty string. *)
Definition falsy (x : option jsstr) : bool :=
  match x with
  | None => true
  | Some [] => true
  | Some (_ :: _) => false
  end.

Definition build (this : WALBuilder) : exn + WAL :=
  if falsy (builder_fileName this) then inl (Error (lit "fileName is required"))
  else constructor builderKey (default [] (builder_fileName this)).

End WAL.

(* ================================================================== *)
(** ** Asynchronous programs over the heap and the environment *)
(* ================================================================== *)

Module Async.

(** The mutable fields of the two long-lived objects: the [WALManager]
    singleton ([_logs], [_registering]) and the [DurabilityManager]
    ([isReplaying]).  Their [readonly] fields are parameters of the
    methods.  [_pendingOps] only orders the file operations of calls
    that overlap in time; here every file operation is one atomic
    request to the environment, issued where the call awaits it. *)
Record heap : Type := mkHeap {
  _logs : gmap jsstr WAL.WAL;
  _registering : gset jsstr;
  isReplaying : bool
}.

Definition set_logs (f : gmap jsstr WAL.WAL -> gmap jsstr WAL.WAL) (h : heap) : heap :=
  {| _logs := f (_logs h); _registering := _registering h;
     isReplaying := isReplaying h |}.

Definition set_registering (f : gset jsstr -> gset jsstr) (h : heap) : heap :=
  {| _logs := _logs h; _registering := f (_registering h);
     isReplaying := isReplaying h |}.

Definition set_isReplaying (b : bool) (h : heap) : heap :=
  {| _logs := _logs h; _registering := _registering h; isReplaying := b |}.

(** Requests to the environment, indexed by the type of the answer:
    [fs/promises], the timers, the clock and the random sources,
    [Math.pow] (whose result the language leaves to the implementation),
    the console, and the two callbacks the caller supplies. *)
Inductive io : Type -> Type :=
| mkdir (path : jsstr) : io (exn + unit)
| access (path : jsstr) : io (exn + unit)
| writeFile (path data : jsstr) : io (exn + unit)
| appendFile (path data : jsstr) : io (exn + unit)
| readFile (path : jsstr) : io (exn + jsstr)
| setTimeout (ms : number) : io unit
| Math_random : io number
| Math_pow (base exponent : number) : io number
| Date_now : io Z
| randomUUID : io jsstr
| console_error (attemptCount : Z) (event : jsstr) (lastError : exn) : io unit
| call_processor (payload : jsval) : io (exn + unit)
| call_onEventProcessed (event : jsstr) (success : bool) : io (exn + unit).

Inductive prog (R : Type) : Type :=
| Ret (r : R)
| Throw (e : exn)
| Load (k : heap -> prog R)
| Store (h : heap) (k : prog R)
| Ask {A : Type} (op : io A) (k : A -> prog R).

Arguments Ret {R} r.
Arguments Throw {R} e.
Arguments Load {R} k.
Arguments Store {R} h k.
Arguments Ask {R A} op k.

Fixpoint bind {A B} (p : prog A) (f : A -> prog B) : prog B :=
  match p with
  | Ret r => f r
  | Throw e => Throw e
  | Load k => Load (fun h => bind (k h) f)
  | Store h k => Store h (bind k f)
  | Ask op k => Ask op (fun a => bind (k a) f)
  end.

#[export] Instance prog_ret : MRet prog := @Ret.
#[export] Instance prog_bind : MBind prog := fun A B f p => bind p f.

(** [try { body } catch (error) { handler error }] *)
Fixpoint try_catch {R} (body : prog R) (handler : exn -> prog R) : prog R :=
  match body with
  | Ret r => Ret r
  | Throw e => handler e
  | Load k => Load (fun h => try_catch (k h) handler)
  | Store h k => Store h (try_catch k handler)
  | Ask op k => Ask op (fun a => try_catch (k a) handler)
  end.

(** [try { body } finally { cleanup }] *)
Fixpoint try_finally {R} (body : prog R) (cleanup : prog unit) : prog R :=
  match body with
  | Ret r => bind cleanup (fun _ => Ret r)
  | Throw e => bind cleanup (fun _ => Throw e)
  | Load k => Load (fun h => try_finally (k h) cleanup)
  | Store h k => Store h (try_finally k cleanup)
  | Ask op k => Ask op (fun a => try_finally (k a) cleanup)
  end.

(** [this.field = ...] *)
Definition modify (f : heap -> heap) : prog unit :=
  Load (fun h => Store (f h) (Ret tt)).

(** A request whose answer is the answer of the call. *)
Definition ask {A} (op : io A) : prog A := Ask op Ret.

(** [await op] for an operation that may reject. *)
Definition await {A} (op : io (exn + A)) : prog A :=
  Ask op (fun r => match r with inl e => Throw e | inr a => Ret a end).

(** [for (const x of xs) { acc = body acc x }] *)
Fixpoint for_of {A B} (xs : list A) (acc : B) (body : B -> A -> prog B) : prog B :=
  match xs with
  | [] => Ret acc
  | x :: rest => bind (body acc x) (fun acc' => for_of rest acc' body)
  end.

(** *** Running a program *)

(** One interaction: the heap at that moment, the request, the answer. *)
Inductive event : Type :=
| Ev {A : Type} (h : heap) (op : io A) (a : A).

Definition ev_heap (ev : event) : heap :=
  match ev with Ev h _ _ => h end.

Record outcome (R W : Type) : Type := mkOutcome {
  res : exn + R;
  heap_of : heap;
  world_of : W;
  trace : list event
}.

Arguments mkOutcome {R W}.
Arguments res {R W}.
Arguments heap_of {R W}.
Arguments world_of {R W}.
Arguments trace {R W}.

Definition after {R W} (ev : event) (o : outcome R W) : outcome R W :=
  mkOutcome (res o) (heap_of o) (world_of o) (ev :: trace o).

(** The outcome of a continuation, after the interactions [t]. *)
Definition prepend {R W} (t : list event) (o : outcome R W) : outcome R W :=
  mkOutcome (res o) (heap_of o) (world_of o) (t ++ trace o).

(** An outcome that is an exception, at another result type. *)
Definition rethrow {A B W} (e : exn) (o : outcome A W) : outcome B W :=
  mkOutcome (inl e) (heap_of o) (world_of o) (trace o).

(** An environment answers every request from its own state. *)
Definition environment (W : Type) : Type := forall A, io A -> W -> A * W.

(** The whole call, with nothing else running in between. *)
Fixpoint run {R W} (env : environment W) (p : prog R) (h : heap) (w : W)
  : outcome R W :=
  match p with
  | Ret r => mkOutcome (inr r) h w []
  | Throw e => mkOutcome (inl e) h w []
  | Load k => run env (k h) h w
  | Store h' k => run env k h' w
  | Ask op k =>
      let aw := env _ op w in
      after (Ev h op aw.1) (run env (k aw.1) h aw.2)
  end.

(** The call up to its first request: what happens before the caller
    gets control back. *)
Inductive paused (R : Type) : Type :=
| Finished (r : exn + R)
| Waiting {A : Type} (op : io A) (k : A -> prog R).

Arguments Finished {R} r.
Arguments Waiting {R A} op k.

Fixpoint start {R} (p : prog R) (h : heap) : heap * paused R :=
  match p with
  | Ret r => (h, Finished (inr r))
  | Throw e => (h, Finished (inl e))
  | Load k => start (k h) h
  | Store h' k => start k h'
  | Ask op k => (h, Waiting op k)
  end.

(** The request a paused call waits for. *)
Definition waits_for {R} (p : paused R) : option {A : Type & io A} :=
  match p with
  | Finished _ => None
  | Waiting op _ => Some (existT _ op)
  end.

(** Programs that never assign a field. *)
Inductive readonly {R} : prog R -> Prop :=
| ro_ret r : readonly (Ret r)
| ro_throw e : readonly (Throw e)
| ro_load k : (forall h, readonly (k h)) -> readonly (Load k)
| ro_ask A (op : io A) k : (forall a, readonly (k a)) -> readonly (Ask op k).

End Async.
Export Async.

(* ================================================================== *)
(** ** [packages/lib/src/walmanager/WalManager.ts] *)
(* ================================================================== *)

Module Path.

(** [path.join] and [path.normalize] of Node's [path] module, as on
    POSIX systems: the separator is the slash, empty segments and [.]
    are dropped, [..] takes back the segment before it. *)

Definition slash : N := 47%N.
Definition dot : N := 46%N.

(** The segments between slashes. *)
Fixpoint segments (s : jsstr) : list jsstr :=
  match s with
  | [] => [[]]
  | c :: r =>
      if (c =? slash)%N then [] :: segments r
      else match segments r with
           | piece :: pieces => (c :: piece) :: pieces
           | [] => [[c]]
           end
  end.

(** One segment of [normalizeString]; [kept] holds the segments kept so
    far, the last one first. *)
Definition step (allowAboveRoot : bool) (kept : list jsstr) (segment : jsstr)
  : list jsstr :=
  if bool_decide (segment = []) || bool_decide (segment = [dot]) then kept
  else if bool_decide (segment = [dot; dot]) then
    match kept with
    | top :: below =>
        if bool_decide (top = [dot; dot])
        then if allowAboveRoot then segment :: kept else kept
        else below
    | [] => if allowAboveRoot then [segment] else []
    end
  else segment :: kept.

Definition unsegments (l : list jsstr) : jsstr :=
  match l with
  | [] => []
  | first :: rest => first ++ concat (map (fun segment => slash :: segment) rest)
  end.

Definition normalizeString (path : jsstr) (allowAboveRoot : bool) : jsstr :=
  unsegments (rev (fold_left (step allowAboveRoot) (segments path) [])).

Definition normalize (path : jsstr) : jsstr :=
  match path with
  | [] => lit "."
  | first :: _ =>
      let isAbsolute := (first =? slash)%N in
      let trailingSeparator := bool_decide (last path = Some slash) in
      match normalizeString path (negb isAbsolute) with
      | [] => if isAbsolute then lit "/"
              else if trailingSeparator then lit "./" else lit "."
      | normalized =>
          let normalized :=
            if trailingSeparator then normalized ++ [slash] else normalized in
          if isAbsolute then slash :: normalized else normalized
      end
  end.

(** [path.join(a, b)] *)
Definition join (a b : jsstr) : jsstr :=
  let joined :=
    match a, b with
    | [], _ => b
    | _, [] => a
    | _, _ => a ++ [slash] ++ b
    end in
  match joined with
  | [] => lit "."
  | _ => normalize joined
  end.

End Path.

Module WALManager.

(** [path.join(dir, name)] *)
Definition path_join (dir name : jsstr) : jsstr := Path.join dir name.

Definition AlreadyRegistering (fileName : jsstr) : exn :=
  Error (lit "WAL " ++ fileName ++ lit " is already being registered").

Definition NotRegistered (fileName : jsstr) : exn :=
  Error (lit "WAL " ++ fileName ++ lit " is not registered").

Section Instance.

(** [private readonly _baseDir] *)
Variable _baseDir : jsstr.

Definition ensureBaseDir : prog unit := await (mkdir _baseDir).

Definition register (wal : WAL.WAL) : prog unit :=
  Load (fun this =>
    if bool_decide (WAL.fileName wal ∈ _registering this) then
      Throw (AlreadyRegistering (WAL.fileName wal))
    else if bool_decide (is_Some (_logs this !! WAL.fileName wal)) then
      Ret tt
    else
      modify (set_registering (fun s => {[WAL.fileName wal]} ∪ s)) ;;
      try_finally
        (ensureBaseDir ;;
         let filePath := path_join _baseDir (WAL.fileName wal) in
         modify (set_logs <[WAL.fileName wal := wal]>) ;;
         try_catch (await (access filePath))
                   (fun _ => await (writeFile filePath [])))
        (modify (set_registering (fun s => s ∖ {[WAL.fileName wal]})))).

Definition append (fileName data : jsstr) : prog unit :=
  Load (fun this =>
    match _logs this !! fileName with
    | None => Throw (NotRegistered fileName)
    | Some wal =>
        let filePath := path_join _baseDir (WAL.fileName wal) in
        await (appendFile filePath (data ++ [LF]))
    end).

Definition read (fileName : jsstr) : prog jsstr :=
  Load (fun this =>
    match _logs this !! fileName with
    | None => Throw (NotRegistered fileName)
    | Some wal =>
        let filePath := path_join _baseDir (WAL.fileName wal) in
        await (readFile filePath)
    end).

Definition truncate (fileName : jsstr) : prog unit :=
  Load (fun this =>
    match _logs this !! fileName with
    | None => Throw (NotRegistered fileName)
    | Some wal =>
        let filePath := path_join _baseDir (WAL.fileName wal) in
        await (writeFile filePath [])
    end).

End Instance.

End WALManager.

(* ================================================================== *)
(** ** [durablity/DurabilityManager.ts] *)
(* ================================================================== *)

Module DurabilityManager.

Record ReplayResult : Type := mkReplayResult {
  success : bool;
  processedCount : Z;
  failedCount : Z;
  errors : list (jsstr * exn * Z)
}.

(** [maxRetries] bounds the loop counter [attempt], which counts up from
    zero by one: it is taken to be an integer.  The three others enter
    the arithmetic of the delay as the numbers they are. *)
Record RetryConfig : Type := mkRetryConfig {
  maxRetries : Z;
  initialDelayMs : number;
  maxDelayMs : number;
  backoffMultiplier : number
}.

(** [onEventProcessed] is a callback of the caller: the configuration
    records whether there is one, the environment answers its calls. *)
Record DurabilityConfig : Type := mkDurabilityConfig {
  config_walFileName : jsstr;
  config_retryConfig : option RetryConfig;
  config_onEventProcessed : bool
}.

Definition DEFAULT_RETRY_CONFIG : RetryConfig :=
  {| maxRetries := 3; initialDelayMs := 100%float;
     maxDelayMs := 5000%float; backoffMultiplier := 2%float |}.

(** The [readonly] fields of an instance; [walManager] is the base
    directory of the singleton it obtained. *)
Record DurabilityManager : Type := mkDurabilityManager {
  walManager : jsstr;
  walFileName : jsstr;
  retryConfig : RetryConfig;
  has_onEventProcessed : bool
}.

Definition constructor (getInstance : jsstr) (config : DurabilityConfig)
  : DurabilityManager :=
  {| walManager := getInstance;
     walFileName := config_walFileName config;
     retryConfig := default DEFAULT_RETRY_CONFIG (config_retryConfig config);
     has_onEventProcessed := config_onEventProcessed config |}.

Definition ReplayInProgress : exn := Error (lit "Replay already in progress").

(** [line.trim().length > 0] *)
Definition nonblank (line : jsstr) : bool := (0 <? length (trim line))%nat.

(** [content.split("\n").filter((line) => line.trim().length > 0)] *)
Definition lines_of (content : jsstr) : list jsstr :=
  List.filter nonblank (split_LF content).

Section Instance.

Variable this : DurabilityManager.

Definition append (content : jsstr) : prog unit :=
  WALManager.append (walManager this) (walFileName this) content.

Definition read : prog jsstr :=
  WALManager.read (walManager this) (walFileName this).

(** The arithmetic of [calculateBackoffDelay], on the numbers that
    [Math.pow] and [Math.random()] returned. *)
Definition backoff_delay (power random : number) : number :=
  let exponentialDelay := (initialDelayMs (retryConfig this) * power)%float in
  let cappedDelay := Math_min exponentialDelay (maxDelayMs (retryConfig this)) in
  let jitter := (cappedDelay * 0.25 * (random * 2 - 1))%float in
  Math_floor (cappedDelay + jitter)%float.

Definition calculateBackoffDelay (attempt : Z) : prog number :=
  power ← ask (Math_pow (backoffMultiplier (retryConfig this)) (of_Z attempt));
  random ← ask Math_random;
  mret (backoff_delay power random).

Definition sleep (ms : number) : prog unit := ask (setTimeout ms).

(** The body of [for (let attempt = 0; attempt <= maxRetries; attempt++)]
    over the values [attempt] takes, and what follows the loop. *)
Fixpoint retry_loop (event : jsstr) (processor : jsstr -> prog unit)
    (attempts : list Z) (lastError : option exn) (attemptCount : Z)
  : prog bool :=
  match attempts with
  | attempt :: rest =>
      let attemptCount := attemptCount + 1 in
      caught ← try_catch
        (processor event ;; mret None)
        (fun error =>
           (if attempt <? maxRetries (retryConfig this) then
              delay ← calculateBackoffDelay attempt;
              sleep delay
            else mret tt) ;;
           mret (Some error));
      match caught with
      | None => mret true
      | Some error => retry_loop event processor rest (Some error) attemptCount
      end
  | [] =>
      match lastError with
      | Some error =>
          if truthy error then ask (console_error attemptCount event error)
          else mret tt
      | None => mret tt
      end ;;
      mret false
  end.

Definition processEventWithRetry (event : jsstr)
    (processor : jsstr -> prog unit) : prog bool :=
  retry_loop event processor
    (seqZ 0 (maxRetries (retryConfig this) + 1)) None 0.

(** [this.onEventProcessed?.(event, success)] *)
Definition notify (event : jsstr) (ok : bool) : prog unit :=
  if has_onEventProcessed this then await (call_onEventProcessed event ok)
  else mret tt.

(** [count <= 0 ? [] : events.slice(-count)] *)
Definition eventsToReplay (count : Z) (events : list jsstr) : list jsstr :=
  if count <=? 0 then [] else slice (- count) events.

(** [result.processedCount++] *)
Definition count_processed (result : ReplayResult) : ReplayResult :=
  {| success := success result;
     processedCount := processedCount result + 1;
     failedCount := failedCount result;
     errors := errors result |}.

(** [result.failedCount++; result.success = false] *)
Definition count_failed (result : ReplayResult) : ReplayResult :=
  {| success := false;
     processedCount := processedCount result;
     failedCount := failedCount result + 1;
     errors := errors result |}.

(** The body of the [for (const event of eventsToReplay)] loop. *)
Definition replay_step (processor : jsstr -> prog unit)
    (result : ReplayResult) (event : jsstr) : prog ReplayResult :=
  ok ← processEventWithRetry event processor;
  if ok : bool then
    let result := count_processed result in
    notify event true ;; mret result
  else
    let result := count_failed result in
    notify event false ;; mret result.

(** The loop, from the freshly made [result]. *)
Definition process_events (events : list jsstr)
    (processor : jsstr -> prog unit) : prog ReplayResult :=
  for_of events
    {| success := true; processedCount := 0; failedCount := 0; errors := [] |}
    (replay_step processor).

Definition replay (count : Z) (processor : jsstr -> prog unit)
  : prog ReplayResult :=
  Load (fun h =>
    if isReplaying h then Throw ReplayInProgress
    else
      modify (set_isReplaying true) ;;
      try_finally
        (content ← WALManager.read (walManager this) (walFileName this);
         let events := lines_of content in
         process_events (eventsToReplay count events) processor)
        (modify (set_isReplaying false))).

Definition getEventCount : prog Z :=
  content ← WALManager.read (walManager this) (walFileName this);
  mret (Z.of_nat (length (lines_of content))).

(** [get isReplayInProgress()] *)
Definition isReplayInProgress : prog bool :=
  Load (fun h => Ret (isReplaying h)).

End Instance.

End DurabilityManager.

(* ================================================================== *)
(** ** [client/DurableWal.ts] and [client/interfaces.ts] *)
(* ================================================================== *)

Module DurableWal.

Import DurabilityManager.

Record WalEntry : Type := mkWalEntry {
  id : jsstr;
  timestamp : Z;
  data : jsstr
}.

(** [JSON.stringify(entry)]: the three own properties in the order they
    were written, without spaces. *)
Definition JSON_stringify (entry : WalEntry) : jsstr :=
  lit "{" ++ QuoteJSONString (lit "id") ++ lit ":" ++ QuoteJSONString (id entry) ++
  lit "," ++ QuoteJSONString (lit "timestamp") ++ lit ":" ++
    Number_toString (timestamp entry) ++
  lit "," ++ QuoteJSONString (lit "data") ++ lit ":" ++
    QuoteJSONString (data entry) ++
  lit "}".

(** [JSON.parse(text)] as a step of a program. *)
Definition JSON_parse (text : jsstr) : prog jsval :=
  match JSON.parse text with
  | Some v => Ret v
  | None => Throw (SyntaxError (lit "Unexpected token"))
  end.

(** [entry.data] as a step of a program. *)
Definition dot_data (entry : jsval) : prog jsval :=
  match get_data entry with
  | inr v => Ret v
  | inl e => Throw e
  end.

Section Instance.

(** [private durableManager] *)
Variable durableManager : DurabilityManager.

Definition append (content : jsstr) : prog jsstr :=
  if (length content =? 0)%nat || (length (trim content) =? 0)%nat then
    Throw (Error (lit "Cannot append empty content"))
  else
    uuid ← ask randomUUID;
    now ← ask Date_now;
    let entry := {| id := uuid; timestamp := now; data := content |} in
    let serialized := JSON_stringify entry in
    DurabilityManager.append durableManager serialized ;;
    mret (id entry).

(** The closure [wrappedProcessor] of [replay]. *)
Definition wrappedProcessor (processor : jsval -> prog unit)
    (serialized : jsstr) : prog unit :=
  try_catch
    (entry ← JSON_parse serialized;
     payload ← dot_data entry;
     processor payload)
    (fun error => processor (JStr serialized)).

Definition ReplayFailed (result : ReplayResult) : exn :=
  Error (lit "Replay failed: " ++ Number_toString (failedCount result) ++
         lit " events failed out of " ++
         Number_toString (processedCount result + failedCount result)).

(** A missing [processor] ([null], [undefined]) is [None]. *)
Definition replay (eventNum : Z) (processor : option (jsval -> prog unit))
  : prog unit :=
  if eventNum <? 0 then Throw (Error (lit "Event number must be non-negative"))
  else
    match processor with
    | None => Throw (Error (lit "Processor function is required"))
    | Some processor =>
        result ← DurabilityManager.replay durableManager eventNum
                   (wrappedProcessor processor);
        if negb (success result) then Throw (ReplayFailed result)
        else mret tt
    end.

(** The arrow function [inspect] maps over the lines. *)
Definition decode_line (line : jsstr) : prog jsval :=
  try_catch
    (entry ← JSON_parse line;
     dot_data entry)
    (fun error => mret (JStr line)).

(** [arr.map(f)] for an [f] that is itself a program. *)
Fixpoint map_prog {A B} (f : A -> prog B) (xs : list A) : prog (list B) :=
  match xs with
  | [] => mret []
  | x :: rest => y ← f x; ys ← map_prog f rest; mret (y :: ys)
  end.

Definition inspect (numberOfEvents : Z) : prog (list jsval) :=
  if numberOfEvents <? 0 then
    Throw (Error (lit "Number of events must be non-negative"))
  else
    content ← DurabilityManager.read durableManager;
    let lines := List.filter (fun line => (0 <? length (trim line))%nat)
                             (split_LF content) in
    let lastN := if numberOfEvents <=? 0 then [] else slice (- numberOfEvents) lines in
    map_prog decode_line lastN.

Definition getEntryCount : prog Z :=
  DurabilityManager.getEventCount durableManager.

End Instance.

End DurableWal.

(* ================================================================== *)
(** ** A simulated platform, to run the programs on concrete inputs *)
(* ================================================================== *)

Module Sim.

(** An in-memory file system, a clock, counters for the random sources,
    and scripts for what the caller's callbacks and a faulty disk do.
    A file is the text that reading it with the [utf-8] encoding
    gives. *)
Record world : Type := mkWorld {
  files : gmap jsstr jsstr;
  dirs : gset jsstr;
  clock : Z;
  uuids : nat;
  randoms : list number;
  calls : nat;
  processor_rejects : jsval -> nat -> bool;
  observer_throws : bool;
  disk_full : bool
}.

Definition ENOENT : exn := SystemError (lit "ENOENT").
Definition ENOSPC : exn := SystemError (lit "ENOSPC").

Definition with_files (f : gmap jsstr jsstr) (w : world) : world :=
  mkWorld f (dirs w) (clock w) (uuids w) (randoms w) (calls w)
          (processor_rejects w) (observer_throws w) (disk_full w).

Definition with_dirs (d : gset jsstr) (w : world) : world :=
  mkWorld (files w) d (clock w) (uuids w) (randoms w) (calls w)
          (processor_rejects w) (observer_throws w) (disk_full w).

Definition tick (w : world) : world :=
  mkWorld (files w) (dirs w) (clock w + 1) (uuids w) (randoms w) (calls w)
          (processor_rejects w) (observer_throws w) (disk_full w).

Definition next_uuid (w : world) : world :=
  mkWorld (files w) (dirs w) (clock w) (S (uuids w)) (randoms w) (calls w)
          (processor_rejects w) (observer_throws w) (disk_full w).

Definition next_random (w : world) : world :=
  mkWorld (files w) (dirs w) (clock w) (uuids w) (tail (randoms w)) (calls w)
          (processor_rejects w) (observer_throws w) (disk_full w).

Definition next_call (w : world) : world :=
  mkWorld (files w) (dirs w) (clock w) (uuids w) (randoms w) (S (calls w))
          (processor_rejects w) (observer_throws w) (disk_full w).

(** What a string is once written with the [utf-8] encoding and read
    back with it: a surrogate that is not half of a pair has no
    encoding and comes back as U+FFFD; everything else is kept. *)
Fixpoint utf8 (s : jsstr) : jsstr :=
  match s with
  | [] => []
  | c :: r =>
      if is_lead_surrogate c then
        match r with
        | d :: r1 =>
            if is_trail_surrogate d then c :: d :: utf8 r1
            else 65533%N :: utf8 r
        | [] => [65533%N]
        end
      else if is_trail_surrogate c then 65533%N :: utf8 r
      else c :: utf8 r
  end.

(** [Math.pow] of this platform, for an exponent that is a whole
    number: that many multiplications. *)
Definition power (base exponent : number) : number :=
  match to_Z exponent with
  | Some n => if 0 <=? n then Nat.iter (Z.to_nat n) (PrimFloat.mul base) 1%float else nan
  | None => nan
  end.

Definition platform : environment world :=
  fun A op =>
    match op in io A return world -> A * world with
    | mkdir path => fun w => (inr tt, with_dirs ({[path]} ∪ dirs w) w)
    | access path => fun w =>
        (match files w !! path with Some _ => inr tt | None => inl ENOENT end, w)
    | writeFile path data => fun w =>
        if disk_full w then (inl ENOSPC, w)
        else (inr tt, with_files (<[path := utf8 data]> (files w)) w)
    | appendFile path data => fun w =>
        if disk_full w then (inl ENOSPC, w)
        else (inr tt,
              with_files (<[path := default [] (files w !! path) ++ utf8 data]>
                            (files w)) w)
    | readFile path => fun w =>
        (match files w !! path with Some c => inr c | None => inl ENOENT end, w)
    | setTimeout ms => fun w => (tt, w)
    | Math_random => fun w => (hd 0.5%float (randoms w), next_random w)
    | Math_pow base exponent => fun w => (power base exponent, w)
    | Date_now => fun w => (clock w, tick w)
    | randomUUID => fun w =>
        (lit "uuid-" ++ Number_toString (Z.of_nat (uuids w)), next_uuid w)
    | console_error _ _ _ => fun w => (tt, w)
    | call_processor payload => fun w =>
        (if processor_rejects w payload (calls w)
         then inl (Error (lit "Simulated failure")) else inr tt,
         next_call w)
    | call_onEventProcessed _ _ => fun w =>
        (if observer_throws w then inl (Error (lit "observer")) else inr tt, w)
    end.

(** A fresh process: nothing registered, nothing on disk, callbacks that
    never fail. *)
Definition boot : world :=
  mkWorld ∅ ∅ 1700000000000 0 [] 0 (fun _ _ => false) false false.

Definition fresh : heap :=
  {| _logs := ∅; _registering := ∅; isReplaying := false |}.

(** The payloads the caller's processor was invoked with, in order. *)
Definition payloads (t : list event) : list jsval :=
  omap (fun ev =>
          match ev with
          | Ev _ (call_processor payload) _ => Some payload
          | Ev _ _ _ => None
          end) t.

(** The durations slept, in order. *)
Definition sleeps (t : list event) : list number :=
  omap (fun ev =>
          match ev with
          | Ev _ (setTimeout ms) _ => Some ms
          | Ev _ _ _ => None
          end) t.

(** The numbers [Math.random()] returned, in order. *)
Definition draws (t : list event) : list number :=
  omap (fun ev =>
          match ev with
          | @Ev A _ op a =>
              match op in io A return A -> option number with
              | Math_random => fun r => Some r
              | _ => fun _ => None
              end a
          end) t.

(** The calls of [Math.pow]: base, exponent and what it returned. *)
Definition powers (t : list event) : list (number * number * number) :=
  omap (fun ev =>
          match ev with
          | @Ev A _ op a =>
              match op in io A return A -> option (number * number * number) with
              | Math_pow base exponent => fun p => Some (base, exponent, p)
              | _ => fun _ => None
              end a
          end) t.

(** The invocations of the caller's processor, with whether each
    resolved, and the sleeps, in the order they happened. *)
Inductive mark : Type :=
| Invoked (resolved : bool)
| Slept (ms : number).

Definition timeline (t : list event) : list mark :=
  omap (fun ev =>
          match ev with
          | @Ev A _ op a =>
              match op in io A return A -> option mark with
              | call_processor _ =>
                  fun r => Some (Invoked (match r with inr _ => true | inl _ => false end))
              | setTimeout ms => fun _ => Some (Slept ms)
              | _ => fun _ => None
              end a
          end) t.

(** What the caller's processor rejected with, in order. *)
Definition rejections (t : list event) : list exn :=
  omap (fun ev =>
          match ev with
          | @Ev A _ op a =>
              match op in io A return A -> option exn with
              | call_processor _ =>
                  fun r => match r with inl e => Some e | inr _ => None end
              | _ => fun _ => None
              end a
          end) t.

(** The requests, without the answers. *)
Definition requests (t : list event) : list {A : Type & io A} :=
  map (fun ev => match ev with Ev _ op _ => existT _ op end) t.

(** The caller's processor, as the engine sees it. *)
Definition extern (event : jsstr) : prog unit :=
  await (call_processor (JStr event)).

(** The caller's processor, as the client sees it. *)
Definition caller (payload : jsval) : prog unit :=
  await (call_processor payload).

(** The objects of the test suites: a log [test.wal] under [wal_logs],
    an engine with the default retry configuration and no observer. *)
Definition test_dir : jsstr := lit "wal_logs".
Definition test_name : jsstr := lit "test.wal".
Definition test_path : jsstr := WALManager.path_join test_dir test_name.
Definition test_wal : WAL.WAL := WAL.mkWAL test_name.

Definition test_manager : DurabilityManager.DurabilityManager :=
  DurabilityManager.constructor test_dir
    (DurabilityManager.mkDurabilityConfig test_name None false).

(** After [register(test_wal)]. *)
Definition registered : heap := set_logs <[test_name := test_wal]> fresh.

(** A disk that holds [content] in the file of the log. *)
Definition disk (content : jsstr) : world :=
  with_files {[test_path := content]} boot.

(** Lines joined as the registry writes them, each with its line feed. *)
Definition unlines (ls : list jsstr) : jsstr :=
  concat (map (fun l => l ++ [LF]) ls).

(** A process whose disk rejects every write. *)
Definition full_disk : world :=
  mkWorld ∅ ∅ 1700000000000 0 [] 0 (fun _ _ => false) false true.

(** One envelope, as [append] serializes it. *)
Definition envelope_x : jsstr :=
  DurableWal.JSON_stringify
    {| DurableWal.id := lit "1"; DurableWal.timestamp := 0;
       DurableWal.data := lit "x" |}.

(** A process whose log holds that envelope and whose processor rejects
    the payload [x] and accepts everything else. *)
Definition fussy : world :=
  mkWorld {[test_path := unlines [envelope_x]]} ∅ 1700000000000 0 [] 0
          (fun payload _ =>
             match payload with
             | JStr s => bool_decide (s = lit "x")
             | _ => false
             end)
          false false.

(** The log of the engine's tests. *)
Definition three_events : jsstr :=
  unlines [lit "event1"; lit "event2"; lit "event3"].

(** The same platform with a processor that rejects every call. *)
Definition hostile : environment world :=
  fun A op =>
    match op in io A return world -> A * world with
    | call_processor _ => fun w => (inl (Error (lit "Always fails")), next_call w)
    | op' => platform _ op'
    end.

End Sim.
Export Sim.

(* ================================================================== *)
(** ** The vocabulary of the specification *)
(* ================================================================== *)

Module Spec.

Import DurabilityManager.

(** Section 4.3, step 3, in its own words: [count <= 0] gives the empty
    window, otherwise the last [min(count, available)] lines, oldest
    first. *)
Definition window (count : Z) (lines : list jsstr) : list jsstr :=
  if count <=? 0 then []
  else
    let available := length lines in
    let n := Nat.min (Z.to_nat count) available in
    drop (available - n) lines.


(** The payload of a stored line under the envelope-or-legacy rule: the
    [data] of what the line parses to, the line itself when parsing or
    reading [data] throws. *)
Definition payload_of (line : jsstr) : jsval :=
  match JSON.parse line with
  | None => JStr line
  | Some entry =>
      match get_data entry with
      | inl _ => JStr line
      | inr payload => payload
      end
  end.

(** What the registry itself leaves in a file: nothing (created or
    truncated), then any number of appended lines, each with its line
    feed. *)
Inductive registry_content : jsstr -> Prop :=
| content_empty : registry_content []
| content_append old data :
    registry_content old -> registry_content (old ++ data ++ [LF]).

(** The caller's processor rejects whatever it is given, whenever. *)
Definition always_rejects {W} (env : environment W) : Prop :=
  forall payload w, exists e, (env _ (call_processor payload) w).1 = inl e.

(** There is no [onEventProcessed], or it never throws. *)
Definition observer_quiet {W} (this : DurabilityManager) (env : environment W)
  : Prop :=
  has_onEventProcessed this = false \/
  forall event ok w, (env _ (call_onEventProcessed event ok) w).1 = inr tt.

(** The [writeFile] requests that were rejected, with their errors. *)
Definition rejected_writes (t : list event) : list (jsstr * exn) :=
  omap (fun ev =>
          match ev with
          | @Ev A _ op a =>
              match op in io A return A -> option (jsstr * exn) with
              | writeFile path _ =>
                  fun r => match r with
                           | inl e => Some (path, e)
                           | inr _ => None
                           end
              | _ => fun _ => None
              end a
          end) t.


(** The invariant of a [ReplayResult] over [n] records. *)
Definition counts_ok (n : Z) (result : ReplayResult) : Prop :=
  processedCount result + failedCount result = n /\
  0 <= failedCount result /\
  (success result = true <-> failedCount result = 0).

(** What the environment does while the engine backs off after a failed
    [attempt]: one power, one draw and one timer, or nothing after the
    last one. *)
Definition pause_outcome {W} (env : environment W) (this : DurabilityManager)
    (attempt : Z) (h : heap) (w : W) : outcome unit W :=
  if attempt <? maxRetries (retryConfig this) then
    let p := env _ (Math_pow (backoffMultiplier (retryConfig this)) (of_Z attempt)) w in
    let r := env _ Math_random p.2 in
    let d := backoff_delay this p.1 r.1 in
    let s := env _ (setTimeout d) r.2 in
    mkOutcome (inr s.1) h s.2
      [Ev h (Math_pow (backoffMultiplier (retryConfig this)) (of_Z attempt)) p.1;
       Ev h Math_random r.1; Ev h (setTimeout d) s.1]
  else mkOutcome (inr tt) h w [].

(** The [try] block of [DurabilityManager.replay]. *)
Definition replay_body (this : DurabilityManager) (count : Z)
    (processor : jsstr -> prog unit) : prog ReplayResult :=
  content ← WALManager.read (walManager this) (walFileName this);
  process_events this (eventsToReplay count (lines_of content)) processor.

(** A string without a line feed: what fits on one physical line. *)
Definition no_LF (s : jsstr) : Prop := Forall (fun c => c <> LF) s.

(** The heap while a registration of [wal] waits for [mkdir]. *)
Definition registering_heap (wal : WAL.WAL) (h : heap) : heap :=
  set_registering (fun s => {[WAL.fileName wal]} ∪ s) h.

(** The heap while it waits for [access] and [writeFile]. *)
Definition recorded_heap (wal : WAL.WAL) (h : heap) : heap :=
  set_logs <[WAL.fileName wal := wal]> (registering_heap wal h).

(** The heap after its [finally]. *)
Definition released (wal : WAL.WAL) (h : heap) : heap :=
  set_registering (fun s => s ∖ {[WAL.fileName wal]}) h.

End Spec.
Export Spec.

(* ================================================================== *)
(** ** Further vocabulary: the registry, the observer, the disk *)
(* ================================================================== *)

Module More.

Import DurabilityManager.

(** Every handle in [_logs] sits under its own name, as [register]
    stores it. *)
Definition keyed (h : heap) : Prop :=
  forall name wal, _logs h !! name = Some wal -> WAL.fileName wal = name.

(** Content that [DurableWal.append] accepts. *)
Definition accepted (content : jsstr) : Prop :=
  content <> [] /\ trim content <> [].

(** The calls of [onEventProcessed], in order. *)
Definition notifications (t : list event) : list (jsstr * bool) :=
  omap (fun ev =>
          match ev with
          | Ev _ (call_onEventProcessed event ok) _ => Some (event, ok)
          | Ev _ _ _ => None
          end) t.

(** The diagnostics written with [console.error]: the attempt count and
    the event. *)
Definition diagnostics (t : list event) : list (Z * jsstr) :=
  omap (fun ev =>
          match ev with
          | Ev _ (console_error attemptCount event _) _ => Some (attemptCount, event)
          | Ev _ _ _ => None
          end) t.

(** The diagnostic after the last attempt: written once, with the number
    of attempts made, unless the last rejection carried a falsy
    value. *)
Definition last_words (attemptCount : Z) (event : jsstr) (reasons : list exn)
  : list (Z * jsstr) :=
  match last reasons with
  | Some e => if truthy e then [(attemptCount, event)] else []
  | None => []
  end.

(** Requests that change the file system. *)
Definition writes {A} (op : io A) : bool :=
  match op with
  | mkdir _ | writeFile _ _ | appendFile _ _ => true
  | _ => false
  end.

Definition is_write (ev : event) : bool :=
  match ev with Ev _ op _ => writes op end.

(** Programs none of whose requests changes the file system. *)
Inductive no_writes {R} : prog R -> Prop :=
| nw_ret r : no_writes (Ret r)
| nw_throw e : no_writes (Throw e)
| nw_load k : (forall h, no_writes (k h)) -> no_writes (Load k)
| nw_store h k : no_writes k -> no_writes (Store h k)
| nw_ask A (op : io A) k :
    writes op = false -> (forall a, no_writes (k a)) -> no_writes (Ask op k).

(** The observer throws whenever it is called. *)
Definition observer_always_throws {W} (env : environment W) : Prop :=
  forall event ok w, exists e, (env _ (call_onEventProcessed event ok) w).1 = inl e.

(** The same platform with an observer that throws at every call. *)
Definition screaming : environment world :=
  fun A op =>
    match op in io A return world -> A * world with
    | call_onEventProcessed _ _ => fun w => (inl (Error (lit "observer")), w)
    | op' => platform _ op'
    end.


(** The same platform with a processor that rejects every call with
    [undefined]. *)
Definition silent : environment world :=
  fun A op =>
    match op in io A return world -> A * world with
    | call_processor _ => fun w => (inl (NonError false), next_call w)
    | op' => platform _ op'
    end.


(** The caller's processor resolves whatever it is given, whenever. *)
Definition always_resolves {W} (env : environment W) : Prop :=
  forall payload w, (env _ (call_processor payload) w).1 = inr tt.

(** The same platform with a processor that resolves every call. *)
Definition obliging : environment world :=
  fun A op =>
    match op in io A return world -> A * world with
    | call_processor _ => fun w => (inr tt, next_call w)
    | op' => platform _ op'
    end.

(** A platform on which the base directory cannot be created. *)
Definition EACCES : exn := SystemError (lit "EACCES").

Definition no_dir : environment world :=
  fun A op =>
    match op in io A return world -> A * world with
    | mkdir _ => fun w => (inl EACCES, w)
    | op' => platform _ op'
    end.

(** A process whose processor rejects its first [k] calls and resolves
    from then on. *)
Definition flaky (k : nat) (content : jsstr) : world :=
  mkWorld {[test_path := content]} ∅ 1700000000000 0 [] 0
          (fun _ n => (n <? k)%nat) false false.

(** An engine like [test_manager], with an observer. *)
Definition observed_manager : DurabilityManager :=
  constructor test_dir (mkDurabilityConfig test_name None true).




(** An engine that never attempts anything. *)
Definition idle_manager : DurabilityManager :=
  constructor test_dir
    (mkDurabilityConfig test_name
       (Some {| maxRetries := -1; initialDelayMs := 100%float;
                maxDelayMs := 5000%float; backoffMultiplier := 2%float |})
       false).

(** [arr.map(op)] over the contents, one [DurableWal.append] after the
    other. *)
Definition append_all (this : DurabilityManager) (contents : list jsstr)
  : prog (list jsstr) :=
  DurableWal.map_prog (DurableWal.append this) contents.

(** One [WALManager.append] after the other. *)
Definition write_all (baseDir name : jsstr) (datas : list jsstr) : prog unit :=
  for_of datas tt (fun _ data => WALManager.append baseDir name data).

End More.
Export More.

(* ================================================================== *)
(** ** How [run] and [start] go through the program constructors *)
(* ================================================================== *)

Section RunLaws.

Context {W : Type} (env : environment W).

Lemma run_bind {A B} (p : prog A) (f : A -> prog B) h w :
  run env (bind p f) h w =
  match res (run env p h w) with
  | inl e => rethrow e (run env p h w)
  | inr a =>
      prepend (trace (run env p h w))
              (run env (f a) (heap_of (run env p h w)) (world_of (run env p h w)))
  end.
Proof.
  revert h w.
  induction p as [r|e|k IH|h' k IH|X op k IH]; intros h w; simpl.
  - destruct (run env (f r) h w); reflexivity.
  - reflexivity.
  - apply IH.
  - apply IH.
  - rewrite IH.
    destruct (res (run env (k (env X op w).1) h (env X op w).2)); reflexivity.
Qed.

Lemma run_mbind {A B} (p : prog A) (f : A -> prog B) h w :
  run env (p ≫= f) h w =
  match res (run env p h w) with
  | inl e => rethrow e (run env p h w)
  | inr a =>
      prepend (trace (run env p h w))
              (run env (f a) (heap_of (run env p h w)) (world_of (run env p h w)))
  end.
Proof. apply run_bind. Qed.

Lemma run_try_catch {R} (p : prog R) (handler : exn -> prog R) h w :
  run env (try_catch p handler) h w =
  match res (run env p h w) with
  | inl e =>
      prepend (trace (run env p h w))
              (run env (handler e) (heap_of (run env p h w)) (world_of (run env p h w)))
  | inr a =>
      mkOutcome (inr a) (heap_of (run env p h w)) (world_of (run env p h w))
                (trace (run env p h w))
  end.
Proof.
  revert h w.
  induction p as [r|e|k IH|h' k IH|X op k IH]; intros h w; simpl.
  - reflexivity.
  - destruct (run env (handler e) h w); reflexivity.
  - apply IH.
  - apply IH.
  - rewrite IH.
    destruct (res (run env (k (env X op w).1) h (env X op w).2)); reflexivity.
Qed.

(** [finally]: the cleanup runs on every exit of the body; the outcome
    is the body's unless the cleanup itself throws. *)
Lemma run_try_finally {R} (p : prog R) (cleanup : prog unit) h w :
  run env (try_finally p cleanup) h w =
  let body := run env p h w in
  let fin := run env cleanup (heap_of body) (world_of body) in
  mkOutcome (match res fin with inl e => inl e | inr _ => res body end)
            (heap_of fin) (world_of fin) (trace body ++ trace fin).
Proof.
  revert h w.
  induction p as [r|e|k IH|h' k IH|X op k IH]; intros h w; simpl.
  - rewrite run_bind. destruct (res (run env cleanup h w));
      unfold prepend, rethrow; simpl; rewrite ?app_nil_r; reflexivity.
  - rewrite run_bind. destruct (res (run env cleanup h w));
      unfold prepend, rethrow; simpl; rewrite ?app_nil_r; reflexivity.
  - apply IH.
  - apply IH.
  - rewrite IH. reflexivity.
Qed.

Lemma run_modify (f : heap -> heap) h w :
  run env (modify f) h w = mkOutcome (inr tt) (f h) w [].
Proof. reflexivity. Qed.

Lemma run_ask {A} (op : io A) h w :
  run env (ask op) h w =
  mkOutcome (inr (env A op w).1) h (env A op w).2 [Ev h op (env A op w).1].
Proof. reflexivity. Qed.

Lemma run_await {A} (op : io (exn + A)) h w :
  run env (await op) h w =
  mkOutcome ((env _ op w).1) h (env _ op w).2 [Ev h op (env _ op w).1].
Proof.
  unfold await; simpl. destruct ((env _ op w).1); reflexivity.
Qed.

(** A program that assigns no field leaves the heap as it found it, and
    every one of its interactions happens on that heap. *)
Lemma readonly_run {R} (p : prog R) h w :
  readonly p ->
  heap_of (run env p h w) = h /\
  Forall (fun ev => ev_heap ev = h) (trace (run env p h w)).
Proof.
  intros Hro. revert w.
  induction Hro as [r|e|k Hk IH|X op k Hk IH]; intros w; simpl.
  - split; [reflexivity | constructor].
  - split; [reflexivity | constructor].
  - apply IH.
  - destruct (IH (env X op w).1 (env X op w).2) as [Hh Ht].
    split; [exact Hh | constructor; [reflexivity | exact Ht]].
Qed.

End RunLaws.

Section ReadonlyLaws.

Lemma readonly_bind {A B} (p : prog A) (f : A -> prog B) :
  readonly p -> (forall a, readonly (f a)) -> readonly (bind p f).
Proof.
  intros Hp Hf. induction Hp; simpl; try (constructor; auto); auto.
Qed.

Lemma readonly_mbind {A B} (p : prog A) (f : A -> prog B) :
  readonly p -> (forall a, readonly (f a)) -> readonly (p ≫= f).
Proof. apply readonly_bind. Qed.

Lemma readonly_try_catch {R} (p : prog R) (handler : exn -> prog R) :
  readonly p -> (forall e, readonly (handler e)) -> readonly (try_catch p handler).
Proof.
  intros Hp Hf. induction Hp; simpl; try (constructor; auto); auto.
Qed.

Lemma readonly_await {A} (op : io (exn + A)) : readonly (await op).
Proof. constructor. intros [e|a]; constructor. Qed.

Lemma readonly_ask {A} (op : io A) : readonly (ask op).
Proof. constructor. intros a; constructor. Qed.

Lemma readonly_for_of {A B} (xs : list A) (acc : B) (body : B -> A -> prog B) :
  (forall b a, readonly (body b a)) -> readonly (for_of xs acc body).
Proof.
  intros Hb. revert acc.
  induction xs as [|x rest IH]; intros acc; simpl.
  - constructor.
  - apply readonly_bind; auto.
Qed.

End ReadonlyLaws.

(* ================================================================== *)
(** ** The retry loop of the replay engine *)
(* ================================================================== *)

Section Engine.

Import DurabilityManager.

Context {W : Type} (env : environment W) (this : DurabilityManager).

Lemma run_backoff_pause (attempt : Z) h w :
  run env (if attempt <? maxRetries (retryConfig this)
           then delay ← calculateBackoffDelay this attempt; sleep delay
           else mret tt) h w = pause_outcome env this attempt h w.
Proof.
  unfold pause_outcome.
  destruct (attempt <? maxRetries (retryConfig this)); reflexivity.
Qed.

Lemma run_retry_loop_cons event processor attempt rest lastError attemptCount h w :
  run env (retry_loop this event processor (attempt :: rest) lastError attemptCount) h w =
  let o := run env (processor event) h w in
  match res o with
  | inr _ => mkOutcome (inr true) (heap_of o) (world_of o) (trace o)
  | inl e =>
      let p := pause_outcome env this attempt (heap_of o) (world_of o) in
      prepend (trace o ++ trace p)
        (run env (retry_loop this event processor rest (Some e) (attemptCount + 1))
             (heap_of p) (world_of p))
  end.
Proof.
  cbn [retry_loop]. rewrite run_mbind, run_try_catch, run_mbind.
  destruct (run env (processor event) h w) as [[e|[]] h1 w1 t1];
    cbn [res heap_of world_of trace rethrow prepend].
  - rewrite run_mbind, run_backoff_pause.
    unfold pause_outcome.
    destruct (attempt <? maxRetries (retryConfig this));
      cbn [res heap_of world_of trace rethrow prepend run mret prog_ret];
      match goal with
      | |- context [run env ?p ?h' ?w'] => destruct (run env p h' w') as [r2 h2 w2 t2]
      end; unfold prepend; cbn; rewrite ?app_nil_r, <- ?app_assoc; cbn; rewrite ?app_nil_r; reflexivity.
  - unfold prepend; cbn. rewrite !app_nil_r. reflexivity.
Qed.

Lemma run_retry_loop_nil event processor lastError attemptCount h w :
  res (run env (retry_loop this event processor [] lastError attemptCount) h w) = inr false /\
  heap_of (run env (retry_loop this event processor [] lastError attemptCount) h w) = h /\
  payloads (trace (run env (retry_loop this event processor [] lastError attemptCount) h w)) = [] /\
  sleeps (trace (run env (retry_loop this event processor [] lastError attemptCount) h w)) = [] /\
  draws (trace (run env (retry_loop this event processor [] lastError attemptCount) h w)) = [].
Proof.
  cbn [retry_loop]. rewrite run_mbind.
  destruct lastError as [e|]; [destruct (truthy e)|]; cbn; auto.
Qed.


Lemma payloads_app t1 t2 : payloads (t1 ++ t2) = payloads t1 ++ payloads t2.
Proof. apply omap_app. Qed.

Lemma payloads_pause attempt h w : payloads (trace (pause_outcome env this attempt h w)) = [].
Proof. unfold pause_outcome. destruct (_ <? _); reflexivity. Qed.

Lemma heap_pause attempt h w : heap_of (pause_outcome env this attempt h w) = h.
Proof. unfold pause_outcome. destruct (_ <? _); reflexivity. Qed.

Lemma run_extern event h w :
  run env (extern event) h w =
  mkOutcome ((env _ (call_processor (JStr event)) w).1) h
            (env _ (call_processor (JStr event)) w).2
            [Ev h (call_processor (JStr event)) (env _ (call_processor (JStr event)) w).1].
Proof. apply run_await. Qed.

Lemma retry_loop_extern event attempts lastError attemptCount h w :
  let o := run env (retry_loop this event extern attempts lastError attemptCount) h w in
  exists (n : nat) (ok : bool),
    res o = inr ok /\ heap_of o = h /\
    payloads (trace o) = replicate n (JStr event) /\
    (n <= length attempts)%nat /\
    (ok = true -> (1 <= n)%nat) /\
    (ok = false -> n = length attempts) /\
    (always_rejects env -> ok = false).
Proof.
  cbv zeta. revert lastError attemptCount h w.
  induction attempts as [|attempt rest IH]; intros lastError attemptCount h w.
  - exists 0%nat, false.
    destruct (run_retry_loop_nil event extern lastError attemptCount h w)
      as (Hres & Hheap & Hpay & _).
    repeat split; auto. discriminate.
  - rewrite run_retry_loop_cons. cbv zeta. rewrite run_extern. cbn [res heap_of world_of trace].
    destruct ((env _ (call_processor (JStr event)) w).1) as [e|[]] eqn:Hp.
    + match goal with
      | |- context [run env (retry_loop this event extern rest ?l ?c) ?h' ?w'] =>
          destruct (IH l c h' w') as (n & ok & Hres & Hheap & Hpay & Hle & H1 & H0 & Hrej)
      end.
      exists (S n), ok. cbn [prepend res heap_of world_of trace].
      rewrite !payloads_app, payloads_pause, Hpay, Hres, Hheap, heap_pause.
      split; [reflexivity|]. split; [reflexivity|]. split; [reflexivity|].
      split; [cbn [length]; lia|]. split; [intros; lia|].
      split; [|exact Hrej].
      intros Hf. cbn [length]. rewrite (H0 Hf). reflexivity.
    + exists 1%nat, true. cbn. repeat split; auto; try lia; try discriminate.
      intros Hrej. destruct (Hrej (JStr event) w) as [e He]. congruence.
Qed.

Lemma sleeps_app t1 t2 : sleeps (t1 ++ t2) = sleeps t1 ++ sleeps t2.
Proof. apply omap_app. Qed.

Lemma draws_app t1 t2 : draws (t1 ++ t2) = draws t1 ++ draws t2.
Proof. apply omap_app. Qed.

Lemma timeline_app t1 t2 : timeline (t1 ++ t2) = timeline t1 ++ timeline t2.
Proof. apply omap_app. Qed.

Lemma powers_app t1 t2 : powers (t1 ++ t2) = powers t1 ++ powers t2.
Proof. apply omap_app. Qed.

Lemma rejections_app t1 t2 : rejections (t1 ++ t2) = rejections t1 ++ rejections t2.
Proof. apply omap_app. Qed.

Lemma diagnostics_app t1 t2 : diagnostics (t1 ++ t2) = diagnostics t1 ++ diagnostics t2.
Proof. apply omap_app. Qed.

Lemma notifications_app t1 t2 :
  notifications (t1 ++ t2) = notifications t1 ++ notifications t2.
Proof. apply omap_app. Qed.

(** What a pause leaves in each projection of the trace. *)
Lemma pause_marks attempt h w :
  let p := pause_outcome env this attempt h w in
  rejections (trace p) = [] /\ diagnostics (trace p) = [] /\
  notifications (trace p) = [] /\
  if attempt <? maxRetries (retryConfig this) then
    exists pw rnd,
      powers (trace p) = [(backoffMultiplier (retryConfig this), of_Z attempt, pw)] /\
      draws (trace p) = [rnd] /\
      sleeps (trace p) = [backoff_delay this pw rnd] /\
      timeline (trace p) = [Slept (backoff_delay this pw rnd)]
  else
    powers (trace p) = [] /\ draws (trace p) = [] /\ sleeps (trace p) = [] /\
    timeline (trace p) = [].
Proof.
  unfold pause_outcome. destruct (_ <? _); cbn.
  - split; [reflexivity|]. split; [reflexivity|]. split; [reflexivity|].
    eexists _, _. repeat split.
  - repeat split.
Qed.

Lemma run_retry_loop_exhausted event processor lastError attemptCount h w :
  run env (retry_loop this event processor [] lastError attemptCount) h w =
  match lastError with
  | Some e =>
      if truthy e then
        mkOutcome (inr false) h (env _ (console_error attemptCount event e) w).2
          [Ev h (console_error attemptCount event e)
              (env _ (console_error attemptCount event e) w).1]
      else mkOutcome (inr false) h w []
  | None => mkOutcome (inr false) h w []
  end.
Proof.
  cbn [retry_loop]. rewrite run_mbind.
  destruct lastError as [e|]; [destruct (truthy e)|]; reflexivity.
Qed.

(** One record with the caller's processor, from attempt number [a] to
    the last one: failed invocations, each followed by the sleep whose
    delay was computed with the number of that attempt, then the
    invocation that resolves or the last one allowed. *)
Lemma retry_loop_timeline event (len : nat) :
  forall (a : Z) lastError attemptCount h w,
    a + Z.of_nat len = maxRetries (retryConfig this) ->
    let o := run env (retry_loop this event extern (seqZ a (Z.of_nat (S len)))
                                 lastError attemptCount) h w in
    exists ok : bool,
      res o = inr ok /\
      notifications (trace o) = [] /\
      sleeps (trace o) =
        zip_with (fun pw rnd => backoff_delay this pw.2 rnd)
                 (powers (trace o)) (draws (trace o)) /\
      map fst (powers (trace o)) =
        map (fun k => (backoffMultiplier (retryConfig this), of_Z k))
            (seqZ a (Z.of_nat (length (sleeps (trace o))))) /\
      length (draws (trace o)) = length (sleeps (trace o)) /\
      timeline (trace o) =
        concat (map (fun d => [Invoked false; Slept d]) (sleeps (trace o)))
        ++ [Invoked ok] /\
      (if ok then
         (length (sleeps (trace o)) <= len)%nat /\ diagnostics (trace o) = []
       else
         length (sleeps (trace o)) = len /\
         length (rejections (trace o)) = S len /\
         diagnostics (trace o) =
           last_words (attemptCount + Z.of_nat (S len)) event (rejections (trace o))).
Proof.
  induction len as [|len IH]; intros a lastError attemptCount h w Hlen; cbv zeta.
  - change (seqZ a (Z.of_nat 1)) with [a].
    rewrite run_retry_loop_cons. cbv zeta. rewrite run_extern.
    cbn [res heap_of world_of trace].
    destruct ((env _ (call_processor (JStr event)) w).1) as [e|[]] eqn:Hp.
    + unfold pause_outcome.
      replace (a <? maxRetries (retryConfig this)) with false
        by (symmetry; apply Z.ltb_ge; lia).
      cbn [trace heap_of world_of app]. rewrite run_retry_loop_exhausted.
      exists false. unfold last_words.
      destruct (truthy e) eqn:Ht; cbn; rewrite ?Ht; repeat split; reflexivity.
    + exists true. cbn. repeat split; auto with lia.
  - rewrite Nat2Z.inj_succ, (seqZ_cons a) by lia. rewrite Z.pred_succ.
    rewrite run_retry_loop_cons. cbv zeta. rewrite run_extern.
    cbn [res heap_of world_of trace].
    destruct ((env _ (call_processor (JStr event)) w).1) as [e|[]] eqn:Hp.
    + destruct (pause_marks a h (env _ (call_processor (JStr event)) w).2)
        as (Pr & Pd & Pn & Prest).
      cbv zeta in Pr, Pd, Pn, Prest.
      replace (a <? maxRetries (retryConfig this)) with true in Prest
        by (symmetry; apply Z.ltb_lt; lia).
      destruct Prest as (pw & rnd & Pp & Pdr & Ps & Pt).
      match goal with
      | |- context [run env (retry_loop this event extern ?att ?l ?c) ?h' ?w'] =>
          destruct (IH (Z.succ a) l c h' w') as (ok & Hres & Hn & Hs & Hpw & Hdl & Ht & Hok);
            [lia|];
          cbv zeta in Hres, Hn, Hs, Hpw, Hdl, Ht, Hok;
          destruct (run env (retry_loop this event extern att l c) h' w')
            as [r1 h1 w1 t1]
      end.
      cbn [res heap_of world_of trace] in Hres, Hn, Hs, Hpw, Hdl, Ht, Hok.
      exists ok. cbn [prepend res trace].
      rewrite !notifications_app, !sleeps_app, !powers_app, !draws_app, !timeline_app,
        !rejections_app, !diagnostics_app.
      rewrite Pr, Pd, Pn, Pp, Pdr, Ps, Pt, Hn.
      split; [exact Hres|]. split; [reflexivity|].
      cbn [app sleeps powers draws timeline rejections diagnostics notifications omap
           list_omap option_bind].
      change (sleeps [Ev h (call_processor (JStr event)) (inl e)]) with (@nil number).
      change (powers [Ev h (call_processor (JStr event)) (inl e)])
        with (@nil (number * number * number)).
      change (draws [Ev h (call_processor (JStr event)) (inl e)]) with (@nil number).
      change (timeline [Ev h (call_processor (JStr event)) (inl e)]) with [Invoked false].
      change (rejections [Ev h (call_processor (JStr event)) (inl e)]) with [e].
      change (diagnostics [Ev h (call_processor (JStr event)) (inl e)])
        with (@nil (Z * jsstr)).
      cbn [app length zip_with map concat snd].
      split; [rewrite Hs at 1; reflexivity|].
      split.
      { rewrite Hpw, Nat2Z.inj_succ, (seqZ_cons a) by lia. rewrite Z.pred_succ.
        reflexivity. }
      split; [rewrite Hdl; reflexivity|].
      split; [rewrite Ht; reflexivity|].
      destruct ok.
      * destruct Hok as [Hle Hd]. split; [lia | exact Hd].
      * destruct Hok as (Hl & Hr & Hd). split; [lia|]. split; [lia|].
        rewrite Hd. unfold last_words.
        destruct (rejections t1) as [|e1 rest] eqn:Hrej; [discriminate|].
        change (last (e :: e1 :: rest)) with (last (e1 :: rest)).
        destruct (last (e1 :: rest)) as [x|]; [|reflexivity].
        destruct (truthy x); [|reflexivity]. do 2 f_equal. lia.
    + exists true. cbn. repeat split; auto with lia.
Qed.

(** The whole retry loop of one record. *)
Lemma processEventWithRetry_timeline event h w :
  0 <= maxRetries (retryConfig this) ->
  let o := run env (processEventWithRetry this event extern) h w in
  exists ok : bool,
    res o = inr ok /\
    sleeps (trace o) =
      zip_with (fun pw rnd => backoff_delay this pw.2 rnd)
               (powers (trace o)) (draws (trace o)) /\
    map fst (powers (trace o)) =
      map (fun k => (backoffMultiplier (retryConfig this), of_Z k))
          (seqZ 0 (Z.of_nat (length (sleeps (trace o))))) /\
    length (draws (trace o)) = length (sleeps (trace o)) /\
    timeline (trace o) =
      concat (map (fun d => [Invoked false; Slept d]) (sleeps (trace o)))
      ++ [Invoked ok] /\
    (if ok then
       (Z.of_nat (length (sleeps (trace o))) <= maxRetries (retryConfig this)) /\
       diagnostics (trace o) = []
     else
       Z.of_nat (length (sleeps (trace o))) = maxRetries (retryConfig this) /\
       diagnostics (trace o) =
         last_words (maxRetries (retryConfig this) + 1) event (rejections (trace o))).
Proof.
  intros Hmax. cbv zeta. unfold processEventWithRetry.
  assert (E : seqZ 0 (maxRetries (retryConfig this) + 1) =
              seqZ 0 (Z.of_nat (S (Z.to_nat (maxRetries (retryConfig this))))))
    by (f_equal; lia).
  rewrite E.
  destruct (retry_loop_timeline event (Z.to_nat (maxRetries (retryConfig this)))
              0 None 0 h w) as (ok & Hres & _ & Hs & Hpw & Hdl & Ht & Hok); [lia|].
  cbv zeta in Hres, Hs, Hpw, Hdl, Ht, Hok.
  destruct (run env (retry_loop this event extern _ None 0) h w) as [r1 h1 w1 t1].
  cbn [res heap_of world_of trace] in *.
  exists ok. split; [exact Hres|]. split; [exact Hs|]. split; [exact Hpw|].
  split; [exact Hdl|]. split; [exact Ht|].
  destruct ok.
  - destruct Hok as [Hle Hd]. split; [lia | exact Hd].
  - destruct Hok as (Hl & _ & Hd). split; [lia|]. rewrite Hd. f_equal. lia.
Qed.

End Engine.

(* ================================================================== *)
(** ** The loop over the replay window *)
(* ================================================================== *)

Section ReplayLoop.

Import DurabilityManager.

Context {W : Type} (env : environment W) (this : DurabilityManager).

Lemma run_notify event ok h w :
  run env (notify this event ok) h w =
  if has_onEventProcessed this then
    mkOutcome ((env _ (call_onEventProcessed event ok) w).1) h
              (env _ (call_onEventProcessed event ok) w).2
              [Ev h (call_onEventProcessed event ok)
                  (env _ (call_onEventProcessed event ok) w).1]
  else mkOutcome (inr tt) h w [].
Proof.
  unfold notify. destruct (has_onEventProcessed this); [apply run_await | reflexivity].
Qed.

Lemma run_replay_step processor result event h w :
  run env (replay_step this processor result event) h w =
  let o := run env (processEventWithRetry this event processor) h w in
  match res o with
  | inl e => rethrow e o
  | inr ok =>
      let n := run env (notify this event ok) (heap_of o) (world_of o) in
      mkOutcome
        (match res n with
         | inl e => inl e
         | inr _ => inr (if ok then count_processed result else count_failed result)
         end)
        (heap_of n) (world_of n) (trace o ++ trace n)
  end.
Proof.
  unfold replay_step. rewrite run_mbind. cbv zeta.
  destruct (run env (processEventWithRetry this event processor) h w)
    as [[e|[]] h1 w1 t1]; cbn [res heap_of world_of trace]; [reflexivity| |];
    rewrite run_mbind;
    destruct (run env (notify this event _) h1 w1) as [[e|[]] h2 w2 t2];
    unfold prepend, rethrow; cbn; rewrite ?app_nil_r; reflexivity.
Qed.

Lemma replay_step_result processor result event h w r :
  res (run env (replay_step this processor result event) h w) = inr r ->
  r = count_processed result \/ r = count_failed result.
Proof.
  rewrite run_replay_step. cbv zeta.
  destruct (res (run env (processEventWithRetry this event processor) h w)) as [e|ok];
    [discriminate|].
  cbn [res].
  destruct (res (run env (notify this event ok) _ _)); [discriminate|].
  intros [= <-]. destruct ok; auto.
Qed.

Lemma counts_ok_processed n result :
  counts_ok n result -> counts_ok (n + 1) (count_processed result).
Proof. unfold counts_ok; cbn. intros (H1 & H2 & H3). repeat split; try lia; apply H3. Qed.

Lemma counts_ok_failed n result :
  counts_ok n result -> counts_ok (n + 1) (count_failed result).
Proof.
  unfold counts_ok; cbn. intros (H1 & H2 & H3).
  repeat split; try lia; try discriminate.
Qed.

Lemma process_loop_counts processor events :
  forall acc n h w r,
    counts_ok n acc ->
    res (run env (for_of events acc (replay_step this processor)) h w) = inr r ->
    counts_ok (n + Z.of_nat (length events)) r.
Proof.
  induction events as [|event rest IH]; intros acc n h w r Hacc Hrun.
  - cbn in Hrun. injection Hrun as <-. rewrite Z.add_0_r. exact Hacc.
  - cbn [for_of] in Hrun. rewrite run_bind in Hrun.
    destruct (res (run env (replay_step this processor acc event) h w))
      as [e|acc'] eqn:Hstep; [discriminate|].
    cbn [prepend res] in Hrun.
    apply replay_step_result in Hstep.
    replace (n + Z.of_nat (length (event :: rest)))
      with ((n + 1) + Z.of_nat (length rest)) by (cbn [length]; lia).
    eapply IH; [|exact Hrun].
    destruct Hstep as [-> | ->];
      [apply counts_ok_processed | apply counts_ok_failed]; exact Hacc.
Qed.


Lemma notify_quiet event ok h w :
  observer_quiet this env -> res (run env (notify this event ok) h w) = inr tt.
Proof.
  intros Hq. rewrite run_notify.
  destruct Hq as [-> | Hq]; [reflexivity|].
  destruct (has_onEventProcessed this); [apply Hq | reflexivity].
Qed.



End ReplayLoop.

(* ================================================================== *)
(** ** One call of [replay] *)
(* ================================================================== *)

Section ReplayCall.

Import DurabilityManager.

Context {W : Type} (env : environment W) (this : DurabilityManager).

Lemma run_read baseDir name h w :
  run env (WALManager.read baseDir name) h w =
  match _logs h !! name with
  | None => mkOutcome (inl (WALManager.NotRegistered name)) h w []
  | Some wal =>
      let path := WALManager.path_join baseDir (WAL.fileName wal) in
      mkOutcome ((env _ (readFile path) w).1) h (env _ (readFile path) w).2
                [Ev h (readFile path) (env _ (readFile path) w).1]
  end.
Proof.
  unfold WALManager.read. cbn [run].
  destruct (_logs h !! name); [apply run_await | reflexivity].
Qed.

Lemma run_replay count processor h w :
  run env (replay this count processor) h w =
  if isReplaying h then mkOutcome (inl ReplayInProgress) h w []
  else
    let body := run env (replay_body this count processor) (set_isReplaying true h) w in
    mkOutcome (res body) (set_isReplaying false (heap_of body)) (world_of body)
              (trace body).
Proof.
  unfold replay. cbn [run]. destruct (isReplaying h); [reflexivity|].
  rewrite run_mbind, run_modify. cbn [res heap_of world_of trace prepend app].
  rewrite run_try_finally. cbv zeta. rewrite run_modify.
  cbn [res heap_of world_of trace]. rewrite app_nil_r. reflexivity.
Qed.

Lemma run_replay_body count processor h w :
  run env (replay_body this count processor) h w =
  match _logs h !! walFileName this with
  | None => mkOutcome (inl (WALManager.NotRegistered (walFileName this))) h w []
  | Some wal =>
      let path := WALManager.path_join (walManager this) (WAL.fileName wal) in
      let a := env _ (readFile path) w in
      match a.1 with
      | inl e => mkOutcome (inl e) h a.2 [Ev h (readFile path) (inl e)]
      | inr content =>
          prepend [Ev h (readFile path) (inr content)]
            (run env (process_events this (eventsToReplay count (lines_of content))
                                     processor) h a.2)
      end
  end.
Proof.
  unfold replay_body. rewrite run_mbind, run_read.
  destruct (_logs h !! walFileName this) as [wal|]; [|reflexivity].
  cbv zeta. cbn [res heap_of world_of trace].
  destruct ((env _ (readFile _) w).1); reflexivity.
Qed.

End ReplayCall.

(* ================================================================== *)
(** ** The arithmetic of the backoff *)
(* ================================================================== *)

Section BackoffArithmetic.
Local Open Scope Q_scope.



End BackoffArithmetic.

(* ================================================================== *)
(** ** The replay engine: retries, backoff, result and single flight *)
(* ================================================================== *)

Section EngineClaims.

Import DurabilityManager.

Context {W : Type} (env : environment W) (this : DurabilityManager).





(** C4.  Every call of [DurabilityManager.replay] that returns a result
    read some content of the log, and in its result [processedCount +
    failedCount] is the number of records selected from that content,
    and [success] is true exactly when [failedCount] is zero. *)
Theorem C4_replay_result_counts
    (count : Z) (proc : jsstr -> prog unit) (h : heap) (w : W) (result : ReplayResult) :
  res (run env (replay this count proc) h w) = inr result ->
  exists (wal : WAL.WAL) (content : jsstr),
    _logs h !! walFileName this = Some wal /\
    (env _ (readFile (WALManager.path_join (walManager this) (WAL.fileName wal))) w).1
      = inr content /\
    processedCount result + failedCount result =
      Z.of_nat (length (eventsToReplay count (lines_of content))) /\
    (success result = true <-> failedCount result = 0).
Proof.
  rewrite run_replay. destruct (isReplaying h); [discriminate|]. cbv zeta.
  cbn [res]. rewrite run_replay_body. cbn [set_isReplaying _logs].
  destruct (_logs h !! walFileName this) as [wal|]; [|discriminate].
  cbv zeta.
  destruct ((env _ (readFile _) w).1) as [e|content] eqn:Hread; [discriminate|].
  cbn [prepend res]. unfold process_events. intros Hrun.
  exists wal, content. split; [reflexivity|]. split; [exact Hread|].
  eapply (process_loop_counts env this) with (n := 0) in Hrun.
  - destruct Hrun as (H1 & _ & H3). rewrite Z.add_0_l in H1. auto.
  - unfold counts_ok; cbn. repeat split; auto; lia.
Qed.



Lemma start_replay_busy count proc h :
  isReplaying h = true ->
  start (replay this count proc) h = (h, Finished (inl ReplayInProgress)).
Proof. intros Hflag. unfold replay. cbn [start]. rewrite Hflag. reflexivity. Qed.

Lemma start_replay_idle count proc h :
  isReplaying h = false ->
  (start (replay this count proc) h).2 <> Finished (inl ReplayInProgress).
Proof.
  intros Hflag. unfold replay. cbn [start]. rewrite Hflag.
  unfold WALManager.read. cbn.
  destruct (_logs h !! walFileName this); cbn; [discriminate|].
  intros [=].
Qed.

Lemma readonly_read baseDir name : readonly (WALManager.read baseDir name).
Proof.
  unfold WALManager.read. constructor. intros h.
  destruct (_logs h !! name); [apply readonly_await | constructor].
Qed.

Lemma readonly_retry_loop event proc attempts lastError attemptCount :
  (forall e, readonly (proc e)) ->
  readonly (retry_loop this event proc attempts lastError attemptCount).
Proof.
  intros Hp. revert lastError attemptCount.
  induction attempts as [|attempt rest IH]; intros lastError attemptCount;
    cbn [retry_loop].
  - apply readonly_mbind; [|intros; constructor].
    destruct lastError as [e|]; [destruct (truthy e); [apply readonly_ask | constructor] | constructor].
  - apply readonly_mbind.
    + apply readonly_try_catch.
      * apply readonly_mbind; [apply Hp | intros; constructor].
      * intros e. apply readonly_mbind; [|intros; constructor].
        destruct (attempt <? maxRetries (retryConfig this)); [|constructor].
        apply readonly_mbind; [|intros; apply readonly_ask].
        apply readonly_mbind; [apply readonly_ask|]. intros power.
        apply readonly_mbind; [apply readonly_ask | intros; constructor].
    + intros [e|]; [apply IH | constructor].
Qed.

Lemma readonly_replay_body count proc :
  (forall e, readonly (proc e)) -> readonly (replay_body this count proc).
Proof.
  intros Hp. unfold replay_body.
  apply readonly_mbind; [apply readonly_read|]. intros content.
  unfold process_events. apply readonly_for_of. intros result event.
  unfold replay_step. apply readonly_mbind; [apply readonly_retry_loop; exact Hp|].
  intros [|]; (apply readonly_mbind; [|intros; constructor]);
    unfold notify; destruct (has_onEventProcessed this);
    try apply readonly_await; constructor.
Qed.

(** C6.  Single flight.  While [isReplaying] is set, a call of [replay]
    fails at once with ReplayInProgress and changes nothing.  A call that
    finds the flag clear keeps it set at every one of its interactions
    with the environment (reading the log, the processor, the timers), so
    that a second call made at any of these moments fails; and however
    the call ends (a result, a partial failure, an error thrown by the
    read or by the observer) the flag is clear afterwards and the next
    call is not refused.  The processor assigns no field of the engine. *)
Theorem C6_replay_single_flight
    (count : Z) (proc : jsstr -> prog unit) (h : heap) (w : W)
    (count' : Z) (proc' : jsstr -> prog unit) :
  (forall e, readonly (proc e)) ->
  let o := run env (replay this count proc) h w in
  (isReplaying h = true ->
   start (replay this count proc) h = (h, Finished (inl ReplayInProgress)) /\
   o = mkOutcome (inl ReplayInProgress) h w []) /\
  (isReplaying h = false ->
   Forall (fun ev =>
             isReplaying (ev_heap ev) = true /\
             start (replay this count' proc') (ev_heap ev) =
             (ev_heap ev, Finished (inl ReplayInProgress)))
          (trace o) /\
   isReplaying (heap_of o) = false /\
   (start (replay this count' proc') (heap_of o)).2 <>
     Finished (inl ReplayInProgress)).
Proof.
  intros Hro o. subst o. rewrite run_replay. split; intros Hflag; rewrite Hflag.
  - split; [apply start_replay_busy; exact Hflag | reflexivity].
  - cbv zeta. cbn [trace heap_of].
    destruct (readonly_run env (replay_body this count proc) (set_isReplaying true h) w
                (readonly_replay_body count proc Hro)) as [_ Htrace].
    split; [|split].
    + eapply Forall_impl; [exact Htrace|]. intros ev Hev. cbn beta in Hev.
      rewrite Hev. split; [reflexivity|]. apply start_replay_busy. reflexivity.
    + reflexivity.
    + apply start_replay_idle. reflexivity.
Qed.

End EngineClaims.

Section EngineWitnesses.

Import DurabilityManager.

Lemma readonly_extern event : readonly (extern event).
Proof. apply readonly_await. Qed.





Lemma C4_counts_witness :
  exists result,
    res (run platform (replay test_manager 2 extern) registered (disk three_events))
      = inr result /\
    processedCount result + failedCount result = 2 /\
    (success result = true <-> failedCount result = 0).
Proof.
  eexists. split; [vm_compute; reflexivity|].
  destruct (C4_replay_result_counts platform test_manager 2 extern registered
              (disk three_events) _ eq_refl)
    as (wal & content & Hlog & Hread & Hsum & Hsucc).
  vm_compute in Hlog. injection Hlog as <-.
  vm_compute in Hread. injection Hread as <-.
  split; [exact Hsum | exact Hsucc].
Defined.

Lemma C6_single_flight_witness :
  let o := run platform (replay test_manager 2 extern) registered (disk three_events) in
  Forall (fun ev =>
            isReplaying (ev_heap ev) = true /\
            start (replay test_manager 1 extern) (ev_heap ev) =
            (ev_heap ev, Finished (inl ReplayInProgress)))
         (trace o) /\
  isReplaying (heap_of o) = false /\
  (start (replay test_manager 1 extern) (heap_of o)).2 <> Finished (inl ReplayInProgress).
Proof.
  destruct (C6_replay_single_flight platform test_manager 2 extern registered
              (disk three_events) 1 extern readonly_extern) as [_ Hidle].
  apply Hidle. reflexivity.
Defined.

End EngineWitnesses.

(* ================================================================== *)
(** ** The registry: registration *)
(* ================================================================== *)

Section Registry.

Context (baseDir : jsstr) (wal : WAL.WAL).

Local Notation name := (WAL.fileName wal).
Local Notation path := (WALManager.path_join baseDir (WAL.fileName wal)).

Lemma start_register_busy h :
  name ∈ _registering h ->
  start (WALManager.register baseDir wal) h =
  (h, Finished (inl (WALManager.AlreadyRegistering name))).
Proof.
  intros Hin. unfold WALManager.register. cbn [start].
  rewrite bool_decide_eq_true_2 by exact Hin. reflexivity.
Qed.

Lemma start_register_known h :
  name ∉ _registering h -> is_Some (_logs h !! name) ->
  start (WALManager.register baseDir wal) h = (h, Finished (inr tt)).
Proof.
  intros Hnot Hsome. unfold WALManager.register. cbn [start].
  rewrite bool_decide_eq_false_2 by exact Hnot.
  rewrite bool_decide_eq_true_2 by exact Hsome. reflexivity.
Qed.

Lemma run_register_known {W} (env : environment W) h w :
  name ∉ _registering h -> is_Some (_logs h !! name) ->
  run env (WALManager.register baseDir wal) h w = mkOutcome (inr tt) h w [].
Proof.
  intros Hnot Hsome. unfold WALManager.register. cbn [run].
  rewrite bool_decide_eq_false_2 by exact Hnot.
  rewrite bool_decide_eq_true_2 by exact Hsome. reflexivity.
Qed.

Lemma run_register_fresh {W} (env : environment W) h w :
  name ∉ _registering h -> _logs h !! name = None ->
  run env (WALManager.register baseDir wal) h w =
  let h1 := registering_heap wal h in
  let h2 := recorded_heap wal h in
  let a1 := env _ (mkdir baseDir) w in
  match a1.1 with
  | inl e => mkOutcome (inl e) (released wal h1) a1.2 [Ev h1 (mkdir baseDir) (inl e)]
  | inr u1 =>
      let a2 := env _ (access path) a1.2 in
      match a2.1 with
      | inr u2 =>
          mkOutcome (inr tt) (released wal h2) a2.2
            [Ev h1 (mkdir baseDir) (inr u1); Ev h2 (access path) (inr u2)]
      | inl e2 =>
          let a3 := env _ (writeFile path []) a2.2 in
          mkOutcome a3.1 (released wal h2) a3.2
            [Ev h1 (mkdir baseDir) (inr u1); Ev h2 (access path) (inl e2);
             Ev h2 (writeFile path []) a3.1]
      end
  end.
Proof.
  intros Hnot Hnone. unfold WALManager.register. cbn [run].
  rewrite bool_decide_eq_false_2 by exact Hnot.
  rewrite bool_decide_eq_false_2 by (rewrite Hnone; intros [? ?]; discriminate).
  rewrite run_mbind, run_modify. cbn [res heap_of world_of trace prepend app].
  rewrite run_try_finally. cbv zeta. rewrite run_modify.
  cbn [res heap_of world_of trace].
  rewrite run_mbind. unfold WALManager.ensureBaseDir. rewrite run_await.
  cbn [res heap_of world_of trace].
  fold (registering_heap wal h).
  destruct ((env _ (mkdir baseDir) w).1) as [e|u1]; [reflexivity|].
  cbn [prepend res heap_of world_of trace rethrow].
  rewrite run_mbind, run_modify. cbn [res heap_of world_of trace prepend app].
  rewrite run_try_catch, run_await. cbn [res heap_of world_of trace].
  fold (recorded_heap wal h).
  destruct ((env _ (access path) _).1) as [e2|[]]; [|reflexivity].
  rewrite run_await. cbn [prepend res heap_of world_of trace app].
  destruct ((env _ (writeFile path []) _).1) as [e3|[]]; reflexivity.
Qed.

Lemma take_back (x : jsstr) (s : gset jsstr) : x ∉ s -> ({[x]} ∪ s) ∖ {[x]} = s.
Proof.
  intros Hx. apply set_eq. intros y.
  rewrite elem_of_difference, elem_of_union, elem_of_singleton.
  split.
  - intros [[->|Hy] Hne]; [contradiction | exact Hy].
  - intros Hy. split; [right; exact Hy | intros ->; contradiction].
Qed.

Lemma released_recorded h :
  name ∉ _registering h ->
  released wal (recorded_heap wal h) =
  mkHeap (<[name := wal]> (_logs h)) (_registering h) (isReplaying h).
Proof.
  intros Hnot. unfold released, recorded_heap, registering_heap,
    set_registering, set_logs. cbn. f_equal. apply take_back; exact Hnot.
Qed.

Lemma released_registering h :
  name ∉ _registering h -> released wal (registering_heap wal h) = h.
Proof.
  intros Hnot. destruct h as [l r b].
  unfold released, registering_heap, set_registering. cbn in *. f_equal. apply take_back; exact Hnot.
Qed.


Lemma platform_register_fresh h pw :
  disk_full pw = false ->
  name ∉ _registering h -> _logs h !! name = None ->
  let o := run platform (WALManager.register baseDir wal) h pw in
  res o = inr tt /\
  heap_of o = mkHeap (<[name := wal]> (_logs h)) (_registering h) (isReplaying h) /\
  files (world_of o) =
    match files pw !! path with
    | Some _ => files pw
    | None => <[path := []]> (files pw)
    end.
Proof.
  intros Hdisk Hnot Hnone. cbv zeta.
  rewrite run_register_fresh by assumption. cbv zeta.
  cbn [platform fst snd with_dirs files].
  destruct (files pw !! path) as [c|] eqn:Hfile.
  - cbn [res heap_of world_of]. rewrite released_recorded by assumption. auto.
  - cbn [platform fst snd with_dirs files disk_full]. rewrite Hdisk.
    cbn [res heap_of world_of fst snd with_files files].
    rewrite released_recorded by assumption. auto.
Qed.

(** C7, as amended.  [WALManager.register] is idempotent.  When the name
    is registered and no registration of it is running, a call returns
    at once: no request reaches the file system and nothing changes.
    For a name that is neither registered nor being registered, the call
    asks for the base directory, records the name as registered, and then
    asks whether the file exists and writes the empty file only when that
    check fails: the name is already in [_logs] at both of these
    requests.  It leaves the set of running registrations as it found
    it.  At every moment that call waits for the file system, a second
    registration of the same name fails with AlreadyRegistering.  On the
    simulated disk, registering twice leaves exactly the file one
    registration leaves: a file that existed keeps its content, a missing
    one is created empty. *)
Theorem C7_register_idempotent
    {W} (env : environment W) (h : heap) (w : W) (pw : world) :
  let o := run env (WALManager.register baseDir wal) h w in
  let twice := run platform (WALManager.register baseDir wal ;;
                             WALManager.register baseDir wal) h pw in
  (name ∈ _registering h ->
   start (WALManager.register baseDir wal) h =
   (h, Finished (inl (WALManager.AlreadyRegistering name)))) /\
  (name ∉ _registering h -> is_Some (_logs h !! name) ->
   start (WALManager.register baseDir wal) h = (h, Finished (inr tt)) /\
   o = mkOutcome (inr tt) h w []) /\
  (name ∉ _registering h -> _logs h !! name = None ->
   Forall (fun ev =>
             start (WALManager.register baseDir wal) (ev_heap ev) =
             (ev_heap ev, Finished (inl (WALManager.AlreadyRegistering name))))
          (trace o) /\
   requests (trace o) =
     existT _ (mkdir baseDir) ::
     match (env _ (mkdir baseDir) w).1 with
     | inl _ => []
     | inr _ =>
         existT _ (access path) ::
         match (env _ (access path) (env _ (mkdir baseDir) w).2).1 with
         | inr _ => []
         | inl _ => [existT _ (writeFile path [])]
         end
     end /\
   _registering (heap_of o) = _registering h /\
   (res o = inr tt -> _logs (heap_of o) = <[name := wal]> (_logs h)) /\
   Forall (fun ev => _logs (ev_heap ev) !! name = Some wal) (tail (trace o)) /\
   (disk_full pw = false ->
    res twice = inr tt /\
    files (world_of twice) =
      match files pw !! path with
      | Some _ => files pw
      | None => <[path := []]> (files pw)
      end /\
    _logs (heap_of twice) = <[name := wal]> (_logs h) /\
    _registering (heap_of twice) = _registering h)).
Proof.
  intros o twice. split; [apply start_register_busy|]. split.
  - intros Hnot Hsome. split; [apply start_register_known; assumption|].
    apply run_register_known; assumption.
  - intros Hnot Hnone.
    assert (Hbusy1 : name ∈ _registering (registering_heap wal h))
      by (cbn; apply elem_of_union_l, elem_of_singleton; reflexivity).
    assert (Hbusy2 : name ∈ _registering (recorded_heap wal h)) by exact Hbusy1.
    assert (Hrec : _logs (recorded_heap wal h) !! name = Some wal)
      by (cbn; apply lookup_insert_eq).
    split; [|split; [|split; [|split; [|split]]]].
    + subst o. rewrite run_register_fresh by assumption. cbv zeta.
      destruct ((env _ (mkdir baseDir) w).1) as [e|u1]; cbn [trace].
      { repeat constructor. apply start_register_busy. exact Hbusy1. }
      destruct ((env _ (access path) _).1) as [e2|u2]; cbn [trace];
        repeat constructor; apply start_register_busy; assumption.
    + subst o. rewrite run_register_fresh by assumption. cbv zeta.
      destruct ((env _ (mkdir baseDir) w).1) as [e|u1]; [reflexivity|].
      destruct ((env _ (access path) _).1) as [e2|u2]; reflexivity.
    + subst o. rewrite run_register_fresh by assumption. cbv zeta.
      destruct ((env _ (mkdir baseDir) w).1) as [e|u1]; cbn [heap_of].
      { rewrite released_registering by assumption. reflexivity. }
      destruct ((env _ (access path) _).1) as [e2|u2]; cbn [heap_of];
        rewrite released_recorded by assumption; reflexivity.
    + subst o. rewrite run_register_fresh by assumption. cbv zeta.
      destruct ((env _ (mkdir baseDir) w).1) as [e|u1]; [discriminate|].
      destruct ((env _ (access path) _).1) as [e2|u2]; cbn [heap_of res];
        intros _; rewrite released_recorded by assumption; reflexivity.
    + subst o. rewrite run_register_fresh by assumption. cbv zeta.
      destruct ((env _ (mkdir baseDir) w).1) as [e|u1]; cbn [trace tail];
        [constructor|].
      destruct ((env _ (access path) _).1) as [e2|u2]; cbn [trace tail];
        repeat constructor; exact Hrec.
    + intros Hdisk. subst twice. rewrite run_mbind.
      destruct (platform_register_fresh h pw Hdisk Hnot Hnone) as (Hres & Hheap & Hfiles).
      rewrite Hres. cbn [prepend res heap_of world_of].
      rewrite run_register_known;
        [| rewrite Hheap; exact Hnot
         | rewrite Hheap; cbn [_logs]; rewrite lookup_insert_eq; eexists; reflexivity].
      cbn [res heap_of world_of]. rewrite Hheap, Hfiles. auto.
Qed.


(** C9.  [WALManager.register] is not atomic on failure.  When the
    registration of a new name gets as far as creating the file and
    [writeFile] rejects with [e], the call fails with [e]; the name was
    already in [_logs] when the write was requested and it stays there,
    while the registration is no longer marked as running.  A later
    [register] of the handle returns at once without touching the file
    system, and [append], [read] and [truncate] on the name pass the
    registration check and go on to their file operation. *)
Theorem C9_register_not_atomic
    {W} (env : environment W) (h : heap) (w : W) (e : exn) (data : jsstr) :
  name ∉ _registering h ->
  _logs h !! name = None ->
  let o := run env (WALManager.register baseDir wal) h w in
  rejected_writes (trace o) = [(path, e)] ->
  res o = inl e /\
  (exists hw, In (Ev hw (writeFile path []) (inl e)) (trace o) /\
              _logs hw !! name = Some wal) /\
  _logs (heap_of o) !! name = Some wal /\
  (name ∉ _registering (heap_of o)) /\
  start (WALManager.register baseDir wal) (heap_of o) = (heap_of o, Finished (inr tt)) /\
  waits_for (start (WALManager.append baseDir name data) (heap_of o)).2 =
    Some (existT _ (appendFile path (data ++ [LF]))) /\
  waits_for (start (WALManager.read baseDir name) (heap_of o)).2 =
    Some (existT _ (readFile path)) /\
  waits_for (start (WALManager.truncate baseDir name) (heap_of o)).2 =
    Some (existT _ (writeFile path [])).
Proof.
  intros Hnot Hnone o. subst o.
  rewrite run_register_fresh by assumption. cbv zeta.
  destruct ((env _ (mkdir baseDir) w).1) as [e1|u1]; [cbn; discriminate|].
  destruct ((env _ (access path) _).1) as [e2|u2]; [|cbn; discriminate].
  destruct ((env _ (writeFile path []) _).1) as [e3|u3]; [|cbn; discriminate].
  cbn [trace rejected_writes omap]. intros [= ->].
  cbn [res heap_of trace]. rewrite released_recorded by assumption.
  assert (Hlog : <[name := wal]> (_logs h) !! name = Some wal) by apply lookup_insert_eq.
  split; [reflexivity|]. split.
  { exists (recorded_heap wal h). split; [right; right; left; reflexivity | exact Hlog]. }
  split; [exact Hlog|]. split; [exact Hnot|]. split.
  { apply start_register_known; cbn; [exact Hnot | rewrite Hlog; eexists; reflexivity]. }
  unfold WALManager.append, WALManager.read, WALManager.truncate.
  cbn [start _logs]. rewrite Hlog. auto.
Qed.

End Registry.

Section RegistryWitnesses.

Lemma C7_register_twice_witness :
  let twice := run platform (WALManager.register test_dir test_wal ;;
                             WALManager.register test_dir test_wal) fresh boot in
  res twice = inr tt /\
  files (world_of twice) = {[test_path := []]} /\
  start (WALManager.register test_dir test_wal) (heap_of twice) =
  (heap_of twice, Finished (inr tt)).
Proof.
  destruct (C7_register_idempotent test_dir test_wal platform fresh boot boot)
    as (_ & _ & Hfresh).
  destruct Hfresh as (_ & _ & _ & _ & _ & Htwice);
    [apply not_elem_of_empty | reflexivity |].
  destruct (Htwice eq_refl) as (Hres & Hfiles & Hlogs & Hreg).
  split; [exact Hres|]. split; [rewrite Hfiles; reflexivity|].
  destruct (C7_register_idempotent test_dir test_wal platform
              (heap_of (run platform (WALManager.register test_dir test_wal ;;
                                      WALManager.register test_dir test_wal) fresh boot))
              boot boot) as (_ & Hknown & _).
  apply Hknown.
  - rewrite Hreg. apply not_elem_of_empty.
  - rewrite Hlogs. cbn. rewrite lookup_insert_eq. eexists; reflexivity.
Defined.

(** The name is recorded before the file is created, not after: it is in
    [_logs] when [writeFile] is requested, and it is there when the write
    was refused and no file exists. *)
Lemma C7_name_recorded_before_file :
  let o := run platform (WALManager.register test_dir test_wal) fresh boot in
  let failed := run platform (WALManager.register test_dir test_wal) fresh full_disk in
  (exists hw, trace o !! 2%nat = Some (Ev hw (writeFile test_path []) (inr tt)) /\
              _logs hw !! test_name = Some test_wal /\
              files boot !! test_path = None) /\
  res failed = inl ENOSPC /\
  files (world_of failed) !! test_path = None /\
  _logs (heap_of failed) !! test_name = Some test_wal.
Proof.
  cbv zeta. split.
  - eexists. split; [vm_compute; reflexivity|]. split; reflexivity.
  - repeat split; reflexivity.
Qed.

Lemma C9_disk_full_witness :
  let o := run platform (WALManager.register test_dir test_wal) fresh full_disk in
  res o = inl ENOSPC /\
  _logs (heap_of o) !! test_name = Some test_wal /\
  start (WALManager.register test_dir test_wal) (heap_of o) =
  (heap_of o, Finished (inr tt)) /\
  waits_for (start (WALManager.append test_dir test_name (lit "A")) (heap_of o)).2 =
  Some (existT _ (appendFile test_path (lit "A" ++ [LF]))).
Proof.
  destruct (C9_register_not_atomic test_dir test_wal platform fresh full_disk ENOSPC (lit "A"))
    as (Hres & _ & Hlog & _ & Hagain & Happend & _).
  - apply not_elem_of_empty.
  - reflexivity.
  - reflexivity.
  - split; [exact Hres|]. split; [exact Hlog|]. split; [exact Hagain | exact Happend].
Defined.

End RegistryWitnesses.

(* ================================================================== *)
(** ** The record window of [replay] and [inspect] *)
(* ================================================================== *)

Section Window.

Import DurabilityManager.

Lemma eventsToReplay_window (count : Z) (events : list jsstr) :
  eventsToReplay count events = window count events.
Proof.
  unfold eventsToReplay, window, slice.
  destruct (count <=? 0) eqn:Hc; [reflexivity|].
  apply Z.leb_gt in Hc.
  replace (- count <? 0) with true by (symmetry; apply Z.ltb_lt; lia).
  f_equal. lia.
Qed.


Lemma decode_line_pure (line : jsstr) :
  DurableWal.decode_line line = Ret (payload_of line).
Proof.
  unfold DurableWal.decode_line, DurableWal.JSON_parse, DurableWal.dot_data, payload_of.
  destruct (JSON.parse line) as [entry|]; [|reflexivity].
  cbn. destruct (get_data entry); reflexivity.
Qed.

Lemma map_decode_pure (lines : list jsstr) :
  DurableWal.map_prog DurableWal.decode_line lines = Ret (map payload_of lines).
Proof.
  induction lines as [|line rest IH]; [reflexivity|].
  cbn [DurableWal.map_prog map]. rewrite decode_line_pure, IH. reflexivity.
Qed.

Context {W : Type} (env : environment W) (this : DurabilityManager).

Lemma run_inspect (count : Z) h w :
  0 <= count ->
  run env (DurableWal.inspect this count) h w =
  match _logs h !! walFileName this with
  | None => mkOutcome (inl (WALManager.NotRegistered (walFileName this))) h w []
  | Some wal =>
      let path := WALManager.path_join (walManager this) (WAL.fileName wal) in
      let a := env _ (readFile path) w in
      match a.1 with
      | inl e => mkOutcome (inl e) h a.2 [Ev h (readFile path) (inl e)]
      | inr content =>
          mkOutcome (inr (map payload_of (eventsToReplay count (lines_of content))))
                    h a.2 [Ev h (readFile path) (inr content)]
      end
  end.
Proof.
  intros Hc. unfold DurableWal.inspect.
  replace (count <? 0) with false by (symmetry; apply Z.ltb_ge; exact Hc).
  rewrite run_mbind. unfold DurabilityManager.read. rewrite run_read.
  destruct (_logs h !! walFileName this) as [wal|]; [|reflexivity].
  cbv zeta. cbn [res heap_of world_of trace].
  destruct ((env _ (readFile _) w).1) as [e|content]; [reflexivity|].
  rewrite map_decode_pure. reflexivity.
Qed.


End Window.

Section WindowWitnesses.

Import DurabilityManager.



End WindowWitnesses.

(* ================================================================== *)
(** ** One append is one line *)
(* ================================================================== *)

Section Lines.

Import DurabilityManager.

Lemma trimStart_nil (s : jsstr) : trimStart s = [] -> forallb is_white s = true.
Proof.
  induction s as [|c r IH]; cbn; [reflexivity|].
  destruct (is_white c); [exact IH | discriminate].
Qed.

Lemma trimStart_head (s : jsstr) (c : N) (r : jsstr) :
  trimStart s = c :: r -> is_white c = false.
Proof.
  induction s as [|d s IH]; cbn; [discriminate|].
  destruct (is_white d) eqn:Hd; [exact IH|]. intros [= <- _]. exact Hd.
Qed.

Lemma forallb_rev {A} (f : A -> bool) (l : list A) :
  forallb f (rev l) = forallb f l.
Proof.
  induction l as [|x l IH]; [reflexivity|].
  cbn. rewrite forallb_app, IH. cbn. rewrite andb_true_r. apply andb_comm.
Qed.

Lemma trim_nil (s : jsstr) : trim s = [] -> forallb is_white s = true.
Proof.
  unfold trim, trimEnd. intros H.
  assert (H1 : trimStart (rev (trimStart s)) = []).
  { destruct (trimStart (rev (trimStart s))); [reflexivity|].
    cbn in H. destruct (rev l); discriminate. }
  apply trimStart_nil in H1. rewrite forallb_rev in H1.
  destruct (trimStart s) as [|c r] eqn:Hs; [apply trimStart_nil; exact Hs|].
  apply trimStart_head in Hs. cbn in H1. rewrite Hs in H1. discriminate.
Qed.

Lemma nonblank_head (c : N) (r : jsstr) : is_white c = false -> nonblank (c :: r) = true.
Proof.
  intros Hc. unfold nonblank.
  destruct (trim (c :: r)) eqn:Ht; [|reflexivity].
  apply trim_nil in Ht. cbn in Ht. rewrite Hc in Ht. discriminate.
Qed.

Lemma split_LF_nonempty (s : jsstr) : split_LF s <> [].
Proof.
  destruct s as [|c r]; cbn; [discriminate|].
  destruct (c =? LF)%N; [discriminate|]. destruct (split_LF r); discriminate.
Qed.

Lemma split_LF_cut (a b : jsstr) :
  split_LF (a ++ LF :: b) = split_LF a ++ split_LF b.
Proof.
  induction a as [|c a IH]; [reflexivity|].
  cbn [app split_LF]. rewrite IH.
  destruct (c =? LF)%N; [reflexivity|].
  pose proof (split_LF_nonempty a) as Hne.
  destruct (split_LF a); [contradiction | reflexivity].
Qed.

Lemma split_LF_line (l : jsstr) : Forall (fun c => c <> LF) l -> split_LF l = [l].
Proof.
  induction 1 as [|c l Hc _ IH]; [reflexivity|].
  cbn [split_LF]. rewrite IH.
  destruct (c =? LF)%N eqn:E; [apply N.eqb_eq in E; contradiction | reflexivity].
Qed.

Lemma registry_content_end (old : jsstr) :
  registry_content old -> old = [] \/ exists body, old = body ++ [LF].
Proof.
  intros [|old' data _]; [left; reflexivity|].
  right. exists (old' ++ data). rewrite <- app_assoc. reflexivity.
Qed.

(** One appended line is one more record. *)
Lemma lines_of_append (old line : jsstr) :
  registry_content old ->
  Forall (fun c => c <> LF) line ->
  nonblank line = true ->
  lines_of (old ++ line ++ [LF]) = lines_of old ++ [line].
Proof.
  intros Hold Hline Hnb. unfold lines_of.
  assert (Htail : List.filter nonblank (split_LF (line ++ [LF])) = [line]).
  { change (line ++ [LF]) with (line ++ LF :: []).
    rewrite split_LF_cut, split_LF_line by exact Hline.
    cbn [app List.filter split_LF]. rewrite Hnb. reflexivity. }
  destruct (registry_content_end old Hold) as [-> | [body ->]].
  - cbn [app]. rewrite Htail. reflexivity.
  - rewrite <- app_assoc. change ([LF] ++ line ++ [LF]) with (LF :: (line ++ [LF])).
    rewrite (split_LF_cut body (line ++ [LF])).
    change (body ++ [LF]) with (body ++ LF :: []).
    rewrite (split_LF_cut body []), !List.filter_app, Htail.
    cbn [split_LF List.filter]. change (nonblank []) with false.
    cbn iota. rewrite app_nil_r. reflexivity.
Qed.

End Lines.

Section Stringify.

Import DurableWal.

Lemma no_LF_app (a b : jsstr) : no_LF a -> no_LF b -> no_LF (a ++ b).
Proof. intros; apply Forall_app; auto. Qed.

Lemma no_LF_lit (s : string) :
  forallb (fun c => negb (c =? LF)%N) (lit s) = true -> no_LF (lit s).
Proof.
  intros H. apply Forall_forall. intros c Hin.
  rewrite forallb_forall in H. specialize (H c).
  assert (Hin' : In c (lit s)) by (apply list_elem_of_In; exact Hin).
  specialize (H Hin'). intros ->. discriminate H.
Qed.

Lemma hex_digit_no_LF (n : N) : hex_digit n <> LF.
Proof. unfold hex_digit, LF. destruct (n <? 10)%N; lia. Qed.

Lemma quote_unit_no_LF (c : N) : no_LF (quote_unit c).
Proof.
  unfold quote_unit, no_LF.
  repeat match goal with
         | |- Forall _ (if (?x =? ?y)%N then _ else _) =>
             destruct (x =? y)%N eqn:?
         end;
    try (repeat constructor; unfold LF; lia).
  destruct ((c <? 32)%N || is_lead_surrogate c || is_trail_surrogate c).
  - unfold UnicodeEscape. repeat constructor;
      try apply hex_digit_no_LF; unfold LF; lia.
  - repeat constructor. unfold LF. apply N.eqb_neq. assumption.
Qed.

Lemma quote_units_no_LF (s : jsstr) : no_LF (quote_units s).
Proof.
  assert (H : forall n s, (length s <= n)%nat -> no_LF (quote_units s)).
  { clear s. induction n as [|n IH]; intros [|c r] Hlen; cbn [length] in Hlen;
      try (constructor; fail); try lia.
    cbn [quote_units].
    assert (Hr : no_LF (quote_units r)) by (apply IH; lia).
    destruct (is_lead_surrogate c) eqn:Hlead;
      [|apply no_LF_app; [apply quote_unit_no_LF | exact Hr]].
    destruct r as [|d r1]; [apply quote_unit_no_LF|].
    destruct (is_trail_surrogate d) eqn:Htrail;
      [|apply no_LF_app; [apply quote_unit_no_LF | exact Hr]].
    constructor.
    { unfold is_lead_surrogate in Hlead. unfold LF.
      apply andb_prop in Hlead as [H1 _]. apply N.leb_le in H1. lia. }
    constructor.
    { unfold is_trail_surrogate in Htrail. unfold LF.
      apply andb_prop in Htrail as [H1 _]. apply N.leb_le in H1. lia. }
    apply IH. cbn [length] in Hlen. lia. }
  apply (H (length s)). lia.
Qed.

Lemma QuoteJSONString_no_LF (s : jsstr) : no_LF (QuoteJSONString s).
Proof.
  unfold QuoteJSONString. apply no_LF_app; [repeat constructor; unfold LF; lia|].
  apply no_LF_app; [apply quote_units_no_LF | repeat constructor; unfold LF; lia].
Qed.

Lemma digits_no_LF (d : Decimal.uint) : no_LF (digits d).
Proof.
  induction d; cbn [digits]; constructor; try assumption; unfold LF; lia.
Qed.

Lemma Number_toString_no_LF (n : Z) : no_LF (Number_toString n).
Proof.
  destruct n; cbn [Number_toString].
  - repeat constructor. unfold LF; lia.
  - apply digits_no_LF.
  - constructor; [unfold LF; lia | apply digits_no_LF].
Qed.

Lemma JSON_stringify_no_LF (entry : WalEntry) : no_LF (JSON_stringify entry).
Proof.
  unfold JSON_stringify.
  repeat (apply no_LF_app;
          [first [ apply QuoteJSONString_no_LF | apply Number_toString_no_LF
                 | apply no_LF_lit; reflexivity ] |]).
  apply no_LF_lit. reflexivity.
Qed.

Lemma JSON_stringify_nonblank (entry : WalEntry) :
  DurabilityManager.nonblank (JSON_stringify entry) = true.
Proof. unfold JSON_stringify. apply nonblank_head. reflexivity. Qed.

End Stringify.

(* ================================================================== *)
(** ** [JSON.parse] after [JSON.stringify] *)
(* ================================================================== *)

Section QuoteRoundTrip.

Lemma hex_value_digit (n : N) : (n < 16)%N -> hex_value (hex_digit n) = Some n.
Proof.
  intros Hn. unfold hex_digit, hex_value.
  destruct (n <? 10)%N eqn:H10.
  - apply N.ltb_lt in H10.
    replace ((48 <=? 48 + n) && (48 + n <=? 57))%N with true
      by (symmetry; apply andb_true_intro; split; apply N.leb_le; lia).
    f_equal. lia.
  - apply N.ltb_ge in H10.
    replace ((48 <=? 87 + n) && (87 + n <=? 57))%N with false
      by (symmetry; apply andb_false_intro2; apply N.leb_gt; lia).
    replace ((65 <=? 87 + n) && (87 + n <=? 70))%N with false
      by (symmetry; apply andb_false_intro2; apply N.leb_gt; lia).
    replace ((97 <=? 87 + n) && (87 + n <=? 102))%N with true
      by (symmetry; apply andb_true_intro; split; apply N.leb_le; lia).
    f_equal. lia.
Qed.

Lemma hex4_escape (c : N) :
  (c < 65536)%N ->
  hex4 (hex_digit (c / 4096)) (hex_digit ((c / 256) mod 16))
       (hex_digit ((c / 16) mod 16)) (hex_digit (c mod 16)) = Some c.
Proof.
  intros Hc. unfold hex4.
  rewrite !hex_value_digit.
  - f_equal.
    pose proof (N.div_mod c 16 ltac:(lia)) as H1.
    pose proof (N.div_mod (c / 16) 16 ltac:(lia)) as H2.
    pose proof (N.div_mod (c / 256) 16 ltac:(lia)) as H3.
    assert (E1 : (c / 16 / 16 = c / 256)%N) by (rewrite N.Div0.div_div; reflexivity).
    assert (E2 : (c / 256 / 16 = c / 4096)%N) by (rewrite N.Div0.div_div; reflexivity).
    rewrite E1 in H2. rewrite E2 in H3.
    lia.
  - apply N.mod_lt. lia.
  - apply N.mod_lt. lia.
  - apply N.mod_lt. lia.
  - apply N.Div0.div_lt_upper_bound. lia.
Qed.

Lemma surrogate_bound (c : N) :
  ((c <? 32) || is_lead_surrogate c || is_trail_surrogate c)%N = true ->
  (c < 65536)%N.
Proof.
  unfold is_lead_surrogate, is_trail_surrogate. intros H.
  apply orb_prop in H as [H|H]; [apply orb_prop in H as [H|H]|].
  - apply N.ltb_lt in H. lia.
  - apply andb_prop in H as [_ H]. apply N.leb_le in H. lia.
  - apply andb_prop in H as [_ H]. apply N.leb_le in H. lia.
Qed.

(** Reading back one quoted code unit gives that code unit. *)
Lemma parse_quote_unit (c : N) (tail acc : jsstr) :
  parse_chars (quote_unit c ++ tail) acc = parse_chars tail (c :: acc).
Proof.
  unfold quote_unit.
  destruct (c =? 8)%N eqn:E8; [apply N.eqb_eq in E8; subst; reflexivity|].
  destruct (c =? 9)%N eqn:E9; [apply N.eqb_eq in E9; subst; reflexivity|].
  destruct (c =? 10)%N eqn:E10; [apply N.eqb_eq in E10; subst; reflexivity|].
  destruct (c =? 12)%N eqn:E12; [apply N.eqb_eq in E12; subst; reflexivity|].
  destruct (c =? 13)%N eqn:E13; [apply N.eqb_eq in E13; subst; reflexivity|].
  destruct (c =? 34)%N eqn:E34; [apply N.eqb_eq in E34; subst; reflexivity|].
  destruct (c =? 92)%N eqn:E92; [apply N.eqb_eq in E92; subst; reflexivity|].
  destruct ((c <? 32)%N || is_lead_surrogate c || is_trail_surrogate c) eqn:Esc.
  - apply surrogate_bound in Esc. unfold UnicodeEscape.
    cbn [app parse_chars N.eqb Pos.eqb].
    rewrite hex4_escape by exact Esc. reflexivity.
  - apply orb_false_elim in Esc as [Esc _]. apply orb_false_elim in Esc as [Esc _].
    cbn [app parse_chars]. rewrite E34, E92, Esc. reflexivity.
Qed.

Lemma raw_surrogate (c : N) :
  is_lead_surrogate c = true \/ is_trail_surrogate c = true ->
  (c =? 34)%N = false /\ (c =? 92)%N = false /\ (c <? 32)%N = false.
Proof.
  unfold is_lead_surrogate, is_trail_surrogate.
  intros [H|H]; apply andb_prop in H as [H _]; apply N.leb_le in H;
    repeat split; try (apply N.eqb_neq; lia); apply N.ltb_ge; lia.
Qed.

(** Reading back a quoted string, up to its closing quote, gives the
    string. *)
Lemma parse_chars_quote (s : jsstr) :
  forall acc tail,
    parse_chars (quote_units s ++ 34%N :: tail) acc = Some (rev acc ++ s, tail).
Proof.
  assert (H : forall n s, (length s <= n)%nat -> forall acc tail,
             parse_chars (quote_units s ++ 34%N :: tail) acc = Some (rev acc ++ s, tail)).
  { clear s. induction n as [|n IH]; intros [|c r] Hlen acc tail;
      cbn [length] in Hlen; try lia;
      try (cbn; rewrite app_nil_r; reflexivity).
    assert (Hunit : parse_chars ((quote_unit c ++ quote_units r) ++ 34%N :: tail) acc =
                    Some (rev acc ++ c :: r, tail)).
    { rewrite <- app_assoc, parse_quote_unit, IH by lia.
      cbn [rev]. rewrite <- app_assoc. reflexivity. }
    cbn [quote_units].
    destruct (is_lead_surrogate c) eqn:Hlead; [|exact Hunit].
    destruct r as [|d r1].
    - cbn [quote_units] in Hunit. rewrite app_nil_r in Hunit. exact Hunit.
    - destruct (is_trail_surrogate d) eqn:Htrail; [|exact Hunit].
      destruct (raw_surrogate c (or_introl Hlead)) as (C1 & C2 & C3).
      destruct (raw_surrogate d (or_intror Htrail)) as (D1 & D2 & D3).
      cbn [app parse_chars]. rewrite C1, C2, C3, D1, D2, D3.
      rewrite IH by (cbn [length] in Hlen; lia).
      cbn [rev]. rewrite <- !app_assoc. reflexivity. }
  intros acc tail. apply (H (length s)). lia.
Qed.

End QuoteRoundTrip.

Section NumberRoundTrip.

(** Where a number ends in what the code writes and reads: at the end of
    the text, or at a comma. *)
Local Notation stops tail := (tail = [] \/ exists t, tail = 44%N :: t).

Lemma take_digits_digits (d : Decimal.uint) (tail : jsstr) :
  stops tail ->
  take_digits (digits d ++ tail) = (map (fun c => c - 48)%N (digits d), tail).
Proof.
  intros Htail.
  induction d; cbn [digits app take_digits map];
    try (change (is_digit _) with true; cbn iota; rewrite IHd; reflexivity).
  destruct Htail as [-> | [t ->]]; reflexivity.
Qed.

Lemma digits_value_acc (d : Decimal.uint) :
  forall acc : positive,
    fold_left (fun a c => 10 * a + Z.of_N c) (map (fun c => c - 48)%N (digits d)) (Zpos acc) =
    Zpos (Pos.of_uint_acc d acc).
Proof.
  induction d; intros acc; cbn [digits map fold_left Pos.of_uint_acc];
    try reflexivity;
    match goal with
    | |- fold_left _ _ ?z = Z.pos (Pos.of_uint_acc _ ?p) =>
        replace z with (Zpos p) by lia; apply IHd
    end.
Qed.

Lemma digits_value_uint (d : Decimal.uint) :
  digits_value (map (fun c => c - 48)%N (digits d)) = Z.of_N (Pos.of_uint d).
Proof.
  unfold digits_value.
  induction d; cbn [digits map fold_left Pos.of_uint]; try reflexivity;
    try exact IHd;
    match goal with
    | |- fold_left _ _ ?z = Z.of_N (N.pos (Pos.of_uint_acc _ ?p)) =>
        change z with (Zpos p); apply digits_value_acc
    end.
Qed.

Lemma nzhead_not_zero (d d' : Decimal.uint) : Decimal.nzhead d <> Decimal.D0 d'.
Proof. induction d; cbn; try discriminate. exact IHd. Qed.

(** The decimal digits of a positive number start with a digit that is
    not zero. *)
Lemma to_uint_head (p : positive) :
  exists c ds, digits (Pos.to_uint p) = c :: ds /\ (49 <= c <= 57)%N.
Proof.
  assert (Hnorm : Decimal.unorm (Pos.to_uint p) = Pos.to_uint p).
  { rewrite <- (DecimalPos.Unsigned.to_of (Pos.to_uint p)).
    rewrite DecimalPos.Unsigned.of_to. reflexivity. }
  pose proof (DecimalPos.Unsigned.to_uint_nonzero p) as Hnz.
  pose proof (DecimalPos.Unsigned.to_uint_nonnil p) as Hnn.
  destruct (Pos.to_uint p) as [|d|d|d|d|d|d|d|d|d|d] eqn:E;
    try (eexists _, _; split; [reflexivity | lia]).
  - contradiction.
  - exfalso. unfold Decimal.unorm in Hnorm. cbn [Decimal.nzhead] in Hnorm.
    destruct (Decimal.nzhead d) as [|u|u|u|u|u|u|u|u|u|u] eqn:Hd; try discriminate.
    + apply Hnz. symmetry. exact Hnorm.
    + apply (nzhead_not_zero d u). exact Hd.
Qed.

Lemma parse_int_digits (p : positive) (tail : jsstr) :
  stops tail ->
  parse_int (digits (Pos.to_uint p) ++ tail) =
  Some (map (fun c => c - 48)%N (digits (Pos.to_uint p)), tail).
Proof.
  intros Htail. unfold parse_int. rewrite take_digits_digits by exact Htail.
  destruct (to_uint_head p) as (c & ds & -> & Hc).
  cbn [map]. destruct (c - 48)%N eqn:E; [lia | reflexivity].
Qed.

Lemma parse_digits_number (p : positive) (tail : jsstr) :
  stops tail ->
  parse_number (digits (Pos.to_uint p) ++ tail) = Some (inject_Z (Zpos p), tail).
Proof.
  intros Htail. unfold parse_number.
  destruct (to_uint_head p) as (c & ds & E & Hc).
  assert (Hfirst : match digits (Pos.to_uint p) ++ tail with
                   | 45%N :: r => (true, r)
                   | _ => (false, digits (Pos.to_uint p) ++ tail)
                   end = (false, digits (Pos.to_uint p) ++ tail)).
  { rewrite E. cbn [app]. destruct c as [|q]; [lia|].
    do 6 (destruct q as [q|q|]; try reflexivity). lia. }
  rewrite Hfirst. rewrite parse_int_digits by exact Htail.
  assert (Hrest : parse_frac tail = Some ([], tail) /\ parse_exp tail = Some (0, tail))
    by (destruct Htail as [-> | [t ->]]; split; reflexivity).
  destruct Hrest as [-> ->]. cbn [length Z.of_nat].
  rewrite app_nil_r, digits_value_uint, DecimalPos.Unsigned.of_to.
  do 2 f_equal. unfold Qmult, inject_Z. simpl. rewrite ?Pos.mul_1_r, ?Z.mul_1_r. reflexivity.
Qed.

(** Reading back a printed integer, followed by a comma, gives the
    integer. *)
Lemma parse_number_toString (n : Z) (tail : jsstr) :
  stops tail ->
  parse_number (Number_toString n ++ tail) = Some (inject_Z n, tail).
Proof.
  intros Htail.
  destruct n as [|p|p]; cbn [Number_toString].
  - destruct Htail as [-> | [t ->]]; reflexivity.
  - apply parse_digits_number. exact Htail.
  - pose proof (parse_digits_number p tail Htail) as H.
    unfold parse_number in *. cbn [app].
    destruct (to_uint_head p) as (c & ds & E & Hc).
    assert (Hfirst : match digits (Pos.to_uint p) ++ tail with
                     | 45%N :: r => (true, r)
                     | _ => (false, digits (Pos.to_uint p) ++ tail)
                     end = (false, digits (Pos.to_uint p) ++ tail)).
    { rewrite E. cbn [app]. destruct c as [|q]; [lia|].
      do 6 (destruct q as [q|q|]; try reflexivity). lia. }
    rewrite Hfirst in H.
    destruct (parse_int (digits (Pos.to_uint p) ++ tail)) as [[ip s2]|];
      [|discriminate].
    destruct (parse_frac s2) as [[fp s3]|]; [|discriminate].
    destruct (parse_exp s3) as [[e s4]|]; [|discriminate].
    apply (f_equal (fun o : option (Q * jsstr) =>
                      match o with
                      | Some (q, s) => Some (Qopp q, s)
                      | None => None
                      end)) in H.
    exact H.
Qed.

End NumberRoundTrip.

Section EnvelopeRoundTrip.

Import DurableWal.

Lemma quote_then (s tail : jsstr) :
  QuoteJSONString s ++ tail = 34%N :: (quote_units s ++ 34%N :: tail).
Proof. unfold QuoteJSONString. cbn [app]. rewrite <- app_assoc. reflexivity. Qed.

Lemma parse_value_string (f : nat) (s tail : jsstr) :
  parse_value (S f) (QuoteJSONString s ++ tail) = Some (JStr s, tail).
Proof.
  rewrite quote_then. cbn [parse_value skip_ws is_json_ws N.eqb Pos.eqb orb].
  rewrite parse_chars_quote. reflexivity.
Qed.

Lemma Number_toString_head (n : Z) :
  exists c r, Number_toString n = c :: r /\ (c = 45 \/ 48 <= c <= 57)%N.
Proof.
  destruct n as [|p|p]; cbn [Number_toString].
  - exists 48%N, []. split; [reflexivity | lia].
  - destruct (to_uint_head p) as (c & ds & -> & Hc). exists c, ds. split; [reflexivity | lia].
  - eexists _, _. split; [reflexivity | lia].
Qed.

Lemma parse_value_number (f : nat) (n : Z) (tail : jsstr) :
  tail = [] \/ (exists t, tail = 44%N :: t) ->
  parse_value (S f) (Number_toString n ++ tail) = Some (JNum (inject_Z n), tail).
Proof.
  intros Htail.
  pose proof (parse_number_toString n tail Htail) as Hnum.
  destruct (Number_toString_head n) as (c & r & E & Hc).
  rewrite E in *. cbn [app] in *.
  assert (W : is_json_ws c = false).
  { unfold is_json_ws.
    replace (c =? 32)%N with false by (symmetry; apply N.eqb_neq; lia).
    replace (c =? 9)%N with false by (symmetry; apply N.eqb_neq; lia).
    replace (c =? 10)%N with false by (symmetry; apply N.eqb_neq; lia).
    replace (c =? 13)%N with false by (symmetry; apply N.eqb_neq; lia).
    reflexivity. }
  cbn [parse_value skip_ws]. rewrite W.
  replace (c =? 123)%N with false by (symmetry; apply N.eqb_neq; lia).
  replace (c =? 91)%N with false by (symmetry; apply N.eqb_neq; lia).
  replace (c =? 34)%N with false by (symmetry; apply N.eqb_neq; lia).
  change (lit "true") with [116; 114; 117; 101]%N.
  change (lit "false") with [102; 97; 108; 115; 101]%N.
  change (lit "null") with [110; 117; 108; 108]%N.
  cbn [strip_prefix].
  replace (116 =? c)%N with false by (symmetry; apply N.eqb_neq; lia).
  replace (102 =? c)%N with false by (symmetry; apply N.eqb_neq; lia).
  replace (110 =? c)%N with false by (symmetry; apply N.eqb_neq; lia).
  rewrite Hnum. reflexivity.
Qed.

Lemma parse_value_object (f : nat) (key tail : jsstr) :
  parse_value (S f) (123%N :: QuoteJSONString key ++ tail) =
  parse_members f (QuoteJSONString key ++ tail) [].
Proof.
  rewrite quote_then.
  cbn [parse_value skip_ws is_json_ws N.eqb Pos.eqb orb]. reflexivity.
Qed.

Lemma parse_members_step (f : nat) (key s : jsstr) (acc : list (jsstr * jsval)) :
  parse_members (S f) (QuoteJSONString key ++ 58%N :: s) acc =
  match parse_value f s with
  | None => None
  | Some (v, r3) =>
      match skip_ws r3 with
      | 44%N :: r4 => parse_members f r4 ((key, v) :: acc)
      | 125%N :: r4 => Some (JObj (rev ((key, v) :: acc)), r4)
      | _ => None
      end
  end.
Proof.
  rewrite quote_then.
  cbn [parse_members skip_ws is_json_ws N.eqb Pos.eqb orb].
  rewrite parse_chars_quote.
  cbn [rev app skip_ws is_json_ws N.eqb Pos.eqb orb]. reflexivity.
Qed.

(** What [append] writes, [JSON.parse] reads back: the three members,
    in order, with the values they had. *)
Lemma parse_stringify (entry : WalEntry) :
  JSON.parse (JSON_stringify entry) =
  Some (JObj [(lit "id", JStr (id entry));
              (lit "timestamp", JNum (inject_Z (timestamp entry)));
              (lit "data", JStr (data entry))]).
Proof.
  unfold JSON.parse.
  assert (Hfuel : exists f, (2 * length (JSON_stringify entry) + 2 = 5 + f)%nat).
  { exists (2 * length (JSON_stringify entry) + 2 - 5)%nat.
    unfold JSON_stringify. rewrite !length_app. cbn [length lit list_ascii_of_string map]. lia. }
  destruct Hfuel as [f ->].
  unfold JSON_stringify.
  change (lit "{") with [123%N]. change (lit ":") with [58%N].
  change (lit ",") with [44%N]. change (lit "}") with [125%N].
  cbn [Nat.add app].
  rewrite parse_value_object.
  rewrite parse_members_step, parse_value_string.
  cbn [skip_ws is_json_ws N.eqb Pos.eqb orb].
  rewrite parse_members_step, parse_value_number by (right; eexists; reflexivity).
  cbn [skip_ws is_json_ws N.eqb Pos.eqb orb].
  rewrite parse_members_step, parse_value_string.
  reflexivity.
Qed.

(** A line that is a printed integer parses, as a number. *)
Lemma parse_number_line (n : Z) :
  JSON.parse (Number_toString n) = Some (JNum (inject_Z n)).
Proof.
  unfold JSON.parse.
  pose proof (parse_value_number (2 * length (Number_toString n) + 1) n [] (or_introl eq_refl))
    as H.
  rewrite app_nil_r in H.
  replace (2 * length (Number_toString n) + 2)%nat
    with (S (2 * length (Number_toString n) + 1)) by lia.
  rewrite H. reflexivity.
Qed.

Lemma payload_of_stringify (entry : WalEntry) :
  payload_of (JSON_stringify entry) = JStr (data entry).
Proof. unfold payload_of. rewrite parse_stringify. reflexivity. Qed.

End EnvelopeRoundTrip.

Section Encoding.

Import DurableWal.

Local Notation plain s :=
  (Forall (fun c => is_lead_surrogate c = false /\ is_trail_surrogate c = false) s).

Lemma utf8_plain_app (a b : jsstr) : plain a -> utf8 (a ++ b) = a ++ utf8 b.
Proof.
  induction 1 as [|c a [Hl Ht] _ IH]; [reflexivity|].
  cbn [app utf8]. rewrite Hl, Ht, IH. reflexivity.
Qed.

(** Text without surrogates is written as it is. *)
Lemma utf8_plain (s : jsstr) : plain s -> utf8 s = s.
Proof.
  intros H. rewrite <- (app_nil_r s) at 1. rewrite utf8_plain_app by exact H.
  cbn. apply app_nil_r.
Qed.

(** A line feed after the data is written where it is. *)
Lemma utf8_line (data : jsstr) : utf8 (data ++ [LF]) = utf8 data ++ [LF].
Proof.
  assert (H : forall n s, (length s <= n)%nat -> utf8 (s ++ [LF]) = utf8 s ++ [LF]).
  { induction n as [|n IH]; intros [|c r] Hlen; cbn [length] in Hlen;
      try reflexivity; try lia.
    cbn [app utf8].
    assert (Hr : utf8 (r ++ [LF]) = utf8 r ++ [LF]) by (apply IH; lia).
    destruct (is_lead_surrogate c).
    - destruct r as [|d r1]; [reflexivity|]. cbn [app].
      destruct (is_trail_surrogate d).
      + rewrite IH by (cbn [length] in Hlen; lia). reflexivity.
      + cbn [app] in Hr. rewrite Hr. reflexivity.
    - destruct (is_trail_surrogate c); rewrite Hr; reflexivity. }
  apply (H (length data)). lia.
Qed.

Lemma plain_lit (s : string) :
  forallb (fun c => negb (is_lead_surrogate c) && negb (is_trail_surrogate c)) (lit s) = true ->
  plain (lit s).
Proof.
  intros H. apply Forall_forall. intros c Hin.
  rewrite forallb_forall in H. specialize (H c).
  assert (Hin' : In c (lit s)) by (apply list_elem_of_In; exact Hin).
  specialize (H Hin').
  destruct (is_lead_surrogate c), (is_trail_surrogate c); cbn in H; auto; discriminate.
Qed.

Lemma plain_small (c : N) :
  (c < 55296)%N -> is_lead_surrogate c = false /\ is_trail_surrogate c = false.
Proof.
  intros Hc. unfold is_lead_surrogate, is_trail_surrogate. split.
  - apply andb_false_iff. left. apply N.leb_gt. lia.
  - apply andb_false_iff. left. apply N.leb_gt. lia.
Qed.

Lemma hex_digit_small (n : N) : (n < 16)%N -> (hex_digit n < 55296)%N.
Proof. intros Hn. unfold hex_digit. destruct (n <? 10)%N; lia. Qed.

Lemma plain_quote_unit (c : N) : plain (quote_unit c).
Proof.
  unfold quote_unit.
  repeat match goal with
         | |- Forall _ (if (?x =? ?y)%N then _ else _) => destruct (x =? y)%N
         end;
    try (repeat constructor; apply plain_small; lia).
  destruct ((c <? 32)%N || is_lead_surrogate c || is_trail_surrogate c) eqn:E.
  - assert (Hc : (c < 65536)%N).
    { apply orb_prop in E as [E|E]; [apply orb_prop in E as [E|E]|].
      - apply N.ltb_lt in E. lia.
      - unfold is_lead_surrogate in E. apply andb_prop in E as [_ E].
        apply N.leb_le in E. lia.
      - unfold is_trail_surrogate in E. apply andb_prop in E as [_ E].
        apply N.leb_le in E. lia. }
    unfold UnicodeEscape.
    repeat constructor; apply plain_small;
      first [ lia
            | apply hex_digit_small;
              first [ apply N.mod_lt; lia
                    | apply N.Div0.div_lt_upper_bound; lia ] ].
  - apply orb_false_elim in E as [E Ht]. apply orb_false_elim in E as [_ Hl].
    repeat constructor; assumption.
Qed.

(** What [JSON.stringify] makes of a string is written as it is: it
    keeps the surrogate pairs and escapes the lone surrogates. *)
Lemma utf8_quote_units (s tail : jsstr) :
  utf8 (quote_units s ++ tail) = quote_units s ++ utf8 tail.
Proof.
  assert (H : forall n s, (length s <= n)%nat ->
                          utf8 (quote_units s ++ tail) = quote_units s ++ utf8 tail).
  { clear s. induction n as [|n IH]; intros [|c r] Hlen; cbn [length] in Hlen;
      try reflexivity; try lia.
    cbn [quote_units].
    assert (Hr : utf8 (quote_units r ++ tail) = quote_units r ++ utf8 tail)
      by (apply IH; lia).
    assert (Hplain : utf8 ((quote_unit c ++ quote_units r) ++ tail) =
                     (quote_unit c ++ quote_units r) ++ utf8 tail).
    { rewrite <- !app_assoc, utf8_plain_app by apply plain_quote_unit.
      rewrite Hr. reflexivity. }
    destruct (is_lead_surrogate c) eqn:Hlead; [|exact Hplain].
    destruct r as [|d r1].
    { apply utf8_plain_app, plain_quote_unit. }
    destruct (is_trail_surrogate d) eqn:Htrail; [|exact Hplain].
    cbn [app utf8]. rewrite Hlead, Htrail.
    rewrite IH by (cbn [length] in Hlen; lia). reflexivity. }
  apply (H (length s)). lia.
Qed.

Lemma utf8_QuoteJSONString (s tail : jsstr) :
  utf8 (QuoteJSONString s ++ tail) = QuoteJSONString s ++ utf8 tail.
Proof.
  unfold QuoteJSONString. rewrite <- !app_assoc.
  rewrite utf8_plain_app by (repeat constructor; apply plain_small; lia).
  rewrite utf8_quote_units.
  rewrite utf8_plain_app by (repeat constructor; apply plain_small; lia).
  reflexivity.
Qed.

Lemma plain_digits (d : Decimal.uint) : plain (digits d).
Proof. induction d; cbn [digits]; constructor; try assumption; apply plain_small; lia. Qed.

Lemma plain_Number_toString (n : Z) : plain (Number_toString n).
Proof.
  destruct n; cbn [Number_toString].
  - repeat constructor; apply plain_small; lia.
  - apply plain_digits.
  - constructor; [apply plain_small; lia | apply plain_digits].
Qed.

(** The line of an envelope reaches the file as it is. *)
Lemma utf8_JSON_line (entry : WalEntry) :
  utf8 (JSON_stringify entry ++ [LF]) = JSON_stringify entry ++ [LF].
Proof.
  unfold JSON_stringify. rewrite <- !app_assoc.
  repeat first
    [ rewrite utf8_QuoteJSONString
    | rewrite utf8_plain_app by (apply plain_lit; reflexivity)
    | rewrite utf8_plain_app by apply plain_Number_toString ].
  reflexivity.
Qed.

End Encoding.

Section AppendClaim.

Import DurabilityManager DurableWal.

Context (this : DurabilityManager).

Lemma run_getEntryCount {W} (env : environment W) h w wal content :
  _logs h !! walFileName this = Some wal ->
  (env _ (readFile (WALManager.path_join (walManager this) (WAL.fileName wal))) w).1
    = inr content ->
  res (run env (getEntryCount this) h w) = inr (Z.of_nat (length (lines_of content))).
Proof.
  intros Hlog Hread. unfold getEntryCount, getEventCount.
  rewrite run_mbind, run_read, Hlog. cbv zeta. cbn [res]. rewrite Hread.
  reflexivity.
Qed.

Lemma run_platform_append content h w wal old :
  content <> [] -> trim content <> [] ->
  _logs h !! walFileName this = Some wal ->
  files w !! WALManager.path_join (walManager this) (WAL.fileName wal) = Some old ->
  disk_full w = false ->
  let entry := {| id := lit "uuid-" ++ Number_toString (Z.of_nat (uuids w));
                  timestamp := clock w; data := content |} in
  let o := run platform (DurableWal.append this content) h w in
  res o = inr (id entry) /\
  heap_of o = h /\
  files (world_of o) =
    <[WALManager.path_join (walManager this) (WAL.fileName wal) :=
        old ++ JSON_stringify entry ++ [LF]]> (files w) /\
  requests (trace o) =
    [existT _ randomUUID; existT _ Date_now;
     existT _ (appendFile (WALManager.path_join (walManager this) (WAL.fileName wal))
                          (JSON_stringify entry ++ [LF]))].
Proof.
  intros Hne Htrim Hlog Hfile Hdisk entry o. subst o.
  unfold DurableWal.append.
  destruct content as [|c content']; [contradiction|].
  destruct (trim (c :: content')) as [|t ts] eqn:Ht; [contradiction|].
  cbn [length Nat.eqb orb].
  rewrite run_mbind, run_ask. cbn [res heap_of world_of trace prepend platform fst snd].
  rewrite run_mbind, run_ask. cbn [res heap_of world_of trace prepend platform fst snd].
  rewrite run_mbind. unfold DurabilityManager.append, WALManager.append.
  cbn [run]. rewrite Hlog. rewrite run_await.
  cbn [res heap_of world_of trace prepend platform fst snd].
  cbn [disk_full tick next_uuid files]. rewrite Hdisk, Hfile.
  cbn [fst snd res heap_of world_of trace prepend app run mret prog_ret files with_files
       option.default id requests map].
  rewrite utf8_JSON_line. auto.
Qed.


Lemma platform_read (w : world) (path content : jsstr) :
  files w !! path = Some content -> (platform _ (readFile path) w).1 = inr content.
Proof. intros H. cbn [platform fst]. rewrite H. reflexivity. Qed.

Lemma window_of_appended (old_lines sers : list jsstr) :
  eventsToReplay (Z.of_nat (length sers)) (old_lines ++ sers) = sers.
Proof.
  rewrite eventsToReplay_window. unfold window.
  destruct sers as [|s ss]; [reflexivity|].
  replace (Z.of_nat (length (s :: ss)) <=? 0) with false
    by (symmetry; apply Z.leb_gt; cbn [length]; lia).
  rewrite Nat2Z.id, length_app.
  replace (length old_lines + length (s :: ss)
           - Nat.min (length (s :: ss)) (length old_lines + length (s :: ss)))%nat
    with (length old_lines) by lia.
  apply drop_app_length.
Qed.



End AppendClaim.

Section AppendWitness.

Import DurabilityManager DurableWal.

Lemma three_events_content : registry_content three_events.
Proof.
  change (registry_content
            ((([] ++ lit "event1" ++ [LF]) ++ lit "event2" ++ [LF]) ++ lit "event3" ++ [LF])).
  repeat constructor.
Qed.



End AppendWitness.

(* ================================================================== *)
(** ** The wrapper around the caller's processor *)
(* ================================================================== *)

Section Wrapper.

(** What holds of the wrapper: a line that does not parse goes to the
    processor unchanged, once, and the outcome is the processor's. *)
Lemma wrappedProcessor_legacy {W} (env : environment W) (line : jsstr) h w :
  JSON.parse line = None ->
  run env (DurableWal.wrappedProcessor caller line) h w =
  run env (caller (JStr line)) h w.
Proof.
  intros Hparse. unfold DurableWal.wrappedProcessor, DurableWal.JSON_parse.
  rewrite Hparse. reflexivity.
Qed.

(** And a line that parses to an object goes to the processor as its
    [data], once, when the processor resolves on it. *)
Lemma wrappedProcessor_envelope {W} (env : environment W) (line : jsstr) members h w :
  JSON.parse line = Some (JObj members) ->
  (env _ (call_processor (member (lit "data") members)) w).1 = inr tt ->
  res (run env (DurableWal.wrappedProcessor caller line) h w) = inr tt /\
  payloads (trace (run env (DurableWal.wrappedProcessor caller line) h w)) =
  [member (lit "data") members].
Proof.
  intros Hparse Hok. unfold DurableWal.wrappedProcessor, DurableWal.JSON_parse.
  rewrite Hparse. cbn [mbind prog_bind bind DurableWal.dot_data get_data].
  rewrite run_try_catch. unfold caller. rewrite !run_await.
  cbn [res heap_of world_of trace]. rewrite Hok. split; reflexivity.
Qed.

(** C1, where the code departs from it.  The [try] of [wrappedProcessor]
    encloses the call of the processor as well as the decoding, so a
    rejection by the processor is caught by the fallback meant for lines
    that do not parse.  On a log holding one envelope with [data = x],
    and a processor that rejects [x] and nothing else: the processor is
    invoked on [x], then again on the raw line; the wrapped processor
    resolves; [replay] succeeds without a single retry or sleep.  With a
    processor that rejects everything, each of the four attempts invokes
    it twice. *)
Theorem C1_wrapper_absorbs_processor_error :
  let line := envelope_x in
  let once := run platform (DurableWal.wrappedProcessor caller line) registered fussy in
  let whole := run platform (DurableWal.replay test_manager 1 (Some caller))
                   registered fussy in
  let never := run hostile (DurableWal.replay test_manager 1 (Some caller))
                   registered (disk (unlines [line])) in
  payload_of line = JStr (lit "x") /\
  (platform _ (call_processor (JStr (lit "x"))) fussy).1 =
    inl (Error (lit "Simulated failure")) /\
  res once = inr tt /\
  payloads (trace once) = [JStr (lit "x"); JStr line] /\
  res whole = inr tt /\
  payloads (trace whole) = [JStr (lit "x"); JStr line] /\
  sleeps (trace whole) = [] /\
  payloads (trace never) =
    [JStr (lit "x"); JStr line; JStr (lit "x"); JStr line;
     JStr (lit "x"); JStr line; JStr (lit "x"); JStr line] /\
  sleeps (trace never) = [100%float; 200%float; 400%float].
Proof.
  cbv zeta. repeat split; vm_compute; reflexivity.
Qed.

End Wrapper.

(* ================================================================== *)
(** ** Strings *)
(* ================================================================== *)

Section StringLaws.

Lemma trimStart_white (s : jsstr) :
  forallb is_white s = true -> trimStart s = [].
Proof.
  induction s as [|c r IH]; simpl; [reflexivity|].
  intros H. apply andb_prop in H as [Hc Hr]. rewrite Hc. auto.
Qed.

Lemma trim_white (s : jsstr) : forallb is_white s = true -> trim s = [].
Proof. intros H. unfold trim. rewrite trimStart_white by exact H. reflexivity. Qed.

End StringLaws.

(* ================================================================== *)
(** ** The builder of log handles *)
(* ================================================================== *)

(** C8.  The builder rejects only a missing or an empty name.  Every
    non-empty string [s], also one made of white space only, builds a
    handle whose [fileName] is [s]; the same white-space-only string is
    refused by [append] as content. *)
Theorem C8_builder_accepts_every_nonempty_name
    (s : jsstr) (durableManager : DurabilityManager.DurabilityManager) (h : heap) :
  s <> [] ->
  WAL.build (WAL.file s WAL.builder) = inr (WAL.mkWAL s) /\
  WAL.fileName (WAL.mkWAL s) = s /\
  (forall this,
      (exists e, WAL.build this = inl e) <->
      WAL.builder_fileName this = None \/ WAL.builder_fileName this = Some []) /\
  (forallb is_white s = true ->
   start (DurableWal.append durableManager s) h =
   (h, Finished (inl (Error (lit "Cannot append empty content"))))).
Proof.
  intros Hs. repeat split.
  - destruct s; [congruence | reflexivity].
  - intros [e He]. destruct this as [[[|c r]|]]; cbn in He; auto; discriminate.
  - intros [H|H]; destruct this as [f]; cbn in H; subst; eexists; reflexivity.
  - intros Hw. unfold DurableWal.append.
    rewrite trim_white by exact Hw. cbn [length Nat.eqb orb].
    rewrite orb_true_r. reflexivity.
Qed.

Lemma C8_whitespace_name_witness :
  lit "   " <> [] /\
  forallb is_white (lit "   ") = true /\
  WAL.build (WAL.file (lit "   ") WAL.builder) = inr (WAL.mkWAL (lit "   ")) /\
  start (DurableWal.append test_manager (lit "   ")) fresh =
  (fresh, Finished (inl (Error (lit "Cannot append empty content")))).
Proof.
  assert (Hne : lit "   " <> []) by (vm_compute; discriminate).
  destruct (C8_builder_accepts_every_nonempty_name (lit "   ") test_manager fresh Hne)
    as (Hbuild & _ & _ & Happend).
  split; [exact Hne|]. split; [reflexivity|]. split; [exact Hbuild|].
  apply Happend. reflexivity.
Defined.

(* ================================================================== *)
(** ** Further properties: handles and the registry *)
(* ================================================================== *)

Section HandleProperties.

(** X1.  Handles come from the builder only.  The constructor refuses
    every key other than the builder's own; [build] either fails with
    "fileName is required", when no name or the empty name was given, or
    returns a handle carrying exactly the name given last, which is then
    not empty. *)
Theorem X1_handles_only_through_builder :
  (forall i name,
      WAL.constructor (WAL.other_symbol i) name =
      inl (Error (lit "WAL cannot be constructed directly. Use WAL.builder() instead."))) /\
  (forall this,
      match WAL.build this with
      | inr wal => WAL.builder_fileName this = Some (WAL.fileName wal) /\
                   WAL.fileName wal <> []
      | inl e => e = Error (lit "fileName is required") /\
                 (WAL.builder_fileName this = None \/ WAL.builder_fileName this = Some [])
      end) /\
  (forall s1 s2 this,
      WAL.build (WAL.file s2 (WAL.file s1 this)) = WAL.build (WAL.file s2 WAL.builder)).
Proof.
  split; [reflexivity|]. split; [|reflexivity].
  intros [[[|c r]|]]; cbn; auto.
Qed.

Lemma X1_builder_witness :
  WAL.constructor (WAL.other_symbol 0) (lit "name") =
    inl (Error (lit "WAL cannot be constructed directly. Use WAL.builder() instead.")) /\
  WAL.build (WAL.file (lit "b") (WAL.file (lit "a") WAL.builder)) = inr (WAL.mkWAL (lit "b")) /\
  WAL.fileName (WAL.mkWAL (lit "b")) <> [].
Proof.
  destruct X1_handles_only_through_builder as (Hctor & Hbuild & Hlast).
  split; [apply Hctor|]. split; [rewrite Hlast; reflexivity|].
  specialize (Hbuild (WAL.file (lit "b") WAL.builder)). cbn in Hbuild.
  apply Hbuild.
Defined.

End HandleProperties.

Section RegistryProperties.

Context (baseDir : jsstr).

Local Notation path_of wal := (WALManager.path_join baseDir (WAL.fileName wal)).

(** X2.  An operation on a name that is not registered fails with
    NotRegistered at once: it asks nothing of the file system and changes
    nothing. *)
Theorem X2_unregistered_name_fails_fast
    {W} (env : environment W) (name data : jsstr) (h : heap) (w : W) :
  _logs h !! name = None ->
  run env (WALManager.append baseDir name data) h w =
    mkOutcome (inl (WALManager.NotRegistered name)) h w [] /\
  run env (WALManager.read baseDir name) h w =
    mkOutcome (inl (WALManager.NotRegistered name)) h w [] /\
  run env (WALManager.truncate baseDir name) h w =
    mkOutcome (inl (WALManager.NotRegistered name)) h w [] /\
  start (WALManager.append baseDir name data) h =
    (h, Finished (inl (WALManager.NotRegistered name))).
Proof.
  intros Hnone.
  unfold WALManager.append, WALManager.read, WALManager.truncate.
  cbn [run start]. rewrite Hnone. auto.
Qed.


Lemma run_platform_write name wal data h w :
  _logs h !! name = Some wal ->
  disk_full w = false ->
  run platform (WALManager.append baseDir name data) h w =
  mkOutcome (inr tt) h
    (with_files (<[path_of wal := default [] (files w !! path_of wal) ++ utf8 data ++ [LF]]>
                   (files w)) w)
    [Ev h (appendFile (path_of wal) (data ++ [LF])) (inr tt)].
Proof.
  intros Hlog Hdisk. unfold WALManager.append. cbn [run]. rewrite Hlog.
  rewrite run_await. cbn [platform fst snd]. rewrite Hdisk, utf8_line. reflexivity.
Qed.

Lemma run_platform_write_all name wal datas :
  forall h w,
    _logs h !! name = Some wal ->
    disk_full w = false ->
    let o := run platform (write_all baseDir name datas) h w in
    res o = inr tt /\ heap_of o = h /\ disk_full (world_of o) = false /\
    files (world_of o) =
      match datas with
      | [] => files w
      | _ :: _ =>
          <[path_of wal := default [] (files w !! path_of wal) ++ unlines (map utf8 datas)]>
            (files w)
      end.
Proof.
  induction datas as [|data rest IH]; intros h w Hlog Hdisk; cbv zeta.
  - cbn. auto.
  - unfold write_all. cbn [for_of]. rewrite run_bind.
    rewrite (run_platform_write name wal data h w Hlog Hdisk).
    cbn [res heap_of world_of trace prepend].
    fold (write_all baseDir name rest).
    destruct (IH h (with_files (<[path_of wal := default [] (files w !! path_of wal) ++
                                                 utf8 data ++ [LF]]> (files w)) w) Hlog Hdisk)
      as (Hres & Hheap & Hfull & Hfiles).
    rewrite Hres, Hheap, Hfull, Hfiles. cbn [files with_files].
    split; [reflexivity|]. split; [reflexivity|]. split; [reflexivity|].
    destruct rest as [|d rest'].
    + unfold unlines. cbn [map concat]. rewrite app_nil_r. reflexivity.
    + rewrite lookup_insert_eq. cbn [default from_option id]. rewrite insert_insert_eq.
      f_equal. unfold unlines. cbn [map concat]. rewrite <- !app_assoc. reflexivity.
Qed.

Lemma run_platform_read name wal h w :
  _logs h !! name = Some wal ->
  run platform (WALManager.read baseDir name) h w =
  mkOutcome (match files w !! path_of wal with
             | Some c => inr c
             | None => inl ENOENT
             end) h w
    [Ev h (readFile (path_of wal))
        (match files w !! path_of wal with
         | Some c => inr c
         | None => inl ENOENT
         end)].
Proof.
  intros Hlog. rewrite run_read, Hlog. reflexivity.
Qed.

(** X3.  Read after write, in order.  On a disk that takes the writes,
    appending one or more pieces of data to a registered name and then
    reading it returns what the file held before (nothing, if there was
    no file) followed by the pieces in the order they were appended,
    each as the [utf-8] encoding keeps it (an unpaired surrogate comes
    back as U+FFFD, everything else unchanged) and each with its line
    feed; no other file changes and the registry is as it was. *)
Theorem X3_read_after_appends
    (name : jsstr) (wal : WAL.WAL) (data : jsstr) (datas : list jsstr)
    (h : heap) (w : world) :
  _logs h !! name = Some wal ->
  disk_full w = false ->
  let o := run platform (write_all baseDir name (data :: datas) ;;
                         WALManager.read baseDir name) h w in
  res o = inr (default [] (files w !! path_of wal) ++ unlines (map utf8 (data :: datas))) /\
  heap_of o = h /\
  (forall p, p <> path_of wal -> files (world_of o) !! p = files w !! p).
Proof.
  intros Hlog Hdisk o. subst o. rewrite run_mbind.
  destruct (run_platform_write_all name wal (data :: datas) h w Hlog Hdisk)
    as (Hres & Hheap & Hfull & Hfiles).
  rewrite Hres. cbn [prepend res heap_of world_of].
  rewrite Hheap, (run_platform_read name wal) by exact Hlog.
  cbn [res heap_of world_of]. rewrite Hfiles, lookup_insert_eq.
  split; [reflexivity|]. split; [reflexivity|].
  intros p Hp. apply lookup_insert_ne. congruence.
Qed.



Lemma run_platform_truncate name wal h w :
  _logs h !! name = Some wal ->
  disk_full w = false ->
  run platform (WALManager.truncate baseDir name) h w =
  mkOutcome (inr tt) h (with_files (<[path_of wal := []]> (files w)) w)
    [Ev h (writeFile (path_of wal) []) (inr tt)].
Proof.
  intros Hlog Hdisk. unfold WALManager.truncate. cbn [run]. rewrite Hlog.
  rewrite run_await. cbn [platform fst snd]. rewrite Hdisk. reflexivity.
Qed.

(** X4.  Truncation empties the file and nothing else.  On a disk that
    takes the writes, after [truncate] of a registered name a [read]
    returns the empty string whatever the file held, the name is still
    registered, and data appended next is all the file holds (as the
    [utf-8] encoding keeps it, with its line feed). *)
Theorem X4_truncate_then_read
    (name : jsstr) (wal : WAL.WAL) (data : jsstr) (h : heap) (w : world) :
  _logs h !! name = Some wal ->
  disk_full w = false ->
  let emptied := run platform (WALManager.truncate baseDir name ;;
                               WALManager.read baseDir name) h w in
  let refilled := run platform (WALManager.truncate baseDir name ;;
                                WALManager.append baseDir name data ;;
                                WALManager.read baseDir name) h w in
  res emptied = inr [] /\
  heap_of emptied = h /\
  (forall p, p <> path_of wal -> files (world_of emptied) !! p = files w !! p) /\
  res refilled = inr (utf8 data ++ [LF]).
Proof.
  intros Hlog Hdisk emptied refilled. subst emptied refilled.
  rewrite !run_mbind.
  rewrite (run_platform_truncate name wal h w Hlog Hdisk).
  cbn [res heap_of world_of trace prepend].
  rewrite (run_platform_read name wal) by exact Hlog.
  cbn [res heap_of world_of trace files with_files]. rewrite lookup_insert_eq.
  split; [reflexivity|]. split; [reflexivity|]. split.
  - intros p Hp. apply lookup_insert_ne. congruence.
  - rewrite (run_platform_write name wal data) by (auto).
    cbn [res heap_of world_of trace prepend].
    rewrite (run_platform_read name wal) by exact Hlog.
    cbn [res files with_files]. rewrite !lookup_insert_eq. reflexivity.
Qed.

(** X5.  Logs in different files do not interfere.  In a registry whose
    handles sit under their own names, appending to one registered name,
    or truncating it, leaves what a read of another registered name
    returns, provided [path.join] gives the two names different paths
    (it gives [test.wal] and [./test.wal] the same one). *)
Theorem X5_names_are_independent
    (name other : jsstr) (wal wal' : WAL.WAL) (data : jsstr) (h : heap) (w : world) :
  keyed h ->
  WALManager.path_join baseDir name <> WALManager.path_join baseDir other ->
  _logs h !! name = Some wal ->
  _logs h !! other = Some wal' ->
  disk_full w = false ->
  res (run platform (WALManager.append baseDir name data ;;
                     WALManager.read baseDir other) h w) =
    res (run platform (WALManager.read baseDir other) h w) /\
  res (run platform (WALManager.truncate baseDir name ;;
                     WALManager.read baseDir other) h w) =
    res (run platform (WALManager.read baseDir other) h w).
Proof.
  intros Hkeyed Hne Hlog Hlog' Hdisk.
  assert (Hpath : path_of wal <> path_of wal').
  { rewrite (Hkeyed _ _ Hlog), (Hkeyed _ _ Hlog'). exact Hne. }
  rewrite !run_mbind.
  rewrite (run_platform_write name wal data h w Hlog Hdisk).
  rewrite (run_platform_truncate name wal h w Hlog Hdisk).
  cbn [res heap_of world_of trace prepend].
  rewrite !(run_platform_read other wal') by exact Hlog'.
  cbn [res files with_files].
  rewrite !lookup_insert_ne by exact Hpath. auto.
Qed.

(** X6.  The registry keeps its handles under their own names.  Whatever
    the file system answers, a registry in which every handle sits under
    its own name is still such a registry after [register]; and
    [append], [read] and [truncate] leave the registry's state exactly
    as it was. *)
Theorem X6_registry_stays_keyed
    {W} (env : environment W) (wal : WAL.WAL) (name data : jsstr) (h : heap) (w : W) :
  keyed h ->
  keyed (heap_of (run env (WALManager.register baseDir wal) h w)) /\
  heap_of (run env (WALManager.append baseDir name data) h w) = h /\
  heap_of (run env (WALManager.read baseDir name) h w) = h /\
  heap_of (run env (WALManager.truncate baseDir name) h w) = h.
Proof.
  intros Hkeyed. split.
  - destruct (decide (WAL.fileName wal ∈ _registering h)) as [Hin|Hnot].
    { unfold WALManager.register. cbn [run].
      rewrite bool_decide_eq_true_2 by exact Hin. exact Hkeyed. }
    destruct (_logs h !! WAL.fileName wal) as [known|] eqn:Hlog.
    { rewrite run_register_known; [exact Hkeyed | exact Hnot |].
      rewrite Hlog. eexists; reflexivity. }
    rewrite run_register_fresh by assumption. cbv zeta.
    destruct ((env _ (mkdir baseDir) w).1) as [e|u1]; cbn [heap_of].
    { rewrite released_registering by exact Hnot. exact Hkeyed. }
    assert (Hnew : keyed (released wal (recorded_heap wal h))).
    { rewrite released_recorded by exact Hnot. intros k v. cbn [_logs].
      destruct (decide (WAL.fileName wal = k)) as [<-|Hk].
      - rewrite lookup_insert_eq. intros [= <-]. reflexivity.
      - rewrite lookup_insert_ne by exact Hk. apply Hkeyed. }
    destruct ((env _ (access _) _).1) as [e2|u2]; cbn [heap_of]; exact Hnew.
  - unfold WALManager.append, WALManager.read, WALManager.truncate. cbn [run].
    destruct (_logs h !! name); rewrite ?run_await; auto.
Qed.

(** X7.  A registration that cannot create the base directory registers
    nothing.  For a name that is neither registered nor being
    registered, when [mkdir] rejects with [e] the call fails with [e]
    after that single request: the file is neither checked nor written
    and the registry is exactly as before. *)
Theorem X7_register_without_directory
    {W} (env : environment W) (wal : WAL.WAL) (h : heap) (w : W) (e : exn) :
  WAL.fileName wal ∉ _registering h ->
  _logs h !! WAL.fileName wal = None ->
  (env _ (mkdir baseDir) w).1 = inl e ->
  let o := run env (WALManager.register baseDir wal) h w in
  res o = inl e /\
  heap_of o = h /\
  requests (trace o) = [existT _ (mkdir baseDir)].
Proof.
  intros Hnot Hnone Hmkdir o. subst o.
  rewrite run_register_fresh by assumption. cbv zeta. rewrite Hmkdir.
  cbn [res heap_of trace]. rewrite released_registering by exact Hnot. auto.
Qed.

End RegistryProperties.

Section RegistryPropertyWitnesses.

Lemma X2_unregistered_witness :
  run platform (WALManager.read test_dir test_name) fresh boot =
  mkOutcome (inl (WALManager.NotRegistered test_name)) fresh boot [].
Proof.
  destruct (X2_unregistered_name_fails_fast test_dir platform test_name (lit "A") fresh boot eq_refl)
    as (_ & Hread & _).
  exact Hread.
Defined.

Lemma X3_two_appends_witness :
  res (run platform (write_all test_dir test_name [lit "data1"; lit "data2"] ;;
                     WALManager.read test_dir test_name) registered boot) =
  inr (unlines [lit "data1"; lit "data2"]).
Proof.
  destruct (X3_read_after_appends test_dir test_name test_wal (lit "data1") [lit "data2"]
              registered boot eq_refl eq_refl) as (Hres & _).
  rewrite Hres. reflexivity.
Defined.

Lemma X4_truncate_witness :
  res (run platform (WALManager.truncate test_dir test_name ;;
                     WALManager.read test_dir test_name) registered (disk three_events)) =
  inr [].
Proof.
  destruct (X4_truncate_then_read test_dir test_name test_wal (lit "A") registered
              (disk three_events) eq_refl eq_refl) as (Hres & _).
  exact Hres.
Defined.

Lemma keyed_fresh : keyed fresh.
Proof. intros name wal H. cbn in H. rewrite lookup_empty in H. discriminate. Qed.

Lemma keyed_registered : keyed registered.
Proof.
  intros name wal. unfold registered. cbn [_logs set_logs fresh].
  destruct (decide (test_name = name)) as [<-|Hk].
  - rewrite lookup_insert_eq. intros [= <-]. reflexivity.
  - rewrite lookup_insert_ne by exact Hk. rewrite lookup_empty. discriminate.
Qed.

Lemma X6_after_register_witness :
  keyed (heap_of (run platform (WALManager.register test_dir test_wal) fresh boot)).
Proof.
  destruct (X6_registry_stays_keyed test_dir platform test_wal test_name [] fresh boot
              keyed_fresh) as [H _].
  exact H.
Defined.

Lemma X5_two_logs_witness :
  let other := WAL.mkWAL (lit "other.wal") in
  let h := set_logs <[lit "other.wal" := other]> registered in
  res (run platform (WALManager.append test_dir test_name (lit "A") ;;
                     WALManager.read test_dir (lit "other.wal")) h
           (with_files (<[WALManager.path_join test_dir (lit "other.wal") := lit "kept"]>
                          (files (disk three_events))) (disk three_events))) =
  inr (lit "kept") /\
  WALManager.path_join test_dir (lit "./test.wal") = WALManager.path_join test_dir test_name.
Proof.
  intros other h.
  assert (Hkeyed : keyed h).
  { intros k v. subst h. cbn [_logs set_logs].
    destruct (decide (lit "other.wal" = k)) as [<-|Hk].
    - rewrite lookup_insert_eq. intros [= <-]. reflexivity.
    - rewrite lookup_insert_ne by exact Hk. apply keyed_registered. }
  assert (Hne : WALManager.path_join test_dir test_name <>
                WALManager.path_join test_dir (lit "other.wal"))
    by (vm_compute; discriminate).
  destruct (X5_names_are_independent test_dir test_name (lit "other.wal") test_wal other
              (lit "A") h
              (with_files (<[WALManager.path_join test_dir (lit "other.wal") := lit "kept"]>
                             (files (disk three_events))) (disk three_events))
              Hkeyed Hne eq_refl eq_refl eq_refl) as [Happend _].
  split; [rewrite Happend; reflexivity | reflexivity].
Defined.

Lemma X7_no_directory_witness :
  let o := run no_dir (WALManager.register test_dir test_wal) fresh boot in
  res o = inl EACCES /\ heap_of o = fresh.
Proof.
  destruct (X7_register_without_directory test_dir no_dir test_wal fresh boot EACCES)
    as (Hres & Hheap & _).
  - apply not_elem_of_empty.
  - reflexivity.
  - reflexivity.
  - split; assumption.
Defined.

End RegistryPropertyWitnesses.

(* ================================================================== *)
(** ** Further properties: the retry loop and the observer *)
(* ================================================================== *)

Section RetryOutcome.

Import DurabilityManager.

Context {W : Type} (env : environment W) (this : DurabilityManager).

(** X8.  One record, [maxRetries >= 0].  The invocations of the
    processor and the sleeps alternate: every rejected invocation but
    the last one allowed is followed by one sleep and then by the next
    invocation; the loop ends with the first invocation that resolves,
    which is never followed by another, or with rejection number
    [maxRetries + 1], which is followed by no sleep.  A diagnostic is
    written only in the second case: once, with [maxRetries + 1] as the
    attempt count, unless the value of the last rejection is falsy, in
    which case nothing is written at all. *)
Theorem X8_stops_at_first_success (event : jsstr) (h : heap) (w : W) :
  0 <= maxRetries (retryConfig this) ->
  let o := run env (processEventWithRetry this event extern) h w in
  exists ok : bool,
    res o = inr ok /\
    timeline (trace o) =
      concat (map (fun d => [Invoked false; Slept d]) (sleeps (trace o)))
      ++ [Invoked ok] /\
    (if ok then
       Z.of_nat (length (sleeps (trace o))) <= maxRetries (retryConfig this) /\
       diagnostics (trace o) = []
     else
       Z.of_nat (length (sleeps (trace o))) = maxRetries (retryConfig this) /\
       diagnostics (trace o) =
         match last (rejections (trace o)) with
         | Some e =>
             if truthy e then [(maxRetries (retryConfig this) + 1, event)] else []
         | None => []
         end).
Proof.
  intros Hmax o.
  destruct (processEventWithRetry_timeline env this event h w Hmax)
    as (ok & Hres & _ & _ & _ & Ht & Hok).
  exists ok. split; [exact Hres|]. split; [exact Ht|]. exact Hok.
Qed.

Lemma run_processEventWithRetry_idle
    (event : jsstr) (proc : jsstr -> prog unit) (h : heap) (w : W) :
  maxRetries (retryConfig this) < 0 ->
  run env (processEventWithRetry this event proc) h w = mkOutcome (inr false) h w [].
Proof.
  intros Hneg. unfold processEventWithRetry.
  assert (Hnil : seqZ 0 (maxRetries (retryConfig this) + 1) = []).
  { unfold seqZ. destruct (maxRetries (retryConfig this) + 1) eqn:E; try lia; reflexivity. }
  rewrite Hnil, run_retry_loop_exhausted. reflexivity.
Qed.

End RetryOutcome.

Section Observer.

Import DurabilityManager.

Context {W : Type} (env : environment W) (this : DurabilityManager).

Lemma retry_loop_unobserved event attempts :
  forall lastError attemptCount h w,
    notifications
      (trace (run env (retry_loop this event extern attempts lastError attemptCount) h w))
    = [].
Proof.
  induction attempts as [|attempt rest IH]; intros lastError attemptCount h w.
  - rewrite run_retry_loop_exhausted.
    destruct lastError as [e|]; [destruct (truthy e)|]; reflexivity.
  - rewrite run_retry_loop_cons. cbv zeta. rewrite run_extern.
    cbn [res heap_of world_of trace].
    destruct ((env _ (call_processor (JStr event)) w).1) as [e|[]]; [|reflexivity].
    cbn [prepend trace].
    rewrite !notifications_app, IH.
    destruct (pause_marks env this attempt h (env _ (call_processor (JStr event)) w).2)
      as (_ & _ & Pn & _).
    cbv zeta in Pn. rewrite Pn. reflexivity.
Qed.




(** X11.  An observer that throws ends the replay at the first record:
    the call fails with the error the observer threw, the records after
    the first are neither processed nor announced, and the flag is
    clear afterwards. *)
Theorem X11_throwing_observer_aborts
    (count : Z) (h : heap) (w : W) (wal : WAL.WAL) (content : jsstr)
    (first : jsstr) (rest : list jsstr) :
  has_onEventProcessed this = true ->
  observer_always_throws env ->
  isReplaying h = false ->
  _logs h !! walFileName this = Some wal ->
  (env _ (readFile (WALManager.path_join (walManager this) (WAL.fileName wal))) w).1
    = inr content ->
  eventsToReplay count (lines_of content) = first :: rest ->
  let o := run env (replay this count extern) h w in
  exists (e : exn) (ok : bool) (n : nat) (w' : W),
    res o = inl e /\
    (env _ (call_onEventProcessed first ok) w').1 = inl e /\
    notifications (trace o) = [(first, ok)] /\
    payloads (trace o) = replicate n (JStr first) /\
    isReplaying (heap_of o) = false.
Proof.
  intros Hobs Hthrow Hflag Hlog Hread Hwin o. subst o.
  rewrite run_replay, Hflag. cbv zeta.
  rewrite run_replay_body. cbn [set_isReplaying _logs]. rewrite Hlog. cbv zeta.
  rewrite Hread. cbn [prepend res heap_of world_of trace].
  unfold process_events. rewrite Hwin. cbn [for_of]. rewrite run_bind.
  rewrite run_replay_step. cbv zeta. unfold processEventWithRetry.
  match goal with
  | |- context [run env (retry_loop this first extern ?att ?l ?c) ?h' ?w'] =>
      destruct (retry_loop_extern env this first att l c h' w')
        as (n & ok & Hres & Hheap & Hpay & _);
      pose proof (retry_loop_unobserved first att l c h' w') as Hn;
      destruct (run env (retry_loop this first extern att l c) h' w')
        as [r1 h1 w1 t1]
  end.
  cbn [res heap_of world_of trace] in *. subst r1.
  rewrite run_notify, Hobs. cbn [res heap_of world_of trace].
  destruct (Hthrow first ok w1) as [e He].
  exists e, ok, n, w1.
  split; [rewrite He; reflexivity|]. split; [exact He|].
  rewrite He. cbn [rethrow res heap_of world_of trace].
  change (notifications ([?e] ++ ?t)) with (notifications t).
  change (payloads ([?e] ++ ?t)) with (payloads t).
  rewrite notifications_app, payloads_app, Hn, Hpay.
  cbn. rewrite app_nil_r. auto.
Qed.

(** With a negative budget the loop over the window only ever calls
    the observer. *)
Lemma process_loop_idle_trace proc events :
  maxRetries (retryConfig this) < 0 ->
  forall acc h w,
    let o := run env (for_of events acc (replay_step this proc)) h w in
    payloads (trace o) = [] /\ sleeps (trace o) = [] /\ diagnostics (trace o) = [].
Proof.
  intros Hneg.
  induction events as [|event rest IH]; intros acc h w; cbv zeta.
  - cbn. auto.
  - cbn [for_of]. rewrite run_bind, run_replay_step. cbv zeta.
    rewrite run_processEventWithRetry_idle by exact Hneg.
    cbn [res heap_of world_of trace app]. rewrite run_notify.
    destruct (has_onEventProcessed this); cbn [res heap_of world_of trace].
    + destruct ((env _ (call_onEventProcessed event false) w).1) as [e|[]];
        cbn [rethrow prepend res trace]; [cbn; auto|].
      destruct (IH (count_failed acc) h (env _ (call_onEventProcessed event false) w).2)
        as (Hp & Hs & Hd).
      cbv zeta in Hp, Hs, Hd.
      change (payloads ([?e] ++ ?t)) with (payloads t).
      change (sleeps ([?e] ++ ?t)) with (sleeps t).
      change (diagnostics ([?e] ++ ?t)) with (diagnostics t).
      auto.
    + cbn [prepend res trace app]. apply IH.
Qed.

Lemma process_loop_idle proc events :
  maxRetries (retryConfig this) < 0 ->
  observer_quiet this env ->
  forall acc h w,
    res (run env (for_of events acc (replay_step this proc)) h w) =
    inr (Nat.iter (length events) count_failed acc).
Proof.
  intros Hneg Hq.
  induction events as [|event rest IH]; intros acc h w.
  - reflexivity.
  - cbn [for_of]. rewrite run_bind, run_replay_step. cbv zeta.
    rewrite run_processEventWithRetry_idle by exact Hneg.
    cbn [res heap_of world_of trace app].
    rewrite notify_quiet by exact Hq.
    cbn [prepend res]. rewrite IH. cbn [length]. rewrite Nat.iter_succ_r. reflexivity.
Qed.

Lemma iter_count_failed n acc :
  processedCount (Nat.iter n count_failed acc) = processedCount acc /\
  failedCount (Nat.iter n count_failed acc) = failedCount acc + Z.of_nat n /\
  errors (Nat.iter n count_failed acc) = errors acc /\
  success (Nat.iter n count_failed acc) =
    match n with O => success acc | S _ => false end.
Proof.
  induction n as [|n (IH1 & IH2 & IH3 & IH4)].
  - cbn. repeat split; auto; lia.
  - rewrite Nat.iter_succ.
    cbn [count_failed processedCount failedCount errors success].
    rewrite IH1, IH2, IH3. repeat split; auto; lia.
Qed.

End Observer.

(* ================================================================== *)
(** ** Further properties: the edges of a replay *)
(* ================================================================== *)

Section EngineEdges.

Import DurabilityManager.

Context {W : Type} (env : environment W) (this : DurabilityManager).

(** X17.  A negative [maxRetries] is not rejected: the retry loop then
    has no iteration.  A replay invokes the processor on no record,
    sleeps and logs nothing, whatever the observer does; and, with no
    observer or one that does not throw, it counts every record of the
    window as failed. *)
Theorem X17_negative_retry_budget
    (count : Z) (proc : jsstr -> prog unit) (h : heap) (w : W)
    (wal : WAL.WAL) (content : jsstr) :
  maxRetries (retryConfig this) < 0 ->
  isReplaying h = false ->
  _logs h !! walFileName this = Some wal ->
  (env _ (readFile (WALManager.path_join (walManager this) (WAL.fileName wal))) w).1
    = inr content ->
  let window := eventsToReplay count (lines_of content) in
  let o := run env (replay this count proc) h w in
  payloads (trace o) = [] /\ sleeps (trace o) = [] /\ diagnostics (trace o) = [] /\
  (observer_quiet this env ->
   res o = inr {| success := bool_decide (window = []);
                  processedCount := 0;
                  failedCount := Z.of_nat (length window);
                  errors := [] |}).
Proof.
  intros Hneg Hflag Hlog Hread window o. subst o.
  rewrite run_replay, Hflag. cbv zeta.
  rewrite run_replay_body. cbn [set_isReplaying _logs]. rewrite Hlog. cbv zeta.
  rewrite Hread. cbn [prepend res heap_of world_of trace].
  unfold process_events. fold window.
  change (payloads ([?e] ++ ?t)) with (payloads t).
  change (sleeps ([?e] ++ ?t)) with (sleeps t).
  change (diagnostics ([?e] ++ ?t)) with (diagnostics t).
  match goal with
  | |- context [run env (for_of window ?a _) ?h' ?w'] =>
      destruct (process_loop_idle_trace env this proc window Hneg a h' w')
        as (Hp & Hs & Hd);
      pose proof (fun Hq => process_loop_idle env this proc window Hneg Hq a h' w') as Hr;
      destruct (iter_count_failed (length window) a) as (I1 & I2 & I3 & I4)
  end.
  cbv zeta in Hp, Hs, Hd.
  split; [exact Hp|]. split; [exact Hs|]. split; [exact Hd|].
  intros Hq. rewrite (Hr Hq). f_equal.
  destruct (Nat.iter (length window) count_failed _) as [s p f e].
  cbn [processedCount failedCount errors success] in I1, I2, I3, I4.
  subst p f e. f_equal.
  rewrite I4. destruct window; reflexivity.
Qed.

(** X13.  What [replay] does when it cannot read the log.  On a name
    that is not registered it fails with the registry's error without a
    single request; when the read is rejected it fails with the error of
    the read.  In both cases the processor is never invoked and the flag
    is clear afterwards, so the next call is not refused. *)
Theorem X13_replay_read_failure
    (count : Z) (proc : jsstr -> prog unit) (h : heap) (w : W) :
  isReplaying h = false ->
  let o := run env (replay this count proc) h w in
  (_logs h !! walFileName this = None ->
   o = mkOutcome (inl (WALManager.NotRegistered (walFileName this))) h w []) /\
  (forall wal e,
      _logs h !! walFileName this = Some wal ->
      (env _ (readFile (WALManager.path_join (walManager this) (WAL.fileName wal))) w).1
        = inl e ->
      res o = inl e /\ heap_of o = h /\
      requests (trace o) =
        [existT _ (readFile (WALManager.path_join (walManager this) (WAL.fileName wal)))]).
Proof.
  intros Hflag o. subst o. rewrite run_replay, Hflag. cbv zeta.
  rewrite run_replay_body. cbn [set_isReplaying _logs].
  assert (Hh : set_isReplaying false
                 {| _logs := _logs h; _registering := _registering h; isReplaying := true |}
               = h).
  { destruct h as [l r f]. cbn in Hflag. subst f. reflexivity. }
  split.
  - intros Hlog. rewrite Hlog. cbn [res heap_of world_of trace].
    unfold set_isReplaying in Hh |- *. cbn [_logs _registering] in Hh |- *.
    rewrite Hh. reflexivity.
  - intros wal e Hlog Hread. rewrite Hlog. cbv zeta. rewrite Hread.
    cbn [res heap_of world_of trace].
    unfold set_isReplaying in Hh |- *. cbn [_logs _registering] in Hh |- *.
    rewrite Hh. auto.
Qed.

(** X14.  A [count] of zero or less replays nothing, but it is not free
    of effects: the call still reads the whole log, and returns the
    empty success only when that read succeeds. *)
Theorem X14_replay_nothing
    (count : Z) (proc : jsstr -> prog unit) (h : heap) (w : W)
    (wal : WAL.WAL) (content : jsstr) :
  count <= 0 ->
  isReplaying h = false ->
  _logs h !! walFileName this = Some wal ->
  (env _ (readFile (WALManager.path_join (walManager this) (WAL.fileName wal))) w).1
    = inr content ->
  let o := run env (replay this count proc) h w in
  res o = inr {| success := true; processedCount := 0; failedCount := 0; errors := [] |} /\
  requests (trace o) =
    [existT _ (readFile (WALManager.path_join (walManager this) (WAL.fileName wal)))].
Proof.
  intros Hc Hflag Hlog Hread o. subst o. rewrite run_replay, Hflag. cbv zeta.
  rewrite run_replay_body. cbn [set_isReplaying _logs]. rewrite Hlog. cbv zeta.
  rewrite Hread. unfold eventsToReplay.
  replace (count <=? 0) with true by (symmetry; apply Z.leb_le; exact Hc).
  split; reflexivity.
Qed.

Lemma process_loop_errors proc events :
  forall acc h w r,
    res (run env (for_of events acc (replay_step this proc)) h w) = inr r ->
    errors r = errors acc.
Proof.
  induction events as [|event rest IH]; intros acc h w r Hrun.
  - cbn in Hrun. injection Hrun as <-. reflexivity.
  - cbn [for_of] in Hrun. rewrite run_bind in Hrun.
    destruct (res (run env (replay_step this proc acc event) h w))
      as [e|acc'] eqn:Hstep; [discriminate|].
    cbn [prepend res] in Hrun.
    apply replay_step_result in Hstep.
    rewrite (IH _ _ _ _ Hrun). destruct Hstep as [-> | ->]; reflexivity.
Qed.

(** X15.  The [errors] list of a [ReplayResult] is never filled: every
    result a replay returns has it empty, also when records failed, and
    what made them fail goes to [console.error] only. *)
Theorem X15_errors_never_filled
    (count : Z) (proc : jsstr -> prog unit) (h : heap) (w : W) (result : ReplayResult) :
  res (run env (replay this count proc) h w) = inr result ->
  errors result = [].
Proof.
  rewrite run_replay. destruct (isReplaying h); [discriminate|]. cbv zeta.
  cbn [res]. rewrite run_replay_body. cbn [set_isReplaying _logs].
  destruct (_logs h !! walFileName this) as [wal|]; [|discriminate].
  cbv zeta.
  destruct ((env _ (readFile _) w).1) as [e|content]; [discriminate|].
  cbn [prepend res]. unfold process_events. intros Hrun.
  apply process_loop_errors in Hrun. exact Hrun.
Qed.

End EngineEdges.

(* ================================================================== *)
(** ** Further properties: what only reads *)
(* ================================================================== *)

Section NoWrites.

Import DurabilityManager.

Lemma no_writes_bind {A B} (p : prog A) (f : A -> prog B) :
  no_writes p -> (forall a, no_writes (f a)) -> no_writes (bind p f).
Proof.
  intros Hp Hf. induction Hp; simpl; try (constructor; auto); auto.
Qed.

Lemma no_writes_mbind {A B} (p : prog A) (f : A -> prog B) :
  no_writes p -> (forall a, no_writes (f a)) -> no_writes (p ≫= f).
Proof. apply no_writes_bind. Qed.

Lemma no_writes_try_catch {R} (p : prog R) (handler : exn -> prog R) :
  no_writes p -> (forall e, no_writes (handler e)) -> no_writes (try_catch p handler).
Proof.
  intros Hp Hf. induction Hp; simpl; try (constructor; auto); auto.
Qed.

Lemma no_writes_try_finally {R} (p : prog R) (cleanup : prog unit) :
  no_writes p -> no_writes cleanup -> no_writes (try_finally p cleanup).
Proof.
  intros Hp Hc. induction Hp; simpl; try (constructor; auto);
    apply no_writes_bind; auto; intros; constructor.
Qed.

Lemma no_writes_await {A} (op : io (exn + A)) : writes op = false -> no_writes (await op).
Proof. intros Hop. constructor; [exact Hop|]. intros [e|a]; constructor. Qed.

Lemma no_writes_ask {A} (op : io A) : writes op = false -> no_writes (ask op).
Proof. intros Hop. constructor; [exact Hop|]. intros a; constructor. Qed.

Lemma no_writes_modify f : no_writes (modify f).
Proof. constructor. intros h. repeat constructor. Qed.

Lemma no_writes_for_of {A B} (xs : list A) (acc : B) (body : B -> A -> prog B) :
  (forall b a, no_writes (body b a)) -> no_writes (for_of xs acc body).
Proof.
  intros Hb. revert acc.
  induction xs as [|x rest IH]; intros acc; simpl.
  - constructor.
  - apply no_writes_bind; auto.
Qed.

Lemma no_writes_run {R W} (env : environment W) (p : prog R) h w :
  no_writes p -> Forall (fun ev => is_write ev = false) (trace (run env p h w)).
Proof.
  intros Hp. revert h w.
  induction Hp as [r|e|k Hk IH|h' k Hk IH|X op k Hop Hk IH]; intros h w; simpl.
  - constructor.
  - constructor.
  - apply IH.
  - apply IH.
  - constructor; [exact Hop | apply IH].
Qed.

Lemma platform_keeps_files {A} (op : io A) (w : world) :
  writes op = false -> files (platform _ op w).2 = files w.
Proof. destruct op; cbn; intros Hop; try discriminate; reflexivity. Qed.

Lemma no_writes_platform {R} (p : prog R) h (w : world) :
  no_writes p -> files (world_of (run platform p h w)) = files w.
Proof.
  intros Hp. revert h w.
  induction Hp as [r|e|k Hk IH|h' k Hk IH|X op k Hop Hk IH]; intros h w; simpl.
  - reflexivity.
  - reflexivity.
  - apply IH.
  - apply IH.
  - rewrite IH. apply platform_keeps_files. exact Hop.
Qed.

Context (this : DurabilityManager).

Lemma no_writes_read baseDir name : no_writes (WALManager.read baseDir name).
Proof.
  unfold WALManager.read. constructor. intros h.
  destruct (_logs h !! name); [apply no_writes_await; reflexivity | constructor].
Qed.

Lemma no_writes_retry_loop event proc attempts lastError attemptCount :
  (forall e, no_writes (proc e)) ->
  no_writes (retry_loop this event proc attempts lastError attemptCount).
Proof.
  intros Hp. revert lastError attemptCount.
  induction attempts as [|attempt rest IH]; intros lastError attemptCount;
    cbn [retry_loop].
  - apply no_writes_mbind; [|intros; constructor].
    destruct lastError as [e|];
      [destruct (truthy e); [apply no_writes_ask; reflexivity | constructor] | constructor].
  - apply no_writes_mbind.
    + apply no_writes_try_catch.
      * apply no_writes_mbind; [apply Hp | intros; constructor].
      * intros e. apply no_writes_mbind; [|intros; constructor].
        destruct (attempt <? maxRetries (retryConfig this)); [|constructor].
        apply no_writes_mbind; [|intros; apply no_writes_ask; reflexivity].
        apply no_writes_mbind; [apply no_writes_ask; reflexivity|]. intros power.
        apply no_writes_mbind; [apply no_writes_ask; reflexivity | intros; constructor].
    + intros [e|]; [apply IH | constructor].
Qed.

Lemma no_writes_replay count proc :
  (forall e, no_writes (proc e)) -> no_writes (replay this count proc).
Proof.
  intros Hp. unfold replay. constructor. intros h.
  destruct (isReplaying h); [constructor|].
  apply no_writes_mbind; [apply no_writes_modify|]. intros _.
  apply no_writes_try_finally; [|apply no_writes_modify].
  apply no_writes_mbind; [apply no_writes_read|]. intros content.
  unfold process_events. apply no_writes_for_of. intros result event.
  unfold replay_step. apply no_writes_mbind; [apply no_writes_retry_loop; exact Hp|].
  intros [|]; (apply no_writes_mbind; [|intros; constructor]);
    unfold notify; destruct (has_onEventProcessed this);
    try (apply no_writes_await; reflexivity); constructor.
Qed.

Lemma no_writes_caller payload : no_writes (caller payload).
Proof. apply no_writes_await. reflexivity. Qed.

Lemma no_writes_wrappedProcessor line :
  no_writes (DurableWal.wrappedProcessor caller line).
Proof.
  unfold DurableWal.wrappedProcessor. apply no_writes_try_catch.
  - unfold DurableWal.JSON_parse.
    destruct (JSON.parse line) as [entry|]; [|constructor].
    cbn [mbind prog_bind bind]. unfold DurableWal.dot_data.
    destruct (get_data entry); cbn [bind]; [constructor | apply no_writes_caller].
  - intros _. apply no_writes_caller.
Qed.

Lemma no_writes_client_replay count :
  no_writes (DurableWal.replay this count (Some caller)).
Proof.
  unfold DurableWal.replay. destruct (count <? 0); [constructor|].
  apply no_writes_mbind; [apply no_writes_replay; apply no_writes_wrappedProcessor|].
  intros result. destruct (negb (success result)); constructor.
Qed.

Lemma no_writes_inspect count : no_writes (DurableWal.inspect this count).
Proof.
  unfold DurableWal.inspect. destruct (count <? 0); [constructor|].
  apply no_writes_mbind; [apply no_writes_read|]. intros content.
  rewrite map_decode_pure. constructor.
Qed.

Lemma no_writes_getEntryCount : no_writes (DurableWal.getEntryCount this).
Proof.
  unfold DurableWal.getEntryCount, getEventCount.
  apply no_writes_mbind; [apply no_writes_read | intros; constructor].
Qed.

Lemma readonly_wrappedProcessor line :
  readonly (DurableWal.wrappedProcessor caller line).
Proof.
  unfold DurableWal.wrappedProcessor. apply readonly_try_catch.
  - unfold DurableWal.JSON_parse.
    destruct (JSON.parse line) as [entry|]; [|constructor].
    cbn [mbind prog_bind bind]. unfold DurableWal.dot_data.
    destruct (get_data entry); cbn [bind]; [constructor | apply readonly_await].
  - intros _. apply readonly_await.
Qed.

Lemma logs_after_replay {W} (env : environment W) count h w :
  _logs (heap_of (run env (DurableWal.replay this count (Some caller)) h w)) = _logs h.
Proof.
  unfold DurableWal.replay. destruct (count <? 0); [reflexivity|].
  rewrite run_mbind, run_replay.
  destruct (isReplaying h); [reflexivity|]. cbv zeta.
  destruct (readonly_run env _ (set_isReplaying true h) w
              (readonly_replay_body this count _ readonly_wrappedProcessor))
    as [Hheap _].
  destruct (run env (replay_body this count _) (set_isReplaying true h) w)
    as [[e|r] h1 w1 t1]; cbn [res heap_of world_of trace] in *; subst h1.
  - reflexivity.
  - destruct (negb (success r)); reflexivity.
Qed.

Lemma platform_count_depends h1 h2 (w1 w2 : world) :
  _logs h1 = _logs h2 -> files w1 = files w2 ->
  res (run platform (DurableWal.getEntryCount this) h1 w1) =
  res (run platform (DurableWal.getEntryCount this) h2 w2).
Proof.
  intros Hl Hf. unfold DurableWal.getEntryCount, getEventCount.
  rewrite !run_mbind, !run_read, Hl.
  destruct (_logs h2 !! walFileName this) as [wal|]; [|reflexivity].
  cbv zeta. cbn [res heap_of world_of trace platform fst snd]. rewrite Hf.
  destruct (files w2 !! _); reflexivity.
Qed.

(** X12.  Replaying and inspecting only read.  Whatever the
    environment answers, [replay], [inspect] and [getEntryCount] issue no
    request that creates, writes or appends to a file.  On the in-memory
    file system every file is after a replay what it was before, and
    [getEntryCount] answers the same: the records a replay has processed
    stay in the log, and the next replay selects them again. *)
Theorem X12_replay_never_writes
    {W : Type} (env : environment W) (count : Z) (h : heap) (w : W) (pw : world) :
  Forall (fun ev => is_write ev = false)
         (trace (run env (DurableWal.replay this count (Some caller)) h w)) /\
  Forall (fun ev => is_write ev = false)
         (trace (run env (DurableWal.inspect this count) h w)) /\
  Forall (fun ev => is_write ev = false)
         (trace (run env (DurableWal.getEntryCount this) h w)) /\
  (let o := run platform (DurableWal.replay this count (Some caller)) h pw in
   files (world_of o) = files pw /\
   res (run platform (DurableWal.getEntryCount this) (heap_of o) (world_of o)) =
   res (run platform (DurableWal.getEntryCount this) h pw)).
Proof.
  split; [apply no_writes_run, no_writes_client_replay|].
  split; [apply no_writes_run, no_writes_inspect|].
  split; [apply no_writes_run, no_writes_getEntryCount|].
  pose proof (no_writes_platform _ h pw (no_writes_client_replay count)) as Hfiles.
  cbv zeta. split; [exact Hfiles|].
  apply platform_count_depends; [apply logs_after_replay | exact Hfiles].
Qed.

End NoWrites.

(* ================================================================== *)
(** ** Further properties: records of a file *)
(* ================================================================== *)

Section BlankLines.

Import DurabilityManager.

Lemma nonblank_white (l : jsstr) : nonblank l = negb (forallb is_white l).
Proof.
  unfold nonblank. destruct (forallb is_white l) eqn:E.
  - rewrite trim_white by exact E. reflexivity.
  - destruct (trim l) eqn:Ht; [|reflexivity].
    apply trim_nil in Ht. congruence.
Qed.

Lemma split_LF_unlines (ls : list jsstr) (last : jsstr) :
  Forall no_LF ls -> no_LF last -> split_LF (unlines ls ++ last) = ls ++ [last].
Proof.
  intros Hls Hlast. induction Hls as [|l ls Hl _ IH].
  - apply split_LF_line. exact Hlast.
  - unfold unlines in *. cbn [map concat].
    rewrite <- !app_assoc. change ([LF] ++ ?x) with (LF :: x).
    rewrite split_LF_cut, IH, split_LF_line by exact Hl. reflexivity.
Qed.

(** X16.  Which lines of a file are records.  A file is lines ended by
    line feeds and a last piece without one; the records are the pieces
    that are not made of white space only, the last piece included.
    [getEventCount] counts them and [inspect] decodes the last [count]
    of them: blank lines, and the empty piece after the final line feed,
    are no records. *)
Theorem X16_blank_lines_are_not_records
    {W : Type} (env : environment W) (this : DurabilityManager)
    (count : Z) (h : heap) (w : W) (wal : WAL.WAL) (ls : list jsstr) (last : jsstr) :
  Forall no_LF ls ->
  no_LF last ->
  _logs h !! walFileName this = Some wal ->
  (env _ (readFile (WALManager.path_join (walManager this) (WAL.fileName wal))) w).1
    = inr (unlines ls ++ last) ->
  let records := List.filter (fun l => negb (forallb is_white l)) (ls ++ [last]) in
  res (run env (getEventCount this) h w) = inr (Z.of_nat (length records)) /\
  (0 <= count ->
   res (run env (DurableWal.inspect this count) h w) =
   inr (map payload_of (eventsToReplay count records))).
Proof.
  intros Hls Hlast Hlog Hread records.
  assert (Hlines : lines_of (unlines ls ++ last) = records).
  { unfold lines_of. rewrite split_LF_unlines by assumption.
    apply List.filter_ext. intros l. apply nonblank_white. }
  split.
  - rewrite <- Hlines. apply (run_getEntryCount this env h w wal _ Hlog Hread).
  - intros Hc. rewrite run_inspect by exact Hc. rewrite Hlog. cbv zeta.
    rewrite Hread. cbn [res]. rewrite Hlines. reflexivity.
Qed.

End BlankLines.

Section EngineEdgeWitnesses.

Import DurabilityManager.

Lemma X8_third_call_resolves_witness :
  let o := run platform (processEventWithRetry test_manager (lit "event1") extern)
               registered (flaky 2 three_events) in
  let mute := run silent (processEventWithRetry test_manager (lit "event1") extern)
                  registered boot in
  res o = inr true /\
  timeline (trace o) =
    [Invoked false; Slept 100%float; Invoked false; Slept 200%float; Invoked true] /\
  diagnostics (trace o) = [] /\
  res mute = inr false /\
  length (rejections (trace mute)) = 4%nat /\
  diagnostics (trace mute) = [].
Proof.
  intros o mute.
  destruct (X8_stops_at_first_success platform test_manager (lit "event1") registered
              (flaky 2 three_events))
    as ([|] & Hres & Ht & Hok); [cbn; lia | | vm_compute in Hres; discriminate].
  destruct (X8_stops_at_first_success silent test_manager (lit "event1") registered boot)
    as ([|] & Hres' & _ & Hok'); [cbn; lia | vm_compute in Hres'; discriminate |].
  fold o in Hres, Ht, Hok. fold mute in Hres', Hok'.
  split; [exact Hres|]. split; [rewrite Ht; vm_compute; reflexivity|].
  split; [apply Hok|]. split; [exact Hres'|]. split; [vm_compute; reflexivity|].
  destruct Hok' as [_ Hd]. rewrite Hd. vm_compute. reflexivity.
Defined.


Lemma X11_first_record_only_witness :
  let o := run screaming (replay observed_manager 2 extern) registered
               (disk three_events) in
  res o = inl (Error (lit "observer")) /\
  notifications (trace o) = [(lit "event2", true)] /\
  payloads (trace o) = [JStr (lit "event2")] /\
  isReplaying (heap_of o) = false.
Proof.
  destruct (X11_throwing_observer_aborts screaming observed_manager 2 registered
              (disk three_events) test_wal three_events (lit "event2") [lit "event3"])
    as (e & ok & n & w' & Hres & He & Hn & Hp & Hflag).
  - reflexivity.
  - intros event ok w. eexists. reflexivity.
  - reflexivity.
  - reflexivity.
  - reflexivity.
  - vm_compute. reflexivity.
  - split; [vm_compute; reflexivity|]. split; [vm_compute; reflexivity|].
    split; [vm_compute; reflexivity | exact Hflag].
Defined.

Lemma X13_missing_file_witness :
  run platform (replay test_manager 2 extern) fresh boot =
    mkOutcome (inl (WALManager.NotRegistered test_name)) fresh boot [] /\
  res (run platform (replay test_manager 2 extern) registered boot) = inl ENOENT /\
  heap_of (run platform (replay test_manager 2 extern) registered boot) = registered.
Proof.
  destruct (X13_replay_read_failure platform test_manager 2 extern fresh boot eq_refl)
    as [Hnone _].
  destruct (X13_replay_read_failure platform test_manager 2 extern registered boot eq_refl)
    as [_ Hsome].
  destruct (Hsome test_wal ENOENT eq_refl eq_refl) as (Hres & Hheap & _).
  split; [apply Hnone; reflexivity|]. split; [exact Hres | exact Hheap].
Defined.

Lemma X14_count_zero_witness :
  let o := run platform (replay test_manager 0 extern) registered (disk three_events) in
  res o = inr {| success := true; processedCount := 0; failedCount := 0; errors := [] |} /\
  requests (trace o) = [existT _ (readFile test_path)].
Proof.
  apply (X14_replay_nothing platform test_manager 0 extern registered (disk three_events)
           test_wal three_events); [lia | reflexivity | reflexivity | reflexivity].
Defined.

Lemma X15_failed_records_witness :
  exists result,
    res (run hostile (replay test_manager 2 extern) registered (disk three_events))
      = inr result /\
    failedCount result = 2 /\ errors result = [].
Proof.
  eexists. split; [vm_compute; reflexivity|].
  split; [reflexivity|].
  apply (X15_errors_never_filled hostile test_manager 2 extern registered
           (disk three_events) _ eq_refl).
Defined.

Lemma X16_blank_lines_witness :
  let ls := [lit "event1"; lit "   "; []; lit "event2"] in
  res (run platform (getEventCount test_manager) registered
           (disk (unlines ls ++ lit "event3"))) = inr 3 /\
  res (run platform (DurableWal.inspect test_manager 5) registered
           (disk (unlines ls ++ lit "event3")))
    = inr [JStr (lit "event1"); JStr (lit "event2"); JStr (lit "event3")].
Proof.
  intros ls.
  destruct (X16_blank_lines_are_not_records platform test_manager 5 registered
              (disk (unlines ls ++ lit "event3")) test_wal ls (lit "event3"))
    as (Hcount & Hinspect).
  - subst ls. repeat constructor; vm_compute; discriminate.
  - repeat constructor; vm_compute; discriminate.
  - reflexivity.
  - reflexivity.
  - split; [rewrite Hcount; reflexivity|].
    rewrite Hinspect by lia. vm_compute. reflexivity.
Defined.

Lemma X17_idle_engine_witness :
  let o := run platform (replay idle_manager 2 extern) registered (disk three_events) in
  res o = inr {| success := false; processedCount := 0; failedCount := 2; errors := [] |} /\
  payloads (trace o) = [].
Proof.
  destruct (X17_negative_retry_budget platform idle_manager 2 extern registered
              (disk three_events) test_wal three_events)
    as (Hp & _ & _ & Hres).
  - cbn. lia.
  - reflexivity.
  - reflexivity.
  - reflexivity.
  - split; [rewrite Hres by (left; reflexivity); vm_compute; reflexivity | exact Hp].
Defined.

End EngineEdgeWitnesses.

(* ================================================================== *)
(** ** Further properties: the client *)
(* ================================================================== *)

Section ClientRoundTrip.

Import DurabilityManager DurableWal.

Lemma run_wrapped_payload {W} (env : environment W) (line : jsstr) (payload : jsval) h w :
  JSON_parse line ≫= dot_data = Ret payload ->
  exists rest,
    payloads (trace (run env (wrappedProcessor caller line) h w)) = payload :: rest.
Proof.
  intros Hdec. unfold wrappedProcessor.
  change (entry ← JSON_parse line; payload0 ← dot_data entry; caller payload0)
    with (bind (JSON_parse line) (fun entry => bind (dot_data entry) caller)).
  assert (Hbody : bind (JSON_parse line) (fun entry => bind (dot_data entry) caller)
                  = caller payload).
  { change (JSON_parse line ≫= dot_data) with (bind (JSON_parse line) dot_data) in Hdec.
    destruct (JSON_parse line) as [entry|e|k|h' k|A op k]; cbn in Hdec |- *;
      try discriminate.
    rewrite Hdec. reflexivity. }
  rewrite Hbody, run_try_catch. unfold caller at 1 2 3 4. rewrite !run_await.
  cbn [res heap_of world_of trace].
  destruct ((env _ (call_processor payload) w).1) as [e|[]].
  - cbn [prepend trace app payloads omap]. eexists. reflexivity.
  - eexists. reflexivity.
Qed.

(** X18.  What [append] serializes, [inspect] and [replay] decode.  For
    every envelope (any id, any integer timestamp, any content: quotes,
    backslashes, control characters, line feeds, lone surrogates),
    [JSON.parse] of its [JSON.stringify] is the object with the same
    three members, the line decodes to the content, and the wrapped
    processor hands the caller's processor the content first. *)
Theorem X18_envelope_round_trip
    {W : Type} (env : environment W) (entry : WalEntry) (h : heap) (w : W) :
  JSON.parse (JSON_stringify entry) =
    Some (JObj [(lit "id", JStr (id entry));
                (lit "timestamp", JNum (inject_Z (timestamp entry)));
                (lit "data", JStr (data entry))]) /\
  run env (decode_line (JSON_stringify entry)) h w =
    mkOutcome (inr (JStr (data entry))) h w [] /\
  exists rest,
    payloads (trace (run env (wrappedProcessor caller (JSON_stringify entry)) h w)) =
    JStr (data entry) :: rest.
Proof.
  split; [apply parse_stringify|]. split.
  - rewrite decode_line_pure, payload_of_stringify. reflexivity.
  - apply run_wrapped_payload. unfold JSON_parse. rewrite parse_stringify. reflexivity.
Qed.

(** X23.  A stored line that is an integer in decimal is valid JSON
    without a [data] member: it does not take the legacy path.
    [inspect] returns [undefined] for it, not the line, and the wrapped
    processor hands [undefined] to the caller's processor. *)
Theorem X23_numeric_line_decodes_to_undefined
    {W : Type} (env : environment W) (n : Z) (h : heap) (w : W) :
  payload_of (Number_toString n) = JUndefined /\
  run env (decode_line (Number_toString n)) h w = mkOutcome (inr JUndefined) h w [] /\
  exists rest,
    payloads (trace (run env (wrappedProcessor caller (Number_toString n)) h w)) =
    JUndefined :: rest.
Proof.
  assert (Hp : payload_of (Number_toString n) = JUndefined).
  { unfold payload_of. rewrite parse_number_line. reflexivity. }
  split; [exact Hp|]. split.
  - rewrite decode_line_pure, Hp. reflexivity.
  - apply run_wrapped_payload. unfold JSON_parse. rewrite parse_number_line. reflexivity.
Qed.

End ClientRoundTrip.

Section ClientAppend.

Import DurabilityManager DurableWal.

Context (this : DurabilityManager).

(** X19.  [append] validates only blankness.  It fails with "Cannot
    append empty content", before any request, exactly on the contents
    made of white space only (the empty one included); every other
    content gets as far as drawing its id. *)
Theorem X19_append_rejects_exactly_blank (content : jsstr) (h : heap) :
  if forallb is_white content
  then start (append this content) h =
       (h, Finished (inl (Error (lit "Cannot append empty content"))))
  else waits_for (start (append this content) h).2 = Some (existT _ randomUUID).
Proof.
  unfold append. destruct (forallb is_white content) eqn:E.
  - rewrite trim_white by exact E. cbn [length Nat.eqb]. rewrite orb_true_r. reflexivity.
  - destruct content as [|c r]; [discriminate|].
    destruct (trim (c :: r)) eqn:Ht; [apply trim_nil in Ht; congruence|].
    reflexivity.
Qed.

(** X20.  A failed [append] returns no id.  On a log that is not
    registered the call fails with the registry's error after having
    drawn an id and read the clock, and nothing is written; when the
    write is rejected the call fails with the error of the write. *)
Theorem X20_append_failure_propagates
    {W : Type} (env : environment W) (content : jsstr) (h : heap) (w : W) :
  forallb is_white content = false ->
  let u := env _ randomUUID w in
  let n := env _ Date_now u.2 in
  let entry := {| id := u.1; timestamp := n.1; data := content |} in
  let o := run env (append this content) h w in
  (_logs h !! walFileName this = None ->
   res o = inl (WALManager.NotRegistered (walFileName this)) /\
   requests (trace o) = [existT _ randomUUID; existT _ Date_now] /\
   heap_of o = h) /\
  (forall wal e,
      _logs h !! walFileName this = Some wal ->
      (env _ (appendFile (WALManager.path_join (walManager this) (WAL.fileName wal))
                         (JSON_stringify entry ++ [LF])) n.2).1 = inl e ->
      res o = inl e).
Proof.
  intros Hwhite u n entry o. subst o. unfold append.
  destruct content as [|c r]; [discriminate|].
  destruct (trim (c :: r)) eqn:Ht; [apply trim_nil in Ht; congruence|].
  cbn [length Nat.eqb orb].
  rewrite run_mbind, run_ask. cbn [res heap_of world_of trace prepend].
  rewrite run_mbind, run_ask. cbn [res heap_of world_of trace prepend].
  rewrite run_mbind. unfold DurabilityManager.append, WALManager.append.
  cbn [run]. fold u. fold n.
  split.
  - intros Hlog. rewrite Hlog. cbn. auto.
  - intros wal e Hlog Hwrite. rewrite Hlog. rewrite run_await.
    cbn [res heap_of world_of trace prepend].
    unfold entry in Hwrite. cbn [id] in *. rewrite Hwrite. reflexivity.
Qed.

End ClientAppend.

Section ClientAppendWitness.

Import DurabilityManager DurableWal.

Lemma X20_unregistered_and_full_disk_witness :
  res (run platform (append test_manager (lit "event1")) fresh boot)
    = inl (WALManager.NotRegistered test_name) /\
  res (run platform (append test_manager (lit "event1")) registered full_disk)
    = inl ENOSPC.
Proof.
  destruct (X20_append_failure_propagates test_manager platform (lit "event1") fresh boot
              eq_refl) as [Hnone _].
  destruct (X20_append_failure_propagates test_manager platform (lit "event1") registered
              full_disk eq_refl) as [_ Hsome].
  split.
  - apply Hnone. reflexivity.
  - apply (Hsome test_wal ENOSPC); reflexivity.
Defined.

End ClientAppendWitness.

Section AppendThenInspect.

Import DurabilityManager DurableWal.

Lemma platform_keeps_disk_full {A} (op : io A) (w : world) :
  disk_full (platform _ op w).2 = disk_full w.
Proof. destruct op; cbn; try reflexivity; destruct (disk_full w) eqn:E; cbn; auto. Qed.

Lemma run_platform_disk_full {R} (p : prog R) h (w : world) :
  disk_full (world_of (run platform p h w)) = disk_full w.
Proof.
  revert h w.
  induction p as [r|e|k IH|h' k IH|X op k IH]; intros h w; simpl; auto.
  rewrite IH. apply platform_keeps_disk_full.
Qed.

Lemma lines_of_unlines (sers : list jsstr) :
  forall old,
    registry_content old ->
    Forall (fun s => no_LF s /\ nonblank s = true) sers ->
    lines_of (old ++ unlines sers) = lines_of old ++ sers.
Proof.
  induction sers as [|s ss IH]; intros old Hold Hall.
  - unfold unlines. cbn. rewrite !app_nil_r. reflexivity.
  - inversion Hall as [|? ? [Hno Hnb] Hall']; subst.
    unfold unlines in *. cbn [map concat].
    rewrite (app_assoc old).
    rewrite IH by (try constructor; assumption).
    rewrite lines_of_append by assumption.
    rewrite <- app_assoc. reflexivity.
Qed.

Context (this : DurabilityManager).

Lemma append_all_platform (contents : list jsstr) :
  forall h (w : world) wal old,
    Forall accepted contents ->
    _logs h !! walFileName this = Some wal ->
    files w !! WALManager.path_join (walManager this) (WAL.fileName wal) = Some old ->
    disk_full w = false ->
    let o := run platform (append_all this contents) h w in
    exists entries : list WalEntry,
      res o = inr (map id entries) /\
      heap_of o = h /\
      map data entries = contents /\
      files (world_of o) !! WALManager.path_join (walManager this) (WAL.fileName wal) =
        Some (old ++ unlines (map JSON_stringify entries)).
Proof.
  induction contents as [|c cs IH]; intros h w wal old Hacc Hlog Hfile Hdisk; cbv zeta.
  - exists []. cbn. rewrite app_nil_r. auto.
  - inversion Hacc as [|? ? [Hne Htrim] Hacc']; subst.
    unfold append_all. cbn [map_prog]. rewrite run_mbind.
    destruct (run_platform_append this c h w wal old Hne Htrim Hlog Hfile Hdisk)
      as (Hres & Hheap & Hfiles & _).
    pose proof (run_platform_disk_full (DurableWal.append this c) h w) as Hd.
    rewrite Hdisk in Hd.
    destruct (run platform (DurableWal.append this c) h w) as [r1 h1 w1 t1].
    cbn [res heap_of world_of trace] in *. subst r1 h1.
    cbn [prepend res heap_of world_of trace]. rewrite run_mbind.
    assert (Hfile1 : files w1 !! WALManager.path_join (walManager this) (WAL.fileName wal)
                     = Some (old ++ JSON_stringify
                               {| id := lit "uuid-" ++ Number_toString (Z.of_nat (uuids w));
                                  timestamp := clock w; data := c |} ++ [LF])).
    { rewrite Hfiles. apply lookup_insert_eq. }
    destruct (IH h w1 wal _ Hacc' Hlog Hfile1 Hd) as (entries & Hr & Hh & Hdata & Hf).
    cbv zeta in Hr, Hh, Hdata, Hf. unfold append_all in Hr, Hh, Hf.
    destruct (run platform (map_prog (DurableWal.append this) cs) h w1) as [r2 h2 w2 t2].
    cbn [res heap_of world_of trace] in *. subst r2 h2.
    cbn [prepend res heap_of world_of trace run mret prog_ret].
    exists ({| id := lit "uuid-" ++ Number_toString (Z.of_nat (uuids w));
               timestamp := clock w; data := c |} :: entries).
    cbn [map data id]. rewrite Hdata, Hf.
    split; [reflexivity|]. split; [reflexivity|]. split; [reflexivity|].
    f_equal. unfold unlines. cbn [map concat]. rewrite <- !app_assoc. reflexivity.
Qed.

(** X21.  What was appended is what [inspect] returns, in order.  On a
    registered log whose file holds what the registry wrote, and a disk
    that takes the writes: after appending accepted contents one after
    the other, each call returned an id, [inspect] of as many records
    returns exactly these contents in the order of the calls, and
    [getEntryCount] has grown by their number. *)
Theorem X21_append_then_inspect
    (contents : list jsstr) (h : heap) (w : world) (wal : WAL.WAL) (old : jsstr) :
  Forall accepted contents ->
  _logs h !! walFileName this = Some wal ->
  files w !! WALManager.path_join (walManager this) (WAL.fileName wal) = Some old ->
  disk_full w = false ->
  registry_content old ->
  let o := run platform (append_all this contents) h w in
  exists ids : list jsstr,
    res o = inr ids /\ length ids = length contents /\
    res (run platform (inspect this (Z.of_nat (length contents))) (heap_of o) (world_of o))
      = inr (map JStr contents) /\
    res (run platform (getEntryCount this) (heap_of o) (world_of o))
      = inr (Z.of_nat (length (lines_of old) + length contents)).
Proof.
  intros Hacc Hlog Hfile Hdisk Hold o.
  destruct (append_all_platform contents h w wal old Hacc Hlog Hfile Hdisk)
    as (entries & Hres & Hheap & Hdata & Hfiles).
  fold o in Hres, Hheap, Hfiles.
  assert (Hlen : length entries = length contents) by (rewrite <- Hdata, length_map; reflexivity).
  assert (Hlines : lines_of (old ++ unlines (map JSON_stringify entries)) =
                   lines_of old ++ map JSON_stringify entries).
  { apply lines_of_unlines; [exact Hold|].
    apply Forall_map, Forall_forall. intros entry _.
    split; [apply JSON_stringify_no_LF | apply JSON_stringify_nonblank]. }
  exists (map id entries).
  split; [exact Hres|]. split; [rewrite length_map; exact Hlen|].
  rewrite Hheap. split.
  - rewrite run_inspect by lia. rewrite Hlog. cbv zeta.
    rewrite (platform_read _ _ _ Hfiles). cbn [res]. rewrite Hlines.
    rewrite <- Hlen, <- (length_map JSON_stringify entries), window_of_appended.
    rewrite <- Hdata, !map_map. f_equal.
    apply List.map_ext. intros entry. apply payload_of_stringify.
  - rewrite (run_getEntryCount this platform h (world_of o) wal _ Hlog
               (platform_read _ _ _ Hfiles)).
    rewrite Hlines, length_app, length_map, Hlen. reflexivity.
Qed.

End AppendThenInspect.

Section AppendThenInspectWitness.

Import DurabilityManager DurableWal.

Lemma X21_two_appends_witness :
  let contents := [lit "first"; lit "B" ++ [LF] ++ lit "b"] in
  let o := run platform (append_all test_manager contents) registered (disk three_events) in
  res (run platform (inspect test_manager 2) (heap_of o) (world_of o))
    = inr (map JStr contents) /\
  res (run platform (getEntryCount test_manager) (heap_of o) (world_of o)) = inr 5.
Proof.
  intros contents o.
  destruct (X21_append_then_inspect test_manager contents registered (disk three_events)
              test_wal three_events)
    as (ids & _ & _ & Hinspect & Hcount).
  - subst contents. repeat constructor; vm_compute; discriminate.
  - reflexivity.
  - reflexivity.
  - reflexivity.
  - exact three_events_content.
  - fold o in Hinspect, Hcount. split; [exact Hinspect|].
    rewrite Hcount. reflexivity.
Defined.

End AppendThenInspectWitness.

Section FailedReplay.

Import DurabilityManager DurableWal.

Context {W : Type} (env : environment W) (this : DurabilityManager).

Lemma retry_loop_rejected proc event attempts :
  (forall h w, exists e, res (run env (proc event) h w) = inl e) ->
  forall lastError attemptCount h w,
    res (run env (retry_loop this event proc attempts lastError attemptCount) h w)
    = inr false.
Proof.
  intros Hthrow.
  induction attempts as [|attempt rest IH]; intros lastError attemptCount h w.
  - rewrite run_retry_loop_exhausted.
    destruct lastError as [e|]; [destruct (truthy e)|]; reflexivity.
  - rewrite run_retry_loop_cons. cbv zeta.
    destruct (Hthrow h w) as [e He]. rewrite He. cbn [prepend res]. apply IH.
Qed.

Lemma process_loop_rejected proc events :
  (forall event h w, exists e, res (run env (proc event) h w) = inl e) ->
  observer_quiet this env ->
  forall acc h w,
    res (run env (for_of events acc (replay_step this proc)) h w) =
    inr (Nat.iter (length events) count_failed acc).
Proof.
  intros Hthrow Hq.
  induction events as [|event rest IH]; intros acc h w.
  - reflexivity.
  - cbn [for_of]. rewrite run_bind, run_replay_step. cbv zeta.
    unfold processEventWithRetry.
    rewrite retry_loop_rejected by (apply Hthrow).
    cbn [res]. rewrite notify_quiet by exact Hq.
    cbn [res prepend]. rewrite IH. cbn [length]. rewrite Nat.iter_succ_r. reflexivity.
Qed.

Lemma wrapped_rejects line h w :
  always_rejects env ->
  exists e, res (run env (wrappedProcessor caller line) h w) = inl e.
Proof.
  intros Hrej. unfold wrappedProcessor. rewrite run_try_catch.
  assert (Hcall : forall payload h' w',
             exists e, res (run env (caller payload) h' w') = inl e).
  { intros payload h' w'. unfold caller. rewrite run_await. cbn [res]. apply Hrej. }
  assert (Hbody : exists e,
             res (run env (entry ← JSON_parse line; payload ← dot_data entry; caller payload)
                      h w) = inl e).
  { unfold JSON_parse. destruct (JSON.parse line) as [entry|]; [|eexists; reflexivity].
    cbn [mbind prog_bind bind]. unfold dot_data.
    destruct (get_data entry) as [e|payload]; cbn [bind]; [eexists; reflexivity|].
    apply Hcall. }
  destruct Hbody as [e He]. rewrite He. cbn [prepend res]. apply Hcall.
Qed.

(** X22.  A replay with failures is reported by an exception, not by a
    result.  With a processor that rejects every invocation, and with no
    observer or one that does not throw, [replay] of the client fails
    with "Replay failed: n events failed out of n" where [n] is the size
    of the window, and returns normally only when the window is
    empty. *)
Theorem X22_failed_replay_throws
    (eventNum : Z) (h : heap) (w : W) (wal : WAL.WAL) (content : jsstr) :
  0 <= eventNum ->
  always_rejects env ->
  observer_quiet this env ->
  isReplaying h = false ->
  _logs h !! walFileName this = Some wal ->
  (env _ (readFile (WALManager.path_join (walManager this) (WAL.fileName wal))) w).1
    = inr content ->
  let n := Z.of_nat (length (eventsToReplay eventNum (lines_of content))) in
  res (run env (DurableWal.replay this eventNum (Some caller)) h w) =
  if n =? 0 then inr tt
  else inl (Error (lit "Replay failed: " ++ Number_toString n ++
                   lit " events failed out of " ++ Number_toString n)).
Proof.
  intros Hnum Hrej Hq Hflag Hlog Hread n.
  unfold DurableWal.replay.
  replace (eventNum <? 0) with false by (symmetry; apply Z.ltb_ge; exact Hnum).
  rewrite run_mbind, run_replay, Hflag. cbv zeta. cbn [res].
  rewrite run_replay_body. cbn [set_isReplaying _logs]. rewrite Hlog. cbv zeta.
  rewrite Hread. cbn [prepend res heap_of world_of trace].
  unfold process_events.
  rewrite process_loop_rejected
    by (try exact Hq; intros event h' w'; apply wrapped_rejects; exact Hrej).
  match goal with
  | |- context [Nat.iter ?k count_failed ?a] =>
      destruct (iter_count_failed k a) as (I1 & I2 & I3 & I4);
      destruct (Nat.iter k count_failed a) as [s p f e]
  end.
  cbn [processedCount failedCount errors success] in I1, I2, I3, I4. subst p f e s.
  cbn [res success]. unfold ReplayFailed. cbn [failedCount processedCount].
  fold n. rewrite !Z.add_0_l. subst n.
  destruct (length (eventsToReplay eventNum (lines_of content))); reflexivity.
Qed.

End FailedReplay.

Section FailedReplayWitness.

Import DurabilityManager DurableWal.

Lemma X22_two_failures_witness :
  res (run hostile (DurableWal.replay test_manager 2 (Some caller)) registered
           (disk three_events))
  = inl (Error (lit "Replay failed: 2 events failed out of 2")).
Proof.
  rewrite (X22_failed_replay_throws hostile test_manager 2 registered (disk three_events)
             test_wal three_events).
  - reflexivity.
  - lia.
  - intros payload w. eexists. reflexivity.
  - left. reflexivity.
  - reflexivity.
  - reflexivity.
  - reflexivity.
Defined.

End FailedReplayWitness.

Section DeliveredContents.

Import DurabilityManager DurableWal.

Context {W : Type} (env : environment W) (this : DurabilityManager).

Lemma wrapped_resolves line h w :
  always_resolves env ->
  run env (wrappedProcessor caller line) h w =
  mkOutcome (inr tt) h (env _ (call_processor (payload_of line)) w).2
            [Ev h (call_processor (payload_of line)) (inr tt)].
Proof.
  intros Hres.
  assert (Hcall : forall payload,
             run env (caller payload) h w =
             mkOutcome (inr tt) h (env _ (call_processor payload) w).2
                       [Ev h (call_processor payload) (inr tt)]).
  { intros payload. unfold caller. rewrite run_await, Hres. reflexivity. }
  unfold wrappedProcessor, payload_of, JSON_parse.
  destruct (JSON.parse line) as [entry|].
  - cbn [mbind prog_bind bind]. unfold dot_data.
    destruct (get_data entry) as [e|payload]; cbn [mbind prog_bind bind try_catch].
    + apply Hcall.
    + rewrite run_try_catch, Hcall. reflexivity.
  - cbn [mbind prog_bind bind try_catch]. apply Hcall.
Qed.

Lemma process_loop_resolving events :
  0 <= maxRetries (retryConfig this) ->
  always_resolves env ->
  observer_quiet this env ->
  forall acc h w,
    let o := run env (for_of events acc (replay_step this (wrappedProcessor caller))) h w in
    res o = inr (Nat.iter (length events) count_processed acc) /\
    payloads (trace o) = map payload_of events /\
    sleeps (trace o) = [] /\ diagnostics (trace o) = [].
Proof.
  intros Hmax Hres Hq.
  induction events as [|event rest IH]; intros acc h w; cbv zeta.
  - cbn. auto.
  - cbn [for_of]. rewrite run_bind, run_replay_step. cbv zeta.
    unfold processEventWithRetry.
    rewrite (seqZ_cons 0) by lia.
    rewrite run_retry_loop_cons. cbv zeta.
    rewrite wrapped_resolves by exact Hres.
    cbn [res heap_of world_of trace].
    pose proof (notify_quiet env this event true h
                  (env _ (call_processor (payload_of event)) w).2 Hq) as Hn.
    rewrite run_notify in Hn |- *.
    destruct (has_onEventProcessed this);
      cbn [res heap_of world_of trace] in Hn |- *; rewrite ?Hn;
      cbn [res heap_of world_of trace prepend app];
      match goal with
      | |- context [run env (for_of rest ?a _) ?h' ?w'] =>
          destruct (IH a h' w') as (Hr & Hp & Hs & Hd);
          cbv zeta in Hr, Hp, Hs, Hd;
          destruct (run env (for_of rest a _) h' w') as [r1 h1 w1 t1]
      end;
      cbn [res heap_of world_of trace] in *; subst r1;
      cbn [length map]; rewrite Nat.iter_succ_r;
      (split; [reflexivity|]).
    + change (payloads (_ :: _ :: t1)) with (payload_of event :: payloads t1).
      change (sleeps (_ :: _ :: t1)) with (sleeps t1).
      change (diagnostics (_ :: _ :: t1)) with (diagnostics t1).
      rewrite Hp. auto.
    + change (payloads (_ :: t1)) with (payload_of event :: payloads t1).
      change (sleeps (_ :: t1)) with (sleeps t1).
      change (diagnostics (_ :: t1)) with (diagnostics t1).
      rewrite Hp. auto.
Qed.

Lemma iter_count_processed n acc :
  processedCount (Nat.iter n count_processed acc) = processedCount acc + Z.of_nat n /\
  failedCount (Nat.iter n count_processed acc) = failedCount acc /\
  errors (Nat.iter n count_processed acc) = errors acc /\
  success (Nat.iter n count_processed acc) = success acc.
Proof.
  induction n as [|n (IH1 & IH2 & IH3 & IH4)].
  - cbn. repeat split; auto; lia.
  - rewrite Nat.iter_succ.
    cbn [count_processed processedCount failedCount errors success].
    rewrite IH1, IH2, IH3, IH4. repeat split; auto; lia.
Qed.

(** X24.  What was appended is what [replay] delivers.  When the file
    holds what the registry wrote followed by the serialized envelopes
    of some appends, and the caller's processor resolves, a replay of as
    many records invokes the processor exactly once per envelope, on
    its content and in the order of the appends, never sleeps, and
    returns normally. *)
Theorem X24_replay_delivers_contents
    (h : heap) (w : W) (wal : WAL.WAL) (old : jsstr) (entries : list WalEntry) :
  0 <= maxRetries (retryConfig this) ->
  always_resolves env ->
  observer_quiet this env ->
  isReplaying h = false ->
  _logs h !! walFileName this = Some wal ->
  registry_content old ->
  (env _ (readFile (WALManager.path_join (walManager this) (WAL.fileName wal))) w).1
    = inr (old ++ unlines (map JSON_stringify entries)) ->
  let o := run env (DurableWal.replay this (Z.of_nat (length entries)) (Some caller)) h w in
  res o = inr tt /\
  payloads (trace o) = map (fun entry => JStr (data entry)) entries /\
  sleeps (trace o) = [] /\
  diagnostics (trace o) = [].
Proof.
  intros Hmax Hres Hq Hflag Hlog Hold Hread o. subst o.
  unfold DurableWal.replay.
  replace (Z.of_nat (length entries) <? 0) with false by (symmetry; apply Z.ltb_ge; lia).
  rewrite run_mbind, run_replay, Hflag. cbv zeta. cbn [res heap_of world_of trace].
  rewrite run_replay_body. cbn [set_isReplaying _logs]. rewrite Hlog. cbv zeta.
  rewrite Hread. cbn [prepend res heap_of world_of trace].
  unfold process_events.
  rewrite lines_of_unlines;
    [|exact Hold
     |apply Forall_map, Forall_forall; intros entry _;
      split; [apply JSON_stringify_no_LF | apply JSON_stringify_nonblank]].
  rewrite <- (length_map JSON_stringify entries), window_of_appended.
  match goal with
  | |- context [run env (for_of ?evs ?a _) ?h' ?w'] =>
      destruct (process_loop_resolving evs Hmax Hres Hq a h' w') as (Hr & Hp & Hs & Hd);
      destruct (iter_count_processed (length evs) a) as (_ & _ & _ & I4);
      cbv zeta in Hr, Hp, Hs, Hd;
      destruct (run env (for_of evs a _) h' w') as [r1 h1 w1 t1]
  end.
  cbn [res heap_of world_of trace] in *. subst r1.
  cbn [success] in I4. rewrite I4.
  cbn [negb run mret prog_ret prepend res trace app].
  rewrite app_nil_r.
  change (payloads (_ :: t1)) with (payloads t1).
  change (sleeps (_ :: t1)) with (sleeps t1).
  change (diagnostics (_ :: t1)) with (diagnostics t1).
  rewrite Hp, map_map.
  split; [reflexivity|]. split; [|auto].
  apply List.map_ext. intros entry. apply payload_of_stringify.
Qed.

End DeliveredContents.

Section DeliveredContentsWitness.

Import DurabilityManager DurableWal.

Lemma X24_one_envelope_witness :
  let o := run obliging (DurableWal.replay test_manager 1 (Some caller)) registered
               (disk (unlines [envelope_x])) in
  res o = inr tt /\ payloads (trace o) = [JStr (lit "x")] /\ sleeps (trace o) = [].
Proof.
  destruct (X24_replay_delivers_contents obliging test_manager registered
              (disk (unlines [envelope_x])) test_wal []
              [{| id := lit "1"; timestamp := 0; data := lit "x" |}])
    as (Hres & Hp & Hs & _).
  - cbn. lia.
  - intros payload w. reflexivity.
  - left. reflexivity.
  - reflexivity.
  - reflexivity.
  - constructor.
  - reflexivity.
  - split; [exact Hres|]. split; [exact Hp | exact Hs].
Defined.

End DeliveredContentsWitness.
